(** * Cycloidal gear generator: curve generation and DXF export

    A shallow embedding of the curve generators and of the DXF export of
    [cycloidal_Gear_generator_V1-5.py], of its SVG export, its viewer and
    its slider panel, and of the generators of
    [cycloidal_Gear_generator_V1-1.py] that differ from them.

    Conventions of the embedding.
    - A Python [int] is a [Z]; a Python or numpy float is a real number, so
      rounding error is not represented.
    - A Python scalar division raises [ZeroDivisionError] on a zero divisor
      ([py_div]); a numpy array division by zero only warns and stores
      [inf] or [nan] ([np_div]).  These non-finite values are the single
      value [nonfinite] of [npfloat]; [+], [-] and [*] never turn a
      non-finite operand back into a finite result.
    - An elementwise numpy expression over an array is a [map] over the
      list of its samples.
    - A function that can raise returns a [result]. *)

From Stdlib Require Import String Reals Lra Lia ZArith List Bool.
Import ListNotations.
Open Scope R_scope.

(** ** Python outcomes *)

Inductive exn : Type :=
| ZeroDivisionError
| ValueError
| IndexError
| ImportError
| OSError.

Inductive result (A : Type) : Type :=
| Ok (a : A)
| Raise (e : exn).
Arguments Ok {A} a.
Arguments Raise {A} e.

Definition bind {A B : Type} (m : result A) (k : A -> result B) : result B :=
  match m with
  | Ok a => k a
  | Raise e => Raise e
  end.

Notation "x <- m ;; k" := (bind m (fun x => k))
  (at level 61, m at next level, right associativity).

Definition raises {A : Type} (m : result A) : Prop := exists e, m = Raise e.

(** [a / b] on Python scalars. *)
Definition py_div (a b : R) : result R :=
  if Req_dec_T b 0 then Raise ZeroDivisionError else Ok (a / b).

(** [range(n)]. *)
Definition range (n : Z) : list Z := map Z.of_nat (seq 0 (Z.to_nat n)).

(** [min(a, b)] of Python: [b] when [b < a], else [a]. *)
Definition py_min (a b : R) : R := if Rlt_dec b a then b else a.

(** [round(x)] on a float: to the nearest integer, ties to the even one. *)
Definition py_round (x : R) : Z :=
  let f := Zfloor x in
  let d := x - IZR f in
  if Rlt_dec d (1 / 2) then f
  else if Rlt_dec (1 / 2) d then (f + 1)%Z
  else if Z.even f then f else (f + 1)%Z.

(** ** numpy floats *)

Inductive npfloat : Type :=
| fin (r : R)
| nonfinite.

Coercion fin : R >-> npfloat.

Definition np_lift2 (f : R -> R -> R) (a b : npfloat) : npfloat :=
  match a, b with
  | fin x, fin y => fin (f x y)
  | _, _ => nonfinite
  end.

Definition np_add := np_lift2 Rplus.
Definition np_sub := np_lift2 Rminus.
Definition np_mul := np_lift2 Rmult.

(** Array division: a zero divisor gives [inf] or [nan] and a warning. *)
Definition np_div (a b : R) : npfloat :=
  if Req_dec_T b 0 then nonfinite else fin (a / b).

Declare Scope np_scope.
Delimit Scope np_scope with np.
Infix "+" := np_add : np_scope.
Infix "-" := np_sub : np_scope.
Infix "*" := np_mul : np_scope.

(** [ys[-1] = v] on a list. *)
Fixpoint set_last (ys : list R) (v : R) : list R :=
  match ys with
  | [] => []
  | [_] => [v]
  | y :: ys' => y :: set_last ys' v
  end.

(** [np.linspace(start, stop, num, endpoint)]. *)
Definition linspace (start stop : R) (num : Z) (endpoint : bool)
  : result (list R) :=
  if (num <? 0)%Z then Raise ValueError else
  let div := if endpoint then (num - 1)%Z else num in
  let delta := stop - start in
  let y := if (0 <? div)%Z
           then map (fun i => IZR i * (delta / IZR div)) (range num)
           else map (fun i => IZR i * delta) (range num) in
  let y := map (fun v => v + start) y in
  Ok (if endpoint && (1 <? num)%Z then set_last y stop else y).

(** ** Curves *)

(** A row [[x, y, 0]] of a finite curve. *)
Definition point3 : Type := R * R * R.
(** A row of the disk curve, whose coordinates may be non-finite. *)
Definition fpoint3 : Type := npfloat * npfloat * npfloat.

(** ** The parameter dictionary *)

Record params : Type := {
  eccentricity : R;
  num_external_pins : Z;
  num_output_pins : Z;
  ring_diameter : R;
  pin_diameter : R;
  output_disk_diameter : R;
  output_pin_diameter : R;
  camshaft_diameter : R;
  tolerance : R;
  show_outer_ring : bool;
  outer_ring_width : R
}.

(** ** Math functions *)

(** [effective_pin_radius = pin_radius + tolerance] of [cycloid_disk]. *)
Definition effective_pin_radius (pin_radius tolerance : R) : R :=
  pin_radius + tolerance.

(** [hole_radius = output_pin_radius + eccentricity + tolerance] of
    [inner_circles]. *)
Definition hole_radius (output_pin_radius eccentricity tolerance : R) : R :=
  output_pin_radius + eccentricity + tolerance.

(** [hole_diameter = camshaft_diameter + 2 * tolerance] of [camshaft]. *)
Definition hole_diameter (camshaft_diameter tolerance : R) : R :=
  camshaft_diameter + 2 * tolerance.

(** One sample of the vectorised body of [cycloid_disk]; [k] is
    [(rolling + stationary) / stationary], [q] is
    [eccentricity / stationary] and [rot] is [-phi / num_lobes]. *)
Definition cycloid_disk_sample
    (eccentricity rolling_circle_radius stationary_circle_radius k q
     effective_pin_radius rot phi : R) (t : R) : fpoint3 :=
  let xa := (rolling_circle_radius + stationary_circle_radius) * cos t
            - eccentricity * cos (k * t) in
  let ya := (rolling_circle_radius + stationary_circle_radius) * sin t
            - eccentricity * sin (k * t) in
  let dxa := (rolling_circle_radius + stationary_circle_radius)
             * (- sin t + q * sin (k * t)) in
  let dya := (rolling_circle_radius + stationary_circle_radius)
             * (cos t - q * cos (k * t)) in
  let xd := (fin xa
             + np_div effective_pin_radius (sqrt (dxa ^ 2 + dya ^ 2))
               * fin (- dya))%np in
  let yd := (fin ya
             + np_div effective_pin_radius (sqrt (dxa ^ 2 + dya ^ 2))
               * fin dxa)%np in
  let x := (xd * fin (cos rot) - yd * fin (sin rot)
            + fin (eccentricity * cos phi))%np in
  let y := (xd * fin (sin rot) + yd * fin (cos rot)
            + fin (eccentricity * sin phi))%np in
  (x, y, fin 0).

(** [cycloid_disk], with its local constant [points_per_lobe] as an
    argument. *)
Definition cycloid_disk_with (points_per_lobe : Z)
    (eccentricity : R) (num_external_pins : Z)
    (ring_diameter pin_diameter phi tolerance : R)
  : result (list (list fpoint3)) :=
  let ring_radius := ring_diameter / 2 in
  let pin_radius := pin_diameter / 2 in
  let num_lobes := (num_external_pins - 1)%Z in
  ratio <- py_div (IZR num_lobes) (IZR (num_lobes + 1)) ;;
  let rolling_circle_radius := ratio * ring_radius in
  stationary_circle_radius <- py_div ring_radius (IZR (num_lobes + 1)) ;;
  let total_points := (points_per_lobe * num_lobes)%Z in
  t_full <- linspace 0 (2 * PI) total_points true ;;
  k <- py_div (rolling_circle_radius + stationary_circle_radius)
              stationary_circle_radius ;;
  q <- py_div eccentricity stationary_circle_radius ;;
  rot <- py_div (- phi) (IZR num_lobes) ;;
  Ok [ map (cycloid_disk_sample eccentricity rolling_circle_radius
              stationary_circle_radius k q
              (effective_pin_radius pin_radius tolerance) rot phi)
           t_full ].

(** The display generator: 1500 points per lobe. *)
Definition cycloid_disk := cycloid_disk_with 1500.

(** A [for] loop that appends one value per iteration and may raise. *)
Fixpoint mapM {A B : Type} (f : A -> result B) (l : list A)
  : result (list B) :=
  match l with
  | [] => Ok []
  | a :: l' => b <- f a ;; bs <- mapM f l' ;; Ok (b :: bs)
  end.

Definition pin_ring (num_pins : Z) (ring_diameter pin_diameter : R)
  : result (list (list point3)) :=
  t <- linspace 0 (2 * PI) 200 true ;;
  mapM (fun i =>
          a <- py_div (2 * PI * IZR i) (IZR num_pins) ;;
          Ok (map (fun t =>
                     (pin_diameter / 2 * sin t + ring_diameter / 2 * cos a,
                      pin_diameter / 2 * cos t + ring_diameter / 2 * sin a,
                      0)) t))
       (range num_pins).

Definition inner_pins (num_output_pins num_external_pins : Z)
    (output_pin_diameter output_disk_diameter phi : R)
  : result (list (list point3)) :=
  t <- linspace 0 (2 * PI) 200 true ;;
  let num_lobes := (num_external_pins - 1)%Z in
  let output_pin_radius := output_pin_diameter / 2 in
  let output_disk_radius := output_disk_diameter / 2 in
  mapM (fun i =>
          a <- py_div (2 * PI * IZR i) (IZR num_output_pins) ;;
          rot <- py_div (- phi) (IZR num_lobes) ;;
          Ok (map (fun t =>
                     ((output_pin_radius * sin t + output_disk_radius * cos a)
                        * cos rot
                      - (output_pin_radius * cos t + output_disk_radius * sin a)
                        * sin rot,
                      (output_pin_radius * sin t + output_disk_radius * cos a)
                        * sin rot
                      + (output_pin_radius * cos t + output_disk_radius * sin a)
                        * cos rot,
                      0)) t))
       (range num_output_pins).

Definition inner_circles (eccentricity : R)
    (num_output_pins num_external_pins : Z)
    (output_pin_diameter output_disk_diameter phi tolerance : R)
  : result (list (list point3)) :=
  t <- linspace 0 (2 * PI) 200 true ;;
  let num_lobes := (num_external_pins - 1)%Z in
  let output_pin_radius := output_pin_diameter / 2 in
  let output_disk_radius := output_disk_diameter / 2 in
  mapM (fun i =>
          let hole_radius :=
            hole_radius output_pin_radius eccentricity tolerance in
          a <- py_div (2 * PI * IZR i) (IZR num_output_pins) ;;
          rot <- py_div (- phi) (IZR num_lobes) ;;
          Ok (map (fun t =>
                     ((hole_radius * cos t + output_disk_radius * cos a)
                        * cos rot
                      - (hole_radius * sin t + output_disk_radius * sin a)
                        * sin rot
                      + eccentricity * cos phi,
                      (hole_radius * cos t + output_disk_radius * cos a)
                        * sin rot
                      + (hole_radius * sin t + output_disk_radius * sin a)
                        * cos rot
                      + eccentricity * sin phi,
                      0)) t))
       (range num_output_pins).

Definition camshaft (camshaft_diameter phi tolerance : R)
  : result (list point3) :=
  t <- linspace 0 (2 * PI) 200 true ;;
  let hole_diameter := hole_diameter camshaft_diameter tolerance in
  Ok (map (fun t => (hole_diameter / 2 * cos t,
                     hole_diameter / 2 * sin t,
                     0)) t).

Definition eccentric_camshaft (eccentricity camshaft_diameter phi : R)
  : result (list point3) :=
  t <- linspace 0 (2 * PI) 200 true ;;
  let shaft_radius := (camshaft_diameter - 2 * eccentricity) / 2 in
  Ok (map (fun t => (shaft_radius * cos t + eccentricity * cos phi,
                     shaft_radius * sin t + eccentricity * sin phi,
                     0)) t).

(** [inner_points[0]]. *)
Definition first_item {A : Type} (l : list A) : result A :=
  match l with
  | [] => Raise IndexError
  | a :: _ => Ok a
  end.

Definition outer_ring (num_pins : Z)
    (ring_diameter pin_diameter ring_width tolerance : R)
  : result (list point3 * list point3) :=
  let pin_radius := pin_diameter / 2 in
  let ring_radius := ring_diameter / 2 in
  let points_per_segment := 100%Z in
  let total_points := (points_per_segment * num_pins)%Z in
  inner_points <-
    mapM (fun i =>
            angle <- py_div (2 * PI * IZR i) (IZR total_points) ;;
            let pin_factor := cos (IZR num_pins * angle) in
            let pocket_depth := pin_radius * 0.8 in
            let clearance_space := pin_radius * 0.8 in
            let radius_variation := pocket_depth + clearance_space in
            let inner_radius :=
              ring_radius - pocket_depth
              + radius_variation * (1 - pin_factor) / 2 in
            Ok (inner_radius * cos angle, inner_radius * sin angle, 0))
         (range total_points) ;;
  p0 <- first_item inner_points ;;
  let inner_profile := inner_points ++ [p0] in
  let outer_radius := ring_radius + ring_width in
  t <- linspace 0 (2 * PI) 200 true ;;
  let outer_profile :=
    map (fun angle => (outer_radius * cos angle,
                       outer_radius * sin angle,
                       0)) t in
  Ok (inner_profile, outer_profile).

(** ** DXF export *)

(** The entities the export adds to the model space. *)
Inductive entity : Type :=
| Point (location : R * R) (layer : string)
| Circle (center : R * R) (radius : R) (layer : string)
| LWPolyline (points : list (R * R)) (close : bool) (layer : string)
| Spline (fit_points : list fpoint3) (closed : bool) (layer : string).

Definition entity_layer (en : entity) : string :=
  match en with
  | Point _ l | Circle _ _ l | LWPolyline _ _ l | Spline _ _ l => l
  end.

(** A drawing: the layers created by the export, and the model space. *)
Record document : Type := {
  layers : list (string * Z);
  modelspace : list entity
}.

(** What the export depends on outside the program: whether [ezdxf] can be
    imported, which paths can be written, and the files written so far. *)
Record world : Type := {
  ezdxf_installed : bool;
  writable : string -> bool;
  files : string -> option document
}.

(** The world after [doc] has been saved as [filename]. *)
Definition saved (doc : document) (filename : string) (w : world) : world :=
  {| ezdxf_installed := ezdxf_installed w;
     writable := writable w;
     files := fun f => if String.eqb f filename then Some doc
                       else files w f |}.

(** [doc.saveas(filename)]. *)
Definition saveas (doc : document) (filename : string) (w : world)
  : result world :=
  if writable w filename then Ok (saved doc filename w) else Raise OSError.

Definition layers_config : list (string * Z) :=
  [ ("CYCLOID_DISK", 1); ("OUTPUT_PINS", 3); ("OUTPUT_HOLES", 6);
    ("CAMSHAFT_HOLE", 5); ("ECCENTRIC_CAM", 2); ("OUTER_RING", 8);
    ("PIN_CENTERS", 7); ("CENTER_AXIS", 4) ]%Z%string.

(** Section 2 of the export: one point per external pin.  [Rring] is the
    source's [R]. *)
Definition dxf_pin_centers (Ne : Z) (Rring : R) : result (list entity) :=
  mapM (fun i =>
          a <- py_div (2 * PI * IZR i) (IZR Ne) ;;
          let cx := Rring * cos a in
          let cy := Rring * sin a in
          Ok (Point (cx, cy) "PIN_CENTERS"))
       (range Ne).

(** Section 3, step A: the housing wall radius at [theta]. *)
Definition r_housing (Ne : Z) (Rring pocket_depth radius_variation theta : R)
  : R :=
  let pin_factor := cos (IZR Ne * theta) in
  Rring - pocket_depth + (radius_variation * (1 - pin_factor) / 2).

(** Section 3, step B: ray casting on the pin nearest to [theta]. *)
Definition r_pin (Ne : Z) (Rring rp theta : R) : result R :=
  step <- py_div (2 * PI) (IZR Ne) ;;
  let pin_idx := py_round (theta / step) in
  let pin_angle := IZR pin_idx * step in
  let cx := Rring * cos pin_angle in
  let cy := Rring * sin pin_angle in
  let dot_prod := cx * cos theta + cy * sin theta in
  let dist_sq := cx ^ 2 + cy ^ 2 in
  let discriminant := dot_prod ^ 2 - (dist_sq - rp ^ 2) in
  Ok (if Rle_dec 0 discriminant
      then let d1 := dot_prod - sqrt discriminant in
           if Rlt_dec 0 d1 then d1 else 1e9
      else 1e9).

(** Section 3, step C: the merged radius at [theta]. *)
Definition final_r (Ne : Z) (Rring rp pocket_depth radius_variation theta : R)
  : result R :=
  let rh := r_housing Ne Rring pocket_depth radius_variation theta in
  rpin <- r_pin Ne Rring rp theta ;;
  Ok (py_min rh rpin).

(** The sample angles of the merged outline. *)
Definition housing_angles (Ne : Z) : result (list R) :=
  let points_per_pin := 30%Z in
  let num_samples := (Ne * points_per_pin)%Z in
  linspace 0 (2 * PI) num_samples false.

(** Section 3: the merged outer ring. *)
Definition dxf_outer_ring (Ne : Z) (Rring pin_d ring_w : R)
  : result (list entity) :=
  let rp := pin_d / 2 in
  let pocket_depth := rp * 0.8 in
  let clearance_space := rp * 0.8 in
  let radius_variation := pocket_depth + clearance_space in
  angles <- housing_angles Ne ;;
  poly_points <-
    mapM (fun theta =>
            r <- final_r Ne Rring rp pocket_depth radius_variation theta ;;
            Ok (r * cos theta, r * sin theta))
         angles ;;
  let outer_radius := Rring + ring_w in
  Ok [ LWPolyline poly_points true "OUTER_RING";
       Circle (0, 0) outer_radius "OUTER_RING" ].

(** Section 4: the output pins. *)
Definition dxf_output_pins (No : Z) (Rd out_pin_d : R) : result (list entity) :=
  mapM (fun i =>
          a <- py_div (2 * PI * IZR i) (IZR No) ;;
          let cx := Rd * cos a in
          let cy := Rd * sin a in
          Ok (Circle (cx, cy) (out_pin_d / 2) "OUTPUT_PINS"))
       (range No).

(** Section 5: the output holes in the disk. *)
Definition dxf_output_holes (No : Z)
    (Rd out_pin_d e tol disk_center_x disk_center_y : R)
  : result (list entity) :=
  let hole_r := out_pin_d / 2 + e + tol in
  mapM (fun i =>
          a <- py_div (2 * PI * IZR i) (IZR No) ;;
          let cx := Rd * cos a + disk_center_x in
          let cy := Rd * sin a + disk_center_y in
          Ok (Circle (cx, cy) hole_r "OUTPUT_HOLES"))
       (range No).

(** Section 6: the camshaft hole and the eccentric cam. *)
Definition dxf_camshaft (cam_d e tol disk_center_x disk_center_y : R)
  : list entity :=
  let cam_hole_r := cam_d / 2 + tol in
  let cam_lobe_r := (cam_d - 2 * e) / 2 in
  Circle (0, 0) cam_hole_r "CAMSHAFT_HOLE"
  :: (if Rlt_dec 0 cam_lobe_r
      then [ Circle (disk_center_x, disk_center_y) cam_lobe_r
               "ECCENTRIC_CAM" ]
      else []).

(** Section 7: one sample of the disk outline as the export computes it. *)
Definition dxf_disk_sample
    (e rolling stationary kk ee pin_r aa disk_center_x disk_center_y : R)
    (t : R) : fpoint3 :=
  let xa := (rolling + stationary) * cos t - e * cos (kk * t) in
  let ya := (rolling + stationary) * sin t - e * sin (kk * t) in
  let dxa := (rolling + stationary) * (- sin t + ee * sin (kk * t)) in
  let dya := (rolling + stationary) * (cos t - ee * cos (kk * t)) in
  let xd := (fin xa + np_div pin_r (sqrt (dxa ^ 2 + dya ^ 2))
                      * fin (- dya))%np in
  let yd := (fin ya + np_div pin_r (sqrt (dxa ^ 2 + dya ^ 2))
                      * fin dxa)%np in
  let x := (xd * fin (cos aa) - yd * fin (sin aa) + fin disk_center_x)%np in
  let y := (xd * fin (sin aa) + yd * fin (cos aa) + fin disk_center_y)%np in
  (x, y, fin 0).

(** Section 7: the disk outline, written as a closed spline. *)
Definition dxf_cycloid_disk (Ne : Z)
    (Rring e pin_d tol phi disk_center_x disk_center_y : R)
  : result (list entity) :=
  let points_per_lobe := 60%Z in
  let num_lobes := (Ne - 1)%Z in
  let total_points := (points_per_lobe * num_lobes)%Z in
  t <- linspace 0 (2 * PI) total_points true ;;
  ratio <- py_div (IZR num_lobes) (IZR (num_lobes + 1)) ;;
  let rolling := ratio * Rring in
  stationary <- py_div Rring (IZR (num_lobes + 1)) ;;
  kk <- py_div (rolling + stationary) stationary ;;
  ee <- py_div e stationary ;;
  let pin_r := pin_d / 2 + tol in
  aa <- py_div (- phi) (IZR num_lobes) ;;
  let spline_points :=
    map (dxf_disk_sample e rolling stationary kk ee pin_r aa
           disk_center_x disk_center_y) t in
  Ok [ Spline spline_points true "CYCLOID_DISK" ].

Definition export_to_dxf (filename : string) (params : params) (phi : R)
    (w : world) : result (bool * world) :=
  if negb (ezdxf_installed w) then Raise ImportError else
  let e := eccentricity params in
  let Ne := num_external_pins params in
  let No := num_output_pins params in
  let ring_d := ring_diameter params in
  let pin_d := pin_diameter params in
  let disk_d := output_disk_diameter params in
  let out_pin_d := output_pin_diameter params in
  let cam_d := camshaft_diameter params in
  let tol := tolerance params in
  let show_ring := show_outer_ring params in
  let ring_w := outer_ring_width params in
  let Rring := ring_d / 2 in
  let Rd := disk_d / 2 in
  let disk_center_x := e * cos phi in
  let disk_center_y := e * sin phi in
  let center := [ Point (0, 0) "CENTER_AXIS" ] in
  pin_centers <- dxf_pin_centers Ne Rring ;;
  ring <- (if show_ring then dxf_outer_ring Ne Rring pin_d ring_w
           else Ok []) ;;
  pins <- dxf_output_pins No Rd out_pin_d ;;
  holes <- dxf_output_holes No Rd out_pin_d e tol
             disk_center_x disk_center_y ;;
  let cam := dxf_camshaft cam_d e tol disk_center_x disk_center_y in
  disk <- dxf_cycloid_disk Ne Rring e pin_d tol phi
            disk_center_x disk_center_y ;;
  let doc := {| layers := layers_config;
                modelspace := center ++ pin_centers ++ ring ++ pins
                              ++ holes ++ cam ++ disk |} in
  w' <- saveas doc filename w ;;
  Ok (true, w').

(** ** The design document's formulas

    These definitions follow the wording of the design document, not the
    code; the theorems below compare the two. *)

(** The samples of [np.linspace(start, stop, num)] with its end point. *)
Definition grid (start stop : R) (num : Z) : list R :=
  map (fun i => IZR i * ((stop - start) / IZR (num - 1)) + start) (range num).

(** Lobe count [L = N - 1]. *)
Definition lobes (N : Z) : Z := (N - 1)%Z.

(** Rolling and stationary circle radii. *)
Definition r_c (N : Z) (D : R) : R :=
  IZR (lobes N) / (IZR (lobes N) + 1) * (D / 2).
Definition r_s (N : Z) (D : R) : R := (D / 2) / (IZR (lobes N) + 1).

(** The trace [(xa, ya)] and its derivative [(dxa, dya)]. *)
Definition trace_x (rc rs e t : R) : R :=
  (rc + rs) * cos t - e * cos ((rc + rs) / rs * t).
Definition trace_y (rc rs e t : R) : R :=
  (rc + rs) * sin t - e * sin ((rc + rs) / rs * t).
Definition trace_dx (rc rs e t : R) : R :=
  - (rc + rs) * sin t + e * ((rc + rs) / rs) * sin ((rc + rs) / rs * t).
Definition trace_dy (rc rs e t : R) : R :=
  (rc + rs) * cos t - e * ((rc + rs) / rs) * cos ((rc + rs) / rs * t).

(** [|(dxa, dya)|]. *)
Definition trace_speed (rc rs e t : R) : R :=
  sqrt ((trace_dx rc rs e t) ^ 2 + (trace_dy rc rs e t) ^ 2).

(** The unit normal [(-dya, dxa) / |(dxa, dya)|]. *)
Definition unit_normal (rc rs e t : R) : R * R :=
  (- trace_dy rc rs e t / trace_speed rc rs e t,
   trace_dx rc rs e t / trace_speed rc rs e t).

(** The trace moved by the distance [d] along the unit normal. *)
Definition offset_curve (rc rs e d t : R) : R * R :=
  (trace_x rc rs e t + d * fst (unit_normal rc rs e t),
   trace_y rc rs e t + d * snd (unit_normal rc rs e t)).

Definition rotate (a : R) (p : R * R) : R * R :=
  (fst p * cos a - snd p * sin a, fst p * sin a + snd p * cos a).

Definition translate (v p : R * R) : R * R :=
  (fst p + fst v, snd p + snd v).

(** The eccentricity vector [(e cos phi, e sin phi)]. *)
Definition ecc_vector (e phi : R) : R * R := (e * cos phi, e * sin phi).

(** The disk outline at parameter [t]: offset by [pinDiameter/2 +
    tolerance], rotated by [-phi/L], translated by the eccentricity
    vector. *)
Definition disk_outline (e : R) (N : Z) (D d tol phi t : R) : R * R :=
  translate (ecc_vector e phi)
    (rotate (- phi / IZR (lobes N))
       (offset_curve (r_c N D) (r_s N D) e (d / 2 + tol) t)).

(** A finite planar point as a row [[x, y, 0]] of floats. *)
Definition finite_row (p : R * R) : fpoint3 :=
  (fin (fst p), fin (snd p), fin 0).

(** The sample function of [cycloid_disk] at these radii. *)
Definition disk_sample (e : R) (N : Z) (D d tol phi : R) : R -> fpoint3 :=
  cycloid_disk_sample e (r_c N D) (r_s N D)
    ((r_c N D + r_s N D) / r_s N D) (e / r_s N D)
    (d / 2 + tol) (- phi / IZR (lobes N)) phi.

(** A row that is not finite in [x] and [y]. *)
Definition nonfinite_row : fpoint3 := (nonfinite, nonfinite, fin 0).

(** A planar point as a row [[x, y, 0]]. *)
Definition row (p : R * R) : point3 := (fst p, snd p, 0).

(** Squared distance of two planar points. *)
Definition dist2 (p c : R * R) : R :=
  (fst p - fst c) ^ 2 + (snd p - snd c) ^ 2.

(** Two outcomes agree: the same value, or an exception on both sides. *)
Definition same_outcome {A : Type} (m1 m2 : result A) : Prop :=
  match m1, m2 with
  | Ok a, Ok b => a = b
  | Raise _, Raise _ => True
  | _, _ => False
  end.

(** The point at angle [2 pi i / n] on the circle of radius [rad]. *)
Definition placement (n : Z) (rad : R) (i : Z) : R * R :=
  (rad * cos (2 * PI * IZR i / IZR n), rad * sin (2 * PI * IZR i / IZR n)).

(** Centre of output pin [i]: placed, then rotated by [-phi/L]. *)
Definition output_pin_center (No N : Z) (disk_d phi : R) (i : Z) : R * R :=
  rotate (- phi / IZR (lobes N)) (placement No (disk_d / 2) i).

(** Centre of output hole [i]: the pin centre moved by the eccentricity
    vector. *)
Definition output_hole_center (e : R) (No N : Z) (disk_d phi : R) (i : Z)
  : R * R :=
  translate (ecc_vector e phi) (output_pin_center No N disk_d phi i).

(** The row [p] lies in the plane [z = 0] on the circle of centre [c] and
    radius [r]. *)
Definition on_circle (c : R * R) (r : R) (p : point3) : Prop :=
  dist2 (fst p) c = r ^ 2 /\ snd p = 0.

(** The pin whose angle is nearest to [theta]: [theta] rounded to the
    pin-angle step [2 pi / N]. *)
Definition nearest_pin (N : Z) (theta : R) : Z :=
  py_round (theta / (2 * PI / IZR N)).

(** The point at distance [lam] on the ray of angle [theta] lies on the
    circle of centre [c] and radius [rp]. *)
Definition ray_hits (c : R * R) (rp theta lam : R) : Prop :=
  dist2 (lam * cos theta, lam * sin theta) c = rp ^ 2.

(** Pocket depth and clearance of the housing: [0.8 * pinRadius] each. *)
Definition pocketDepth (rp : R) : R := 0.8 * rp.
Definition clearance (rp : R) : R := 0.8 * rp.

(** The housing wall radius, blended by [cos (N theta)] between
    [ringRadius - pocketDepth] and that plus [pocketDepth + clearance]. *)
Definition housingWallRadius (N : Z) (ringRadius rp theta : R) : R :=
  (ringRadius - pocketDepth rp)
  + (pocketDepth rp + clearance rp) * ((1 - cos (IZR N * theta)) / 2).

(** The ray-circle intersection with the nearest pin: the smaller root of
    the quadratic when it is positive, and otherwise the code's "no
    intersection" value [1e9]. *)
Definition pinIntersectionRadius (N : Z) (ringRadius rp theta : R) : R :=
  let c := placement N ringRadius (nearest_pin N theta) in
  let proj := fst c * cos theta + snd c * sin theta in
  let disc := proj ^ 2 - (fst c ^ 2 + snd c ^ 2 - rp ^ 2) in
  if Rle_dec 0 disc
  then if Rlt_dec 0 (proj - sqrt disc) then proj - sqrt disc else 1e9
  else 1e9.

(** The angle of pin [j]. *)
Definition pin_angle (N : Z) (j : Z) : R := 2 * PI * IZR j / IZR N.

(** The sample angles of the housing outline: 30 per pin over
    [[0, 2 pi)]. *)
Definition housing_sample_angles (N : Z) : list R :=
  map (fun i => 2 * PI * IZR i / IZR (N * 30)) (range (N * 30)).

(** The merged silhouette radius. *)
Definition mergedRadius (N : Z) (ringRadius rp theta : R) : R :=
  Rmin (housingWallRadius N ringRadius rp theta)
       (pinIntersectionRadius N ringRadius rp theta).

(** The eccentric shaft radius [(camshaftDiameter - 2 e) / 2]. *)
Definition shaft_radius (e cam_d : R) : R := (cam_d - 2 * e) / 2.

(** The entities of the engineering drawing, in the order they are
    written: the axis point, one point per external pin, the housing (if
    enabled), the output pins, the output holes, the camshaft bore, the
    eccentric cam entities [cam], and the disk outline at 60 samples per
    lobe. *)
Definition dxf_entities (p : params) (phi : R) (cam : list entity)
  : list entity :=
  let e := eccentricity p in
  let N := num_external_pins p in
  let No := num_output_pins p in
  let D := ring_diameter p in
  [ Point (0, 0) "CENTER_AXIS" ]
  ++ map (fun i => Point (placement N (D / 2) i) "PIN_CENTERS") (range N)
  ++ (if show_outer_ring p
      then [ LWPolyline
               (map (fun theta =>
                       (mergedRadius N (D / 2) (pin_diameter p / 2) theta
                        * cos theta,
                        mergedRadius N (D / 2) (pin_diameter p / 2) theta
                        * sin theta))
                    (housing_sample_angles N))
               true "OUTER_RING";
             Circle (0, 0) (D / 2 + outer_ring_width p) "OUTER_RING" ]
      else [])
  ++ map (fun i => Circle (placement No (output_disk_diameter p / 2) i)
                     (output_pin_diameter p / 2) "OUTPUT_PINS")
         (range No)
  ++ map (fun i => Circle (translate (ecc_vector e phi)
                             (placement No (output_disk_diameter p / 2) i))
                     (output_pin_diameter p / 2 + e + tolerance p)
                     "OUTPUT_HOLES")
         (range No)
  ++ [ Circle (0, 0) (camshaft_diameter p / 2 + tolerance p)
         "CAMSHAFT_HOLE" ]
  ++ cam
  ++ [ Spline
         (map (disk_sample e N D (pin_diameter p) (tolerance p) phi)
              (grid 0 (2 * PI) (60 * lobes N)))
         true "CYCLOID_DISK" ].

(** The eccentric cam circle. *)
Definition eccentric_cam_circle (p : params) (phi : R) : entity :=
  Circle (ecc_vector (eccentricity p) phi)
    (shaft_radius (eccentricity p) (camshaft_diameter p)) "ECCENTRIC_CAM".

(** A parameter set whose eccentricity equals its camshaft diameter, and a
    world in which the export can run. *)
Definition oversized_eccentricity : params :=
  {| eccentricity := 10; num_external_pins := 4; num_output_pins := 6;
     ring_diameter := 40; pin_diameter := 5; output_disk_diameter := 25;
     output_pin_diameter := 3; camshaft_diameter := 10; tolerance := 1 / 5;
     show_outer_ring := false; outer_ring_width := 15 |}.

Definition ready_world : world :=
  {| ezdxf_installed := true;
     writable := fun _ => true;
     files := fun _ => None |}.

(** A parameter set whose eccentricity equals the stationary radius
    [(40 / 2) / 4 = 5]. *)
Definition degenerate_disk : params :=
  {| eccentricity := 5; num_external_pins := 4; num_output_pins := 6;
     ring_diameter := 40; pin_diameter := 5; output_disk_diameter := 25;
     output_pin_diameter := 3; camshaft_diameter := 12; tolerance := 1 / 5;
     show_outer_ring := false; outer_ring_width := 15 |}.

(** Every row of a curve lies on the circle of centre [c] and radius
    [r]. *)
Definition curve_on_circle (c : R * R) (r : R) (curve : list point3) : Prop :=
  forall p, In p curve -> on_circle c r p.

(** The offset up to which a growing tolerance brings every sample of the
    disk closer to the disk centre: [(D/2 - e) (r_s - e) / (r_s + e)]. *)
Definition shrink_margin (e : R) (N : Z) (D : R) : R :=
  (D / 2 - e) * (r_s N D - e) / (r_s N D + e).

(** The trace point under the rotation and translation of the disk. *)
Definition placed_trace (e : R) (N : Z) (D phi t : R) : R * R :=
  translate (ecc_vector e phi)
    (rotate (- phi / IZR (lobes N))
       (trace_x (r_c N D) (r_s N D) e t, trace_y (r_c N D) (r_s N D) e t)).

(** A point of the wall of the displayed housing. *)
Definition wall_point (n : Z) (ring_d pin_d : R) (i : Z) : point3 :=
  let a := 2 * PI * IZR i / IZR (100 * n) in
  row (housingWallRadius n (ring_d / 2) (pin_d / 2) a * cos a,
       housingWallRadius n (ring_d / 2) (pin_d / 2) a * sin a).

(** The entities of a drawing that lie on [layer]. *)
Definition on_layer (layer : string) (doc : document) : list entity :=
  filter (fun en => String.eqb (entity_layer en) layer) (modelspace doc).

(** A polyline or spline is written closed. *)
Definition entity_closed (en : entity) : bool :=
  match en with
  | LWPolyline _ c _ | Spline _ c _ => c
  | Point _ _ | Circle _ _ _ => true
  end.

(** ** SVG export *)

(** The text files of the machine: which paths [open(filename, 'w')] can
    open, and what has been written. *)
Record filesystem : Type := {
  openable : string -> bool;
  text : string -> option string
}.

(** The file system after [content] has been written to [filename]. *)
Definition written (content filename : string) (fs : filesystem)
  : filesystem :=
  {| openable := openable fs;
     text := fun f => if String.eqb f filename then Some content
                      else text fs f |}.

(** [with open(filename, 'w') as f: f.write(content)]. *)
Definition write_text (content filename : string) (fs : filesystem)
  : result filesystem :=
  if openable fs filename then Ok (written content filename fs)
  else Raise OSError.

(** The double quote and the line feed. *)
Definition dquote : string := String (Ascii.ascii_of_nat 34) EmptyString.
Definition newline : string := String (Ascii.ascii_of_nat 10) EmptyString.

(** A row of a finite curve as a row of numpy floats. *)
Definition np_row (p : point3) : fpoint3 :=
  (fin (fst (fst p)), fin (snd (fst p)), fin (snd p)).

(** The [<path>] line the export appends for a path, a stroke colour and
    a stroke width. *)
Definition path_line (path stroke width : string) : string :=
  ("<path d=" ++ dquote ++ path ++ dquote
   ++ " fill=" ++ dquote ++ "none" ++ dquote
   ++ " stroke=" ++ dquote ++ stroke ++ dquote
   ++ " stroke-width=" ++ dquote ++ width ++ dquote ++ "/>")%string.

Section Svg.

(** Number formatting is left to two functions: [fmt3 x] is the text of
    [x] under the format [.3f], [fstr x] the text of a float under the
    default format. *)
Variable fmt3 : npfloat -> string.
Variable fstr : R -> string.

(** [points_to_path], the local function of [export_to_svg]. *)
Definition points_to_path (points : list fpoint3) : result string :=
  p0 <- first_item points ;;
  let path := ("M " ++ fmt3 (fst (fst p0)) ++ "," ++ fmt3 (snd (fst p0)))%string in
  let path :=
    fold_left (fun path p =>
                 (path ++ " L " ++ fmt3 (fst (fst p)) ++ ","
                  ++ fmt3 (snd (fst p)))%string)
              (tl points) path in
  Ok (path ++ " Z")%string.

(** A loop that appends one [<path>] line per curve. *)
Definition path_lines (stroke width : string) (curves : list (list fpoint3))
  : result (list string) :=
  mapM (fun curve =>
          path <- points_to_path curve ;;
          Ok (path_line path stroke width))
       curves.

Definition export_to_svg (filename : string) (params : params) (phi : R)
    (fs : filesystem) : result (bool * filesystem) :=
  let eccentricity := eccentricity params in
  let num_external_pins := num_external_pins params in
  let num_output_pins := num_output_pins params in
  let ring_diameter := ring_diameter params in
  let pin_diameter := pin_diameter params in
  let output_disk_diameter := output_disk_diameter params in
  let output_pin_diameter := output_pin_diameter params in
  let camshaft_diameter := camshaft_diameter params in
  let tolerance := tolerance params in
  let show_outer_ring := show_outer_ring params in
  let outer_ring_width := outer_ring_width params in
  let max_radius :=
    if show_outer_ring then ring_diameter / 2 + outer_ring_width + 10
    else ring_diameter / 2 + 10 in
  let viewbox :=
    (fstr (- max_radius) ++ " " ++ fstr (- max_radius) ++ " "
     ++ fstr (2 * max_radius) ++ " " ++ fstr (2 * max_radius))%string in
  let svg_lines :=
    [ ("<?xml version=" ++ dquote ++ "1.0" ++ dquote
       ++ " encoding=" ++ dquote ++ "UTF-8" ++ dquote ++ "?>")%string;
      ("<svg xmlns=" ++ dquote ++ "http://www.w3.org/2000/svg" ++ dquote
       ++ " viewBox=" ++ dquote ++ viewbox ++ dquote ++ ">")%string;
      ("<g transform=" ++ dquote ++ "scale(1,-1)" ++ dquote ++ ">")%string ] in
  pins <- pin_ring num_external_pins ring_diameter pin_diameter ;;
  pin_paths <- path_lines "#666666" "0.5" (map (map np_row) pins) ;;
  let svg_lines := svg_lines ++ pin_paths in
  cd <- cycloid_disk eccentricity num_external_pins ring_diameter
          pin_diameter phi tolerance ;;
  disk_paths <- match cd with
                | [] => Ok []
                | c :: _ => path <- points_to_path c ;;
                            Ok [path_line path "#FF4444" "0.8"]
                end ;;
  let svg_lines := svg_lines ++ disk_paths in
  ip <- inner_pins num_output_pins num_external_pins output_pin_diameter
          output_disk_diameter phi ;;
  ip_paths <- path_lines "#44FF44" "0.5" (map (map np_row) ip) ;;
  let svg_lines := svg_lines ++ ip_paths in
  ic <- inner_circles eccentricity num_output_pins num_external_pins
          output_pin_diameter output_disk_diameter phi tolerance ;;
  ic_paths <- path_lines "#FF44FF" "0.5" (map (map np_row) ic) ;;
  let svg_lines := svg_lines ++ ic_paths in
  cam <- camshaft camshaft_diameter phi tolerance ;;
  path <- points_to_path (map np_row cam) ;;
  let svg_lines := svg_lines ++ [path_line path "#4444FF" "0.6"] in
  ecc_cam <- eccentric_camshaft eccentricity camshaft_diameter phi ;;
  path <- points_to_path (map np_row ecc_cam) ;;
  let svg_lines := svg_lines ++ [path_line path "#FFAA00" "0.5"] in
  ring_paths <-
    (if show_outer_ring
     then profiles <- outer_ring num_external_pins ring_diameter
                        pin_diameter outer_ring_width tolerance ;;
          inner_path <- points_to_path (map np_row (fst profiles)) ;;
          outer_path <- points_to_path (map np_row (snd profiles)) ;;
          Ok [ path_line inner_path "#888888" "0.6";
               path_line outer_path "#888888" "0.6" ]
     else Ok []) ;;
  let svg_lines := svg_lines ++ ring_paths in
  let svg_lines := svg_lines ++ ["</g>"%string] in
  let svg_lines := svg_lines ++ ["</svg>"%string] in
  fs' <- write_text (String.concat newline svg_lines) filename fs ;;
  Ok (true, fs').

End Svg.

(** The text of a point in a path. *)
Definition coord (fmt3 : npfloat -> string) (p : fpoint3) : string :=
  (fmt3 (fst (fst p)) ++ "," ++ fmt3 (snd (fst p)))%string.

(** A closed path: a move to [p0], a line to every point of [rest], and
    the closing [Z]. *)
Definition closed_path (fmt3 : npfloat -> string) (p0 : fpoint3)
    (rest : list fpoint3) : string :=
  ("M " ++ coord fmt3 p0
   ++ String.concat "" (map (fun p => " L " ++ coord fmt3 p) rest)
   ++ " Z")%string.

(** The closed path through the points of a curve. *)
Definition curve_path (fmt3 : npfloat -> string) (c : list fpoint3)
  : string :=
  match c with
  | [] => EmptyString
  | p0 :: rest => closed_path fmt3 p0 rest
  end.

(** The [<path>] line of a curve. *)
Definition curve_line (fmt3 : npfloat -> string) (stroke width : string)
    (c : list fpoint3) : string :=
  path_line (curve_path fmt3 c) stroke width.

(** The curves a generator returned, none if it raised. *)
Definition curves_of {A : Type} (m : result (list A)) : list A :=
  match m with
  | Ok l => l
  | Raise _ => []
  end.

(** The lines of the SVG document: three opening lines, one closed path
    for every curve of the display generators in the order external pins,
    disk, output pins, output holes, camshaft bore, eccentric shaft and
    (if enabled) the two housing profiles, and two closing lines. *)
Definition svg_document (fmt3 : npfloat -> string) (fstr : R -> string)
    (p : params) (phi : R) : list string :=
  let e := eccentricity p in
  let N := num_external_pins p in
  let No := num_output_pins p in
  let D := ring_diameter p in
  let max_radius :=
    if show_outer_ring p then D / 2 + outer_ring_width p + 10
    else D / 2 + 10 in
  let finite := map (map np_row) in
  [ ("<?xml version=" ++ dquote ++ "1.0" ++ dquote
     ++ " encoding=" ++ dquote ++ "UTF-8" ++ dquote ++ "?>")%string;
    ("<svg xmlns=" ++ dquote ++ "http://www.w3.org/2000/svg" ++ dquote
     ++ " viewBox=" ++ dquote
     ++ (fstr (- max_radius) ++ " " ++ fstr (- max_radius) ++ " "
         ++ fstr (2 * max_radius) ++ " " ++ fstr (2 * max_radius))
     ++ dquote ++ ">")%string;
    ("<g transform=" ++ dquote ++ "scale(1,-1)" ++ dquote ++ ">")%string ]
  ++ map (curve_line fmt3 "#666666" "0.5")
       (finite (curves_of (pin_ring N D (pin_diameter p))))
  ++ map (curve_line fmt3 "#FF4444" "0.8")
       (curves_of (cycloid_disk e N D (pin_diameter p) phi (tolerance p)))
  ++ map (curve_line fmt3 "#44FF44" "0.5")
       (finite (curves_of (inner_pins No N (output_pin_diameter p)
                             (output_disk_diameter p) phi)))
  ++ map (curve_line fmt3 "#FF44FF" "0.5")
       (finite (curves_of (inner_circles e No N (output_pin_diameter p)
                             (output_disk_diameter p) phi (tolerance p))))
  ++ map (curve_line fmt3 "#4444FF" "0.6")
       (finite (curves_of (c <- camshaft (camshaft_diameter p) phi
                                 (tolerance p) ;; Ok [c])))
  ++ map (curve_line fmt3 "#FFAA00" "0.5")
       (finite (curves_of (c <- eccentric_camshaft e (camshaft_diameter p)
                                 phi ;; Ok [c])))
  ++ (if show_outer_ring p
      then map (curve_line fmt3 "#888888" "0.6")
             (finite (curves_of
                        (profiles <- outer_ring N D (pin_diameter p)
                                       (outer_ring_width p) (tolerance p) ;;
                         Ok [fst profiles; snd profiles])))
      else [])
  ++ [ "</g>"%string; "</svg>"%string ].

(** ** The viewer *)

(** What a handler of the window ends with: a value, an exception of a
    generator, or the [AttributeError] of a call on [None]. *)
Inductive gui_exn : Type :=
| GeneratorError (e : exn)
| AttributeError.

Inductive gui_result (A : Type) : Type :=
| Done (a : A)
| Failed (e : gui_exn).
Arguments Done {A} a.
Arguments Failed {A} e.

Definition gui_bind {A B : Type} (m : gui_result A) (k : A -> gui_result B)
  : gui_result B :=
  match m with
  | Done a => k a
  | Failed e => Failed e
  end.

Notation "x <~ m ;; k" := (gui_bind m (fun x => k))
  (at level 61, m at next level, right associativity).

(** A call of a generator inside a handler. *)
Definition generated {A : Type} (m : result A) : gui_result A :=
  match m with
  | Ok a => Done a
  | Raise e => Failed (GeneratorError e)
  end.

(** A [GLLinePlotItem]: the points it draws and whether it is visible.
    Its colour and width are fixed when it is created and are left out,
    as is the scene of the widget. *)
Record item : Type := {
  pos : list fpoint3;
  visible : bool
}.

Definition new_item : item := {| pos := []; visible := true |}.

Definition setData (c : list fpoint3) (it : item) : item :=
  {| pos := c; visible := visible it |}.

Definition setVisible (b : bool) (it : item) : item :=
  {| pos := pos it; visible := b |}.

(** The attributes of [GearboxViewer]. *)
Record viewer : Type := {
  outer_pin_items : list item;
  inner_pin_items : list item;
  inner_circle_items : list item;
  cycloid_items : list item;
  camshaft_item : option item;
  eccentric_camshaft_item : option item;
  outer_ring_inner_item : option item;
  outer_ring_outer_item : option item
}.

(** [GearboxViewer.__init__]. *)
Definition viewer_init : viewer :=
  {| outer_pin_items := []; inner_pin_items := [];
     inner_circle_items := []; cycloid_items := [];
     camshaft_item := None; eccentric_camshaft_item := None;
     outer_ring_inner_item := None; outer_ring_outer_item := None |}.

(** [if self.x is None: self.x = GLLinePlotItem(...)]. *)
Definition or_new (it : option item) : option item :=
  match it with
  | None => Some new_item
  | Some _ => it
  end.

Definition rebuild_items (num_external_pins num_output_pins : Z)
    (v : viewer) : viewer :=
  {| outer_pin_items := map (fun _ => new_item) (range num_external_pins);
     inner_pin_items := map (fun _ => new_item) (range num_output_pins);
     inner_circle_items := map (fun _ => new_item) (range num_output_pins);
     cycloid_items := [new_item];
     camshaft_item := or_new (camshaft_item v);
     eccentric_camshaft_item := or_new (eccentric_camshaft_item v);
     outer_ring_inner_item := or_new (outer_ring_inner_item v);
     outer_ring_outer_item := or_new (outer_ring_outer_item v) |}.

(** [for i, item in enumerate(items): if i < len(curves):
    item.setData(pos=curves[i])]. *)
Fixpoint set_each (items : list item) (curves : list (list fpoint3))
  : list item :=
  match items, curves with
  | it :: items', c :: curves' => setData c it :: set_each items' curves'
  | _, _ => items
  end.

(** [self.x.setData(...)] and the like on an attribute that may be
    [None]. *)
Definition attribute (it : option item) : gui_result item :=
  match it with
  | Some i => Done i
  | None => Failed AttributeError
  end.

(** [update_geometry].  A failure ends the model without a viewer: the
    items already updated in place by then are not kept. *)
Definition update_geometry (v : viewer) (eccentricity : R)
    (num_external_pins num_output_pins : Z)
    (ring_diameter pin_diameter output_disk_diameter output_pin_diameter
     camshaft_diameter tolerance : R) (show_outer_ring : bool)
    (outer_ring_width phi : R) : gui_result viewer :=
  pins <~ generated (pin_ring num_external_pins ring_diameter
                       pin_diameter) ;;
  let outer_pin_items :=
    set_each (outer_pin_items v) (map (map np_row) pins) in
  ip <~ generated (inner_pins num_output_pins num_external_pins
                     output_pin_diameter output_disk_diameter phi) ;;
  let inner_pin_items :=
    set_each (inner_pin_items v) (map (map np_row) ip) in
  ic <~ generated (inner_circles eccentricity num_output_pins
                     num_external_pins output_pin_diameter
                     output_disk_diameter phi tolerance) ;;
  let inner_circle_items :=
    set_each (inner_circle_items v) (map (map np_row) ic) in
  cd <~ generated (cycloid_disk eccentricity num_external_pins
                     ring_diameter pin_diameter phi tolerance) ;;
  let cycloid_items :=
    match cd, cycloid_items v with
    | c :: _, it :: items => setData c it :: items
    | _, _ => cycloid_items v
    end in
  cam <~ generated (camshaft camshaft_diameter phi tolerance) ;;
  cam_item <~ attribute (camshaft_item v) ;;
  let camshaft_item := setData (map np_row cam) cam_item in
  ecc_cam <~ generated (eccentric_camshaft eccentricity camshaft_diameter
                          phi) ;;
  ecc_item <~ attribute (eccentric_camshaft_item v) ;;
  let eccentric_camshaft_item := setData (map np_row ecc_cam) ecc_item in
  ring_items <~
    (if show_outer_ring
     then profiles <~ generated (outer_ring num_external_pins ring_diameter
                                   pin_diameter outer_ring_width
                                   tolerance) ;;
          inner_item <~ attribute (outer_ring_inner_item v) ;;
          outer_item <~ attribute (outer_ring_outer_item v) ;;
          Done (setVisible true
                  (setData (map np_row (fst profiles)) inner_item),
                setVisible true
                  (setData (map np_row (snd profiles)) outer_item))
     else inner_item <~ attribute (outer_ring_inner_item v) ;;
          outer_item <~ attribute (outer_ring_outer_item v) ;;
          Done (setVisible false inner_item,
                setVisible false outer_item)) ;;
  Done {| outer_pin_items := outer_pin_items;
          inner_pin_items := inner_pin_items;
          inner_circle_items := inner_circle_items;
          cycloid_items := cycloid_items;
          camshaft_item := Some camshaft_item;
          eccentric_camshaft_item := Some eccentric_camshaft_item;
          outer_ring_inner_item := Some (fst ring_items);
          outer_ring_outer_item := Some (snd ring_items) |}.

(** ** The slider panel *)

(** The state of [SliderPanel]: the parameter dictionary (its key
    [animation_speed] apart from the keys the exports read), the phase,
    the pause flag and the viewer. *)
Record panel : Type := {
  panel_params : params;
  animation_speed : Z;
  panel_phi : R;
  paused : bool;
  panel_viewer : viewer
}.

(** The defaults of [__init__] and of [reset_params]. *)
Definition default_params : params :=
  {| eccentricity := 1.4; num_external_pins := 24; num_output_pins := 7;
     ring_diameter := 80; pin_diameter := 5; output_disk_diameter := 50;
     output_pin_diameter := 10; camshaft_diameter := 20; tolerance := 0.2;
     show_outer_ring := false; outer_ring_width := 15 |}.

Definition default_animation_speed : Z := 200.

(** The keys of the integer and of the float sliders. *)
Inductive int_key : Type :=
| Animation_speed | Num_external_pins | Num_output_pins.

Inductive float_key : Type :=
| Eccentricity | Pin_diameter | Ring_diameter | Output_pin_diameter
| Output_disk_diameter | Camshaft_diameter | Tolerance | Outer_ring_width.

Inductive slider_key : Type :=
| IntKey (k : int_key)
| FloatKey (k : float_key).

(** The arguments of one [add_slider] call; [is_int] is [True] exactly
    for the integer keys. *)
Record slider : Type := {
  key : slider_key;
  min_val : R;
  max_val : R;
  step : R
}.

Definition is_int (s : slider) : bool :=
  match key s with
  | IntKey _ => true
  | FloatKey _ => false
  end.

(** The [add_slider] calls of [__init__]. *)
Definition sliders : list slider :=
  [ {| key := IntKey Animation_speed; min_val := 1; max_val := 2000;
       step := 1 |};
    {| key := FloatKey Eccentricity; min_val := 0.5; max_val := 10;
       step := 0.1 |};
    {| key := IntKey Num_external_pins; min_val := 3; max_val := 100;
       step := 1 |};
    {| key := FloatKey Pin_diameter; min_val := 2; max_val := 25;
       step := 0.5 |};
    {| key := FloatKey Ring_diameter; min_val := 20; max_val := 250;
       step := 1 |};
    {| key := IntKey Num_output_pins; min_val := 3; max_val := 45;
       step := 1 |};
    {| key := FloatKey Output_pin_diameter; min_val := 0.5; max_val := 25;
       step := 0.1 |};
    {| key := FloatKey Output_disk_diameter; min_val := 1; max_val := 150;
       step := 0.5 |};
    {| key := FloatKey Camshaft_diameter; min_val := 1; max_val := 50;
       step := 0.5 |};
    {| key := FloatKey Tolerance; min_val := 0.01; max_val := 2;
       step := 0.01 |};
    {| key := FloatKey Outer_ring_width; min_val := 1; max_val := 50;
       step := 0.5 |} ].

(** [int(x)]: truncation towards zero. *)
Definition py_int (x : R) : Z :=
  if Rle_dec 0 x then Zfloor x else (- Zfloor (- x))%Z.

(** [round(x, ndigits)], ties to the even digit. *)
Definition py_round_to (x : R) (ndigits : nat) : R :=
  IZR (py_round (x * 10 ^ ndigits)) / 10 ^ ndigits.

(** The [scale] of a slider and the bounds given to the Qt slider. *)
Definition scale (s : slider) : Z :=
  if is_int s then 1%Z else py_int (1 / step s).

Definition slider_minimum (s : slider) : Z :=
  if is_int s then py_int (min_val s)
  else py_int (min_val s * IZR (scale s)).

Definition slider_maximum (s : slider) : Z :=
  if is_int s then py_int (max_val s)
  else py_int (max_val s * IZR (scale s)).

(** [self.params[key] = value]. *)
Definition set_int (k : int_key) (value : Z) (st : panel) : panel :=
  let p := panel_params st in
  match k with
  | Animation_speed =>
      {| panel_params := p; animation_speed := value;
         panel_phi := panel_phi st; paused := paused st;
         panel_viewer := panel_viewer st |}
  | Num_external_pins =>
      {| panel_params :=
           {| eccentricity := eccentricity p; num_external_pins := value;
              num_output_pins := num_output_pins p;
              ring_diameter := ring_diameter p;
              pin_diameter := pin_diameter p;
              output_disk_diameter := output_disk_diameter p;
              output_pin_diameter := output_pin_diameter p;
              camshaft_diameter := camshaft_diameter p;
              tolerance := tolerance p;
              show_outer_ring := show_outer_ring p;
              outer_ring_width := outer_ring_width p |};
         animation_speed := animation_speed st;
         panel_phi := panel_phi st; paused := paused st;
         panel_viewer := panel_viewer st |}
  | Num_output_pins =>
      {| panel_params :=
           {| eccentricity := eccentricity p;
              num_external_pins := num_external_pins p;
              num_output_pins := value;
              ring_diameter := ring_diameter p;
              pin_diameter := pin_diameter p;
              output_disk_diameter := output_disk_diameter p;
              output_pin_diameter := output_pin_diameter p;
              camshaft_diameter := camshaft_diameter p;
              tolerance := tolerance p;
              show_outer_ring := show_outer_ring p;
              outer_ring_width := outer_ring_width p |};
         animation_speed := animation_speed st;
         panel_phi := panel_phi st; paused := paused st;
         panel_viewer := panel_viewer st |}
  end.

Definition set_float (k : float_key) (value : R) (st : panel) : panel :=
  let p := panel_params st in
  let pick (k' : float_key) (old : R) : R :=
    match k, k' with
    | Eccentricity, Eccentricity
    | Pin_diameter, Pin_diameter
    | Ring_diameter, Ring_diameter
    | Output_pin_diameter, Output_pin_diameter
    | Output_disk_diameter, Output_disk_diameter
    | Camshaft_diameter, Camshaft_diameter
    | Tolerance, Tolerance
    | Outer_ring_width, Outer_ring_width => value
    | _, _ => old
    end in
  {| panel_params :=
       {| eccentricity := pick Eccentricity (eccentricity p);
          num_external_pins := num_external_pins p;
          num_output_pins := num_output_pins p;
          ring_diameter := pick Ring_diameter (ring_diameter p);
          pin_diameter := pick Pin_diameter (pin_diameter p);
          output_disk_diameter :=
            pick Output_disk_diameter (output_disk_diameter p);
          output_pin_diameter :=
            pick Output_pin_diameter (output_pin_diameter p);
          camshaft_diameter := pick Camshaft_diameter (camshaft_diameter p);
          tolerance := pick Tolerance (tolerance p);
          show_outer_ring := show_outer_ring p;
          outer_ring_width := pick Outer_ring_width (outer_ring_width p) |};
     animation_speed := animation_speed st;
     panel_phi := panel_phi st; paused := paused st;
     panel_viewer := panel_viewer st |}.

Definition set_viewer (v : viewer) (st : panel) : panel :=
  {| panel_params := panel_params st;
     animation_speed := animation_speed st;
     panel_phi := panel_phi st; paused := paused st;
     panel_viewer := v |}.

Definition update_viewer (st : panel) : gui_result panel :=
  let p := panel_params st in
  v <~ update_geometry (panel_viewer st)
         (eccentricity p) (num_external_pins p) (num_output_pins p)
         (ring_diameter p) (pin_diameter p) (output_disk_diameter p)
         (output_pin_diameter p) (camshaft_diameter p) (tolerance p)
         (show_outer_ring p) (outer_ring_width p) (panel_phi st) ;;
  Done (set_viewer v st).

(** The value a slider stores for the Qt value [v]: an odd number of
    external pins is raised to the next even one, a float slider divides
    by its scale and rounds to two digits. *)
Definition slider_value_int (k : int_key) (v : Z) : Z :=
  match k with
  | Num_external_pins => if (v mod 2 =? 0)%Z then v else (v + 1)%Z
  | _ => v
  end.

Definition slider_value_float (s : slider) (v : Z) : result R :=
  q <- py_div (IZR v) (IZR (scale s)) ;;
  Ok (py_round_to q 2).

(** [update], the closure that [add_slider] connects to [valueChanged]. *)
Definition update (s : slider) (v : Z) (st : panel) : gui_result panel :=
  let old_num_external_pins := num_external_pins (panel_params st) in
  let old_num_output_pins := num_output_pins (panel_params st) in
  match key s with
  | IntKey k =>
      let value := slider_value_int k v in
      let st := set_int k value st in
      let p := panel_params st in
      let st :=
        if match k with
           | Num_external_pins | Num_output_pins => true
           | Animation_speed => false
           end
           && (negb (num_external_pins p =? old_num_external_pins)%Z
               || negb (num_output_pins p =? old_num_output_pins)%Z)
        then set_viewer (rebuild_items (num_external_pins p)
                           (num_output_pins p) (panel_viewer st)) st
        else st in
      update_viewer st
  | FloatKey k =>
      value <~ generated (slider_value_float s v) ;;
      update_viewer (set_float k value st)
  end.

(** [toggle_outer_ring]: [bool(state)] of the Qt check state. *)
Definition toggle_outer_ring (state : Z) (st : panel) : gui_result panel :=
  let p := panel_params st in
  update_viewer
    {| panel_params :=
         {| eccentricity := eccentricity p;
            num_external_pins := num_external_pins p;
            num_output_pins := num_output_pins p;
            ring_diameter := ring_diameter p;
            pin_diameter := pin_diameter p;
            output_disk_diameter := output_disk_diameter p;
            output_pin_diameter := output_pin_diameter p;
            camshaft_diameter := camshaft_diameter p;
            tolerance := tolerance p;
            show_outer_ring := negb (state =? 0)%Z;
            outer_ring_width := outer_ring_width p |};
       animation_speed := animation_speed st;
       panel_phi := panel_phi st; paused := paused st;
       panel_viewer := panel_viewer st |}.

(** The two diameters [normalize_to_pins] computes before rounding. *)
Definition normalized_ring_diameter (num_external_pins : Z)
    (pin_diameter : R) : result R :=
  py_div (pin_diameter * IZR num_external_pins
          + 1.25 * pin_diameter * IZR (num_external_pins - 1)) PI.

Definition normalize_to_pins (st : panel) : gui_result panel :=
  let p := panel_params st in
  let num_external_pins := num_external_pins p in
  let pin_diameter := pin_diameter p in
  ring_diameter <~ generated (normalized_ring_diameter num_external_pins
                                pin_diameter) ;;
  let output_disk_diameter := 2 / 3 * ring_diameter in
  update_viewer
    {| panel_params :=
         {| eccentricity := eccentricity p;
            num_external_pins := num_external_pins;
            num_output_pins := num_output_pins p;
            ring_diameter := py_round_to ring_diameter 1;
            pin_diameter := pin_diameter;
            output_disk_diameter := py_round_to output_disk_diameter 1;
            output_pin_diameter := output_pin_diameter p;
            camshaft_diameter := camshaft_diameter p;
            tolerance := tolerance p;
            show_outer_ring := show_outer_ring p;
            outer_ring_width := outer_ring_width p |};
       animation_speed := animation_speed st;
       panel_phi := panel_phi st; paused := paused st;
       panel_viewer := panel_viewer st |}.

Definition toggle_pause (st : panel) : panel :=
  {| panel_params := panel_params st;
     animation_speed := animation_speed st;
     panel_phi := panel_phi st; paused := negb (paused st);
     panel_viewer := panel_viewer st |}.

(** [reset_params].  [setChecked] on the check box emits [stateChanged]
    when the box was checked, which runs [toggle_outer_ring] with state 0
    on the new parameters before the items are rebuilt; the box is
    checked exactly when [show_outer_ring] is set. *)
Definition reset_params (st : panel) : gui_result panel :=
  let was_checked := show_outer_ring (panel_params st) in
  let st := {| panel_params := default_params;
               animation_speed := default_animation_speed;
               panel_phi := 0; paused := paused st;
               panel_viewer := panel_viewer st |} in
  st <~ (if was_checked then toggle_outer_ring 0 st else Done st) ;;
  update_viewer
    (set_viewer
       (rebuild_items (num_external_pins (panel_params st))
          (num_output_pins (panel_params st)) (panel_viewer st)) st).

Definition advance_animation (st : panel) : gui_result panel :=
  if negb (paused st)
  then update_viewer
         {| panel_params := panel_params st;
            animation_speed := animation_speed st;
            panel_phi :=
              panel_phi st + 0.01 * (IZR (animation_speed st) / 60);
            paused := paused st;
            panel_viewer := panel_viewer st |}
  else Done st.

(** [SliderPanel.__init__] on a new viewer. *)
Definition panel_init : gui_result panel :=
  update_viewer
    {| panel_params := default_params;
       animation_speed := default_animation_speed;
       panel_phi := 0; paused := false;
       panel_viewer :=
         rebuild_items (num_external_pins default_params)
           (num_output_pins default_params) viewer_init |}.

(** What the user and the timer do to the panel. *)
Inductive event : Type :=
| SliderMoved (s : slider) (v : Z)
| OuterRingToggled (state : Z)
| NormalizeClicked
| PauseClicked
| ResetClicked
| TimerTick.

Definition handle (ev : event) (st : panel) : gui_result panel :=
  match ev with
  | SliderMoved s v => update s v st
  | OuterRingToggled state => toggle_outer_ring state st
  | NormalizeClicked => normalize_to_pins st
  | PauseClicked => Done (toggle_pause st)
  | ResetClicked => reset_params st
  | TimerTick => advance_animation st
  end.

Fixpoint handle_all (evs : list event) (st : panel) : gui_result panel :=
  match evs with
  | [] => Done st
  | ev :: evs' => st' <~ handle ev st ;; handle_all evs' st'
  end.

(** Qt moves a slider only to a value between its minimum and its
    maximum. *)
Definition in_range (ev : event) : Prop :=
  match ev with
  | SliderMoved s v =>
      In s sliders /\ (slider_minimum s <= v <= slider_maximum s)%Z
  | _ => True
  end.

(** The two profiles a housing generator returned, empty if it raised. *)
Definition profiles_of (m : result (list point3 * list point3))
  : list point3 * list point3 :=
  match m with
  | Ok profiles => profiles
  | Raise _ => ([], [])
  end.

(** The curve a generator returned, empty if it raised. *)
Definition curve_of (m : result (list point3)) : list point3 :=
  match m with
  | Ok c => c
  | Raise _ => []
  end.

(** The viewer with every item showing the curve that the generators
    return for [p] and [phi]: what a successful [update_geometry] leaves. *)
Definition shown_viewer (v : viewer) (p : params) (phi : R) : viewer :=
  let e := eccentricity p in
  let N := num_external_pins p in
  let No := num_output_pins p in
  let D := ring_diameter p in
  let finite := map (map np_row) in
  let profiles :=
    profiles_of (outer_ring N D (pin_diameter p) (outer_ring_width p)
                   (tolerance p)) in
  {| outer_pin_items :=
       set_each (outer_pin_items v)
         (finite (curves_of (pin_ring N D (pin_diameter p))));
     inner_pin_items :=
       set_each (inner_pin_items v)
         (finite (curves_of (inner_pins No N (output_pin_diameter p)
                               (output_disk_diameter p) phi)));
     inner_circle_items :=
       set_each (inner_circle_items v)
         (finite (curves_of (inner_circles e No N (output_pin_diameter p)
                               (output_disk_diameter p) phi (tolerance p))));
     cycloid_items :=
       set_each (cycloid_items v)
         (firstn 1 (curves_of (cycloid_disk e N D (pin_diameter p) phi
                                 (tolerance p))));
     camshaft_item :=
       option_map
         (setData (map np_row (curve_of (camshaft (camshaft_diameter p) phi
                                           (tolerance p)))))
         (camshaft_item v);
     eccentric_camshaft_item :=
       option_map
         (setData (map np_row (curve_of (eccentric_camshaft e
                                           (camshaft_diameter p) phi))))
         (eccentric_camshaft_item v);
     outer_ring_inner_item :=
       option_map
         (fun it => if show_outer_ring p
                    then setVisible true
                           (setData (map np_row (fst profiles)) it)
                    else setVisible false it)
         (outer_ring_inner_item v);
     outer_ring_outer_item :=
       option_map
         (fun it => if show_outer_ring p
                    then setVisible true
                           (setData (map np_row (snd profiles)) it)
                    else setVisible false it)
         (outer_ring_outer_item v) |}.

(** The panel whose viewer shows its parameters. *)
Definition refreshed (st : panel) : panel :=
  set_viewer (shown_viewer (panel_viewer st) (panel_params st)
                (panel_phi st)) st.

(** The parameter sets the panel keeps to: an even number of external
    pins between 4 and 100, 3 to 45 output pins, a positive ring diameter
    and a pin diameter of at least 2. *)
Definition params_ok (p : params) : Prop :=
  Z.even (num_external_pins p) = true
  /\ (4 <= num_external_pins p <= 100)%Z
  /\ (3 <= num_output_pins p <= 45)%Z
  /\ 0 < ring_diameter p
  /\ 2 <= pin_diameter p.

(** One item per curve of [p], and the four single items in place. *)
Definition items_ok (v : viewer) (p : params) : Prop :=
  length (outer_pin_items v) = Z.to_nat (num_external_pins p)
  /\ length (inner_pin_items v) = Z.to_nat (num_output_pins p)
  /\ length (inner_circle_items v) = Z.to_nat (num_output_pins p)
  /\ length (cycloid_items v) = 1%nat
  /\ camshaft_item v <> None
  /\ eccentric_camshaft_item v <> None
  /\ outer_ring_inner_item v <> None
  /\ outer_ring_outer_item v <> None.

(** The states the panel keeps to: parameters and items as above, and a
    viewer that another [update_viewer] leaves as it is. *)
Definition panel_ok (st : panel) : Prop :=
  params_ok (panel_params st)
  /\ items_ok (panel_viewer st) (panel_params st)
  /\ update_viewer st = Done st.

(** ** The generators of version 1.1

    The functions of [cycloidal_Gear_generator_V1-1.py] that differ from
    the ones above: the output pins and holes take radii and no
    tolerance, the camshaft bore takes no tolerance, and the disk is
    drawn as one segment per lobe. *)
Module V1_1.

Definition inner_pins (n N : Z) (rd Rd phi : R)
  : result (list (list point3)) :=
  t <- linspace 0 (2 * PI) 200 true ;;
  let num := (N - 1)%Z in
  mapM (fun i =>
          a <- py_div (2 * PI * IZR i) (IZR n) ;;
          rot <- py_div (- phi) (IZR num) ;;
          Ok (map (fun t =>
                     ((rd * sin t + Rd * cos a) * cos rot
                      - (rd * cos t + Rd * sin a) * sin rot,
                      (rd * sin t + Rd * cos a) * sin rot
                      + (rd * cos t + Rd * sin a) * cos rot,
                      0)) t))
       (range n).

Definition inner_circles (e : R) (n N : Z) (rd Rd phi : R)
  : result (list (list point3)) :=
  t <- linspace 0 (2 * PI) 200 true ;;
  let num := (N - 1)%Z in
  mapM (fun i =>
          let hole_radius := rd + e in
          a <- py_div (2 * PI * IZR i) (IZR n) ;;
          rot <- py_div (- phi) (IZR num) ;;
          Ok (map (fun t =>
                     ((hole_radius * cos t + Rd * cos a) * cos rot
                      - (hole_radius * sin t + Rd * sin a) * sin rot
                      + e * cos phi,
                      (hole_radius * cos t + Rd * cos a) * sin rot
                      + (hole_radius * sin t + Rd * sin a) * cos rot
                      + e * sin phi,
                      0)) t))
       (range n).

Definition cycloid_disk (e : R) (N : Z) (D d phi : R)
  : result (list (list fpoint3)) :=
  let RD := D / 2 in
  let rd := d / 2 in
  let num := (N - 1)%Z in
  lo <- py_div (- PI) (IZR num) ;;
  hi <- py_div PI (IZR num) ;;
  t1 <- linspace lo hi 1500 true ;;
  ratio <- py_div (IZR num) (IZR (num + 1)) ;;
  let rc := ratio * RD in
  rm <- py_div RD (IZR (num + 1)) ;;
  mapM (fun i =>
          k <- py_div (rc + rm) rm ;;
          q <- py_div e rm ;;
          turn <- py_div (IZR i * 2 * PI) (IZR num) ;;
          back <- py_div phi (IZR num) ;;
          Ok (map (cycloid_disk_sample e rc rm k q rd (turn - back) phi) t1))
       (range num).

Definition camshaft (camshaft_d phi : R) : result (list point3) :=
  t <- linspace 0 (2 * PI) 200 true ;;
  Ok (map (fun t => (camshaft_d / 2 * cos t, camshaft_d / 2 * sin t, 0)) t).

End V1_1.

(** ** The export buttons *)

(** The message box an export handler ends with. *)
Inductive message : Type :=
| Information
| Warning
| Critical.

(** [SliderPanel.export_dxf] for the file name the dialog returned (empty
    when the dialog was cancelled). *)
Definition export_dxf (filename : string) (st : panel) (w : world)
  : option message * world :=
  if String.eqb filename "" then (None, w)
  else match export_to_dxf filename (panel_params st) (panel_phi st) w with
       | Ok (_, w') => (Some Information, w')
       | Raise ImportError => (Some Warning, w)
       | Raise _ => (Some Critical, w)
       end.

Section ExportSvg.

Variable fmt3 : npfloat -> string.
Variable fstr : R -> string.

(** [SliderPanel.export_svg]. *)
Definition export_svg (filename : string) (st : panel) (fs : filesystem)
  : option message * filesystem :=
  if String.eqb filename "" then (None, fs)
  else match export_to_svg fmt3 fstr filename (panel_params st)
               (panel_phi st) fs with
       | Ok (_, fs') => (Some Information, fs')
       | Raise _ => (Some Critical, fs)
       end.

End ExportSvg.

(** * Properties *)

(** ** Python and numpy primitives *)

Lemma py_div_ok (a b : R) : b <> 0 -> py_div a b = Ok (a / b).
Proof.
  intros H. unfold py_div.
  destruct (Req_dec_T b 0); [contradiction | reflexivity].
Qed.

Lemma py_div_zero (a : R) : py_div a 0 = Raise ZeroDivisionError.
Proof.
  unfold py_div. destruct (Req_dec_T 0 0); [reflexivity | contradiction].
Qed.

Lemma np_div_ok (a b : R) : b <> 0 -> np_div a b = fin (a / b).
Proof.
  intros H. unfold np_div.
  destruct (Req_dec_T b 0); [contradiction | reflexivity].
Qed.

Lemma np_div_zero (a : R) : np_div a 0 = nonfinite.
Proof.
  unfold np_div. destruct (Req_dec_T 0 0); [reflexivity | contradiction].
Qed.

Lemma range_length (n : Z) : length (range n) = Z.to_nat n.
Proof. unfold range. now rewrite length_map, length_seq. Qed.

Lemma range_In (n i : Z) : In i (range n) <-> (0 <= i < n)%Z.
Proof.
  unfold range. rewrite in_map_iff. split.
  - intros [k [<- Hk]]. apply in_seq in Hk. lia.
  - intros H. exists (Z.to_nat i). split; [lia |]. apply in_seq. lia.
Qed.

Lemma range_nth (n : Z) (i : nat) (d : Z) :
  (i < Z.to_nat n)%nat -> nth i (range n) d = Z.of_nat i.
Proof.
  intros H. unfold range.
  rewrite nth_indep with (d' := Z.of_nat 0)
    by now rewrite length_map, length_seq.
  rewrite map_nth, seq_nth by exact H. reflexivity.
Qed.

Lemma range_snoc (n : Z) : (0 < n)%Z -> range n = range (n - 1) ++ [(n - 1)%Z].
Proof.
  intros H. unfold range.
  replace (Z.to_nat n) with (S (Z.to_nat (n - 1))) by lia.
  rewrite seq_S, map_app. simpl. f_equal. f_equal. lia.
Qed.

Lemma set_last_snoc (l : list R) (x v : R) : set_last (l ++ [x]) v = l ++ [v].
Proof.
  induction l as [| y l IH]; [reflexivity |].
  simpl app. simpl set_last. rewrite IH.
  destruct (l ++ [x]) eqn:E; [destruct l; discriminate | reflexivity].
Qed.

Lemma linspace_endpoint (start stop : R) (num : Z) :
  (2 <= num)%Z -> linspace start stop num true = Ok (grid start stop num).
Proof.
  intros H. unfold linspace, grid.
  destruct (Z.ltb_spec num 0); [lia |].
  destruct (Z.ltb_spec 0 (num - 1)); [| lia].
  destruct (Z.ltb_spec 1 num); [| lia].
  simpl andb. cbv iota. f_equal.
  rewrite map_map.
  rewrite (range_snoc num) by lia.
  rewrite map_app. simpl map. rewrite set_last_snoc. do 2 f_equal.
  field. apply not_0_IZR. lia.
Qed.

Lemma linspace_open (start stop : R) (num : Z) :
  (0 <= num)%Z ->
  linspace start stop num false
  = Ok (map (fun i => IZR i * ((stop - start) / IZR num) + start) (range num)).
Proof.
  intros H. unfold linspace.
  destruct (Z.ltb_spec num 0); [lia |].
  simpl andb. cbv iota. f_equal.
  destruct (Z.ltb_spec 0 num); [now rewrite map_map |].
  assert (num = 0%Z) by lia. subst. reflexivity.
Qed.

Lemma grid_length (start stop : R) (num : Z) :
  length (grid start stop num) = Z.to_nat num.
Proof. unfold grid. now rewrite length_map, range_length. Qed.

Lemma grid_nth (start stop : R) (num : Z) (i : nat) (d : R) :
  (i < Z.to_nat num)%nat ->
  nth i (grid start stop num) d
  = IZR (Z.of_nat i) * ((stop - start) / IZR (num - 1)) + start.
Proof.
  intros H. unfold grid.
  set (f := fun i => IZR i * ((stop - start) / IZR (num - 1)) + start).
  rewrite nth_indep with (d' := f 0%Z)
    by now rewrite length_map, range_length.
  rewrite map_nth. rewrite range_nth by exact H. reflexivity.
Qed.

Lemma mapM_ok {A B : Type} (f : A -> result B) (g : A -> B) (l : list A) :
  (forall a, In a l -> f a = Ok (g a)) -> mapM f l = Ok (map g l).
Proof.
  induction l as [| a l IH]; intros H; [reflexivity |].
  simpl. rewrite (H a) by now left. simpl.
  rewrite IH by (intros; apply H; now right). reflexivity.
Qed.

(** Run one scalar division whose divisor is not zero by [H]. *)
Ltac py_ok H := rewrite (py_div_ok _ _ H); cbn [bind].

Lemma linspace_200 : linspace 0 (2 * PI) 200 true = Ok (grid 0 (2 * PI) 200).
Proof. apply linspace_endpoint. lia. Qed.

Lemma nth_map_range {A : Type} (g : Z -> A) (n : Z) (i : nat) (d : A) :
  (i < Z.to_nat n)%nat -> nth i (map g (range n)) d = g (Z.of_nat i).
Proof.
  intros H. rewrite nth_indep with (d' := g 0%Z)
    by now rewrite length_map, range_length.
  now rewrite map_nth, range_nth.
Qed.

Lemma range_divisor (n i : Z) : In i (range n) -> IZR n <> 0.
Proof. intros H. apply range_In in H. apply not_0_IZR. lia. Qed.

Lemma range_head (n : Z) : (0 < n)%Z -> exists l, range n = 0%Z :: l.
Proof.
  intros H. destruct (range n) as [| z l] eqn:E.
  - apply (f_equal (@length Z)) in E. rewrite range_length in E.
    simpl in E. lia.
  - exists l. f_equal.
    change z with (nth 0 (z :: l) 0%Z). rewrite <- E.
    rewrite range_nth by lia. reflexivity.
Qed.

Lemma grid_first_last (start stop : R) (num : Z) :
  (2 <= num)%Z ->
  exists mid, grid start stop num = start :: mid ++ [stop].
Proof.
  intros H. unfold grid.
  rewrite (range_snoc num) by lia.
  destruct (range (num - 1)) as [| z l] eqn:E.
  - apply (f_equal (@length Z)) in E. rewrite range_length in E.
    simpl in E. lia.
  - assert (Hz : z = 0%Z).
    { change z with (nth 0 (z :: l) 0%Z). rewrite <- E.
      rewrite range_nth by lia. reflexivity. }
    subst z.
    exists (map (fun i => IZR i * ((stop - start) / IZR (num - 1)) + start)
              l).
    simpl. rewrite map_app. simpl. f_equal; [ring |].
    do 2 f_equal. field. apply not_0_IZR. lia.
Qed.

Lemma last_cons_snoc {A : Type} (a b x : A) (l : list A) :
  last (a :: l ++ [b]) x = b.
Proof. change (a :: l ++ [b]) with ((a :: l) ++ [b]). apply last_last. Qed.

Lemma nth_map_grid {A : Type} (F : R -> A) (num : Z) (i : nat) (dflt : A) :
  (i < Z.to_nat num)%nat ->
  nth i (map F (grid 0 (2 * PI) num)) dflt
  = F (nth i (grid 0 (2 * PI) num) 0).
Proof.
  intros Hi.
  rewrite nth_indep with (d' := F 0) by now rewrite length_map, grid_length.
  apply map_nth.
Qed.

(** ** Trigonometry at whole turns *)

Lemma cos_Z_turns (z : Z) (x : R) : cos (x + 2 * IZR z * PI) = cos x.
Proof.
  destruct (Z_le_gt_dec 0 z) as [H | H].
  - rewrite <- (Z2Nat.id z H), <- INR_IZR_INZ. apply cos_period.
  - rewrite <- (cos_period (x + 2 * IZR z * PI) (Z.to_nat (- z))).
    f_equal. rewrite INR_IZR_INZ, Z2Nat.id, opp_IZR by lia. ring.
Qed.

Lemma sin_Z_turns (z : Z) (x : R) : sin (x + 2 * IZR z * PI) = sin x.
Proof.
  destruct (Z_le_gt_dec 0 z) as [H | H].
  - rewrite <- (Z2Nat.id z H), <- INR_IZR_INZ. apply sin_period.
  - rewrite <- (sin_period (x + 2 * IZR z * PI) (Z.to_nat (- z))).
    f_equal. rewrite INR_IZR_INZ, Z2Nat.id, opp_IZR by lia. ring.
Qed.

Lemma cos_Z_2PI (z : Z) : cos (IZR z * (2 * PI)) = 1.
Proof.
  replace (IZR z * (2 * PI)) with (0 + 2 * IZR z * PI) by ring.
  rewrite cos_Z_turns. apply cos_0.
Qed.

Lemma sin_Z_2PI (z : Z) : sin (IZR z * (2 * PI)) = 0.
Proof.
  replace (IZR z * (2 * PI)) with (0 + 2 * IZR z * PI) by ring.
  rewrite sin_Z_turns. apply sin_0.
Qed.

Lemma sin2_cos2_pow (x : R) : sin x ^ 2 + cos x ^ 2 = 1.
Proof.
  generalize (sin2_cos2 x). unfold Rsqr. intros H. rewrite <- H. ring.
Qed.

(** Values of [cos] and [sin] at the two ends of a turn. *)
Create Rewrite HintDb turns.
#[local] Hint Rewrite cos_Z_2PI sin_Z_2PI cos_2PI sin_2PI cos_0 sin_0 : turns.

(** ** The trace and its normal *)

(** [(trace_dx, trace_dy)] is the derivative of the trace. *)
Lemma trace_x_derivative (rc rs e t : R) :
  derivable_pt_lim (trace_x rc rs e) t (trace_dx rc rs e t).
Proof.
  unfold trace_dx. set (k := (rc + rs) / rs).
  replace (- (rc + rs) * sin t + e * k * sin (k * t))
    with ((rc + rs) * - sin t - e * (- sin (k * t) * (k * 1))) by ring.
  change (trace_x rc rs e)
    with (minus_fct (mult_real_fct (rc + rs) cos)
            (mult_real_fct e (comp cos (mult_real_fct k id)))).
  apply derivable_pt_lim_minus.
  - apply derivable_pt_lim_scal, derivable_pt_lim_cos.
  - apply derivable_pt_lim_scal.
    apply derivable_pt_lim_comp.
    + apply derivable_pt_lim_scal, derivable_pt_lim_id.
    + apply derivable_pt_lim_cos.
Qed.

Lemma trace_y_derivative (rc rs e t : R) :
  derivable_pt_lim (trace_y rc rs e) t (trace_dy rc rs e t).
Proof.
  unfold trace_dy. set (k := (rc + rs) / rs).
  replace ((rc + rs) * cos t - e * k * cos (k * t))
    with ((rc + rs) * cos t - e * (cos (k * t) * (k * 1))) by ring.
  change (trace_y rc rs e)
    with (minus_fct (mult_real_fct (rc + rs) sin)
            (mult_real_fct e (comp sin (mult_real_fct k id)))).
  apply derivable_pt_lim_minus.
  - apply derivable_pt_lim_scal, derivable_pt_lim_sin.
  - apply derivable_pt_lim_scal.
    apply derivable_pt_lim_comp.
    + apply derivable_pt_lim_scal, derivable_pt_lim_id.
    + apply derivable_pt_lim_sin.
Qed.

Lemma trace_speed_sqr (rc rs e t : R) :
  trace_speed rc rs e t ^ 2
  = trace_dx rc rs e t ^ 2 + trace_dy rc rs e t ^ 2.
Proof.
  unfold trace_speed. apply pow2_sqrt.
  apply Rplus_le_le_0_compat; apply pow2_ge_0.
Qed.

(** Where the speed is not zero the normal has length one and is
    orthogonal to the derivative. *)
Lemma unit_normal_unit (rc rs e t : R) :
  trace_speed rc rs e t <> 0 ->
  fst (unit_normal rc rs e t) ^ 2 + snd (unit_normal rc rs e t) ^ 2 = 1
  /\ fst (unit_normal rc rs e t) * trace_dx rc rs e t
     + snd (unit_normal rc rs e t) * trace_dy rc rs e t = 0.
Proof.
  intros Hsp. unfold unit_normal. cbn [fst snd]. split.
  - replace ((- trace_dy rc rs e t / trace_speed rc rs e t) ^ 2
             + (trace_dx rc rs e t / trace_speed rc rs e t) ^ 2)
      with ((trace_dx rc rs e t ^ 2 + trace_dy rc rs e t ^ 2)
            / trace_speed rc rs e t ^ 2) by (field; exact Hsp).
    rewrite <- trace_speed_sqr. field. exact Hsp.
  - field. exact Hsp.
Qed.

(** The speed vanishes nowhere unless the eccentricity equals the
    stationary radius in absolute value. *)
Lemma trace_speed_nonzero (rc rs e t : R) :
  rc + rs <> 0 -> rs <> 0 -> (e / rs) ^ 2 <> 1 ->
  trace_speed rc rs e t <> 0.
Proof.
  intros HA Hrs Hq Hsp. apply Hq.
  set (k := (rc + rs) / rs) in *.
  assert (Hx : trace_dx rc rs e t
               = (rc + rs) * (- sin t + e / rs * sin (k * t))).
  { unfold trace_dx. fold k. unfold k. field. exact Hrs. }
  assert (Hy : trace_dy rc rs e t
               = (rc + rs) * (cos t - e / rs * cos (k * t))).
  { unfold trace_dy. fold k. unfold k. field. exact Hrs. }
  generalize (trace_speed_sqr rc rs e t). rewrite Hsp. intros H0.
  generalize (pow2_ge_0 (trace_dx rc rs e t))
             (pow2_ge_0 (trace_dy rc rs e t)). intros Hx0 Hy0.
  assert (Hdx : trace_dx rc rs e t = 0) by nra.
  assert (Hdy : trace_dy rc rs e t = 0) by nra.
  rewrite Hx in Hdx. rewrite Hy in Hdy.
  apply Rmult_integral in Hdx. apply Rmult_integral in Hdy.
  destruct Hdx as [? | Hdx]; [contradiction |].
  destruct Hdy as [? | Hdy]; [contradiction |].
  generalize (sin2_cos2_pow t) (sin2_cos2_pow (k * t)). intros H1 H2.
  assert (Hs : sin t = e / rs * sin (k * t)) by lra.
  assert (Hc : cos t = e / rs * cos (k * t)) by lra.
  rewrite Hs, Hc in H1.
  replace ((e / rs) ^ 2)
    with ((e / rs) ^ 2 * (sin (k * t) ^ 2 + cos (k * t) ^ 2))
    by (rewrite H2; ring).
  rewrite <- H1. ring.
Qed.

(** ** The disk generator *)

(** The speed as the code computes it is the speed of the trace. *)
Lemma code_speed (rc rs e t : R) :
  sqrt (((rc + rs) * (- sin t + e / rs * sin ((rc + rs) / rs * t))) ^ 2
        + ((rc + rs) * (cos t - e / rs * cos ((rc + rs) / rs * t))) ^ 2)
  = trace_speed rc rs e t.
Proof.
  unfold trace_speed, trace_dx, trace_dy. f_equal. unfold Rdiv. ring.
Qed.

(** A sample of the code at a point of non-zero speed is the outline
    point. *)
Lemma disk_sample_outline (e : R) (N : Z) (D d tol phi t : R) :
  trace_speed (r_c N D) (r_s N D) e t <> 0 ->
  disk_sample e N D d tol phi t = finite_row (disk_outline e N D d tol phi t).
Proof.
  intros Hsp. unfold disk_sample, cycloid_disk_sample.
  rewrite code_speed, (np_div_ok _ _ Hsp).
  unfold finite_row, disk_outline, translate, rotate, offset_curve,
    unit_normal, ecc_vector, trace_x, trace_y, trace_dx, trace_dy.
  unfold np_add, np_sub, np_mul. cbn [fst snd np_lift2].
  apply f_equal2; [apply f_equal2 |];
    [apply f_equal | apply f_equal | reflexivity]; unfold Rdiv; ring.
Qed.

(** A sample of the code at a point of zero speed is not finite. *)
Lemma disk_sample_degenerate (e : R) (N : Z) (D d tol phi t : R) :
  trace_speed (r_c N D) (r_s N D) e t = 0 ->
  disk_sample e N D d tol phi t = nonfinite_row.
Proof.
  intros Hsp. unfold disk_sample, cycloid_disk_sample.
  rewrite code_speed, Hsp, np_div_zero. reflexivity.
Qed.

Section Disk.

(** A disk for [N >= 2] pins on a ring of non-zero diameter [D]. *)
Variables (e : R) (N : Z) (D d phi tol : R).
Hypothesis HN : (2 <= N)%Z.
Hypothesis HD : D <> 0.

Lemma pins_nonzero : IZR N <> 0 /\ IZR (N - 1) <> 0.
Proof. split; apply not_0_IZR; lia. Qed.

Lemma lobes_ratio :
  r_s N D <> 0 /\ r_c N D + r_s N D = D / 2
  /\ (r_c N D + r_s N D) / r_s N D = IZR N.
Proof.
  destruct pins_nonzero as [HN0 _]. unfold r_c, r_s, lobes.
  assert (HL : IZR (N - 1) + 1 = IZR N) by (rewrite minus_IZR; ring).
  rewrite HL. repeat split.
  - intros H. apply HD.
    apply Rmult_eq_reg_r with (r := / IZR N); [| now apply Rinv_neq_0_compat].
    unfold Rdiv in H. lra.
  - rewrite minus_IZR. field. exact HN0.
  - rewrite minus_IZR. field. split; assumption.
Qed.

(** The radii as the code computes them. *)
Lemma code_radii :
  IZR (N - 1) / IZR N * (D / 2) = r_c N D /\ D / 2 / IZR N = r_s N D.
Proof.
  unfold r_c, r_s, lobes. rewrite minus_IZR.
  split; [f_equal |]; f_equal; ring.
Qed.

(** When no scalar division fails, [cycloid_disk_with] maps its sample
    function over the grid. *)
Lemma cycloid_disk_with_ok (ppl : Z) :
  (2 <= ppl * lobes N)%Z ->
  cycloid_disk_with ppl e N D d phi tol
  = Ok [ map (disk_sample e N D d tol phi)
             (grid 0 (2 * PI) (ppl * lobes N)) ].
Proof.
  intros Hpts. destruct pins_nonzero as [HN0 HL0].
  destruct lobes_ratio as [Hs _]. destruct code_radii as [Hrc Hrs].
  unfold cycloid_disk_with, effective_pin_radius.
  replace (N - 1 + 1)%Z with N by lia.
  py_ok HN0. py_ok HN0.
  rewrite (linspace_endpoint _ _ _ Hpts). cbn [bind].
  rewrite Hrs, Hrc. py_ok Hs. py_ok Hs. py_ok HL0. reflexivity.
Qed.

(** The same for the disk section of the export. *)
Lemma dxf_cycloid_disk_ok :
  dxf_cycloid_disk N (D / 2) e d tol phi (e * cos phi) (e * sin phi)
  = Ok [ Spline (map (disk_sample e N D d tol phi)
                     (grid 0 (2 * PI) (60 * lobes N)))
           true "CYCLOID_DISK" ].
Proof.
  destruct pins_nonzero as [HN0 HL0].
  destruct lobes_ratio as [Hs _]. destruct code_radii as [Hrc Hrs].
  unfold dxf_cycloid_disk.
  replace (N - 1 + 1)%Z with N by lia.
  rewrite linspace_endpoint by (unfold lobes; lia). cbn [bind].
  py_ok HN0. py_ok HN0.
  rewrite Hrs, Hrc. py_ok Hs. py_ok Hs. py_ok HL0. reflexivity.
Qed.

(** The sample of the code at [t = 2 pi] is its sample at [t = 0]. *)
Lemma disk_sample_turn :
  disk_sample e N D d tol phi (2 * PI) = disk_sample e N D d tol phi 0.
Proof.
  destruct lobes_ratio as [_ [_ Hk]].
  unfold disk_sample, cycloid_disk_sample.
  rewrite Hk, (Rmult_0_r (IZR N)). autorewrite with turns. reflexivity.
Qed.

(** The outline returns to its start after one turn of the parameter. *)
Lemma disk_outline_turn :
  disk_outline e N D d tol phi (2 * PI) = disk_outline e N D d tol phi 0.
Proof.
  destruct lobes_ratio as [_ [_ Hk]].
  unfold disk_outline, offset_curve, unit_normal, trace_speed,
    trace_dx, trace_dy, trace_x, trace_y.
  rewrite Hk, (Rmult_0_r (IZR N)). autorewrite with turns. reflexivity.
Qed.

End Disk.

(** C1, amended.  For at least three external pins and a non-zero ring
    diameter, [cycloid_disk] returns exactly one curve, of [1500 L]
    samples, taken in one pass over the parameters from [0] to [2 pi].
    A sample at which the speed [|(dxa, dya)|] is not zero is the point of
    the hypocycloid trace with rolling radius [L/(L+1) (D/2)] and
    stationary radius [(D/2)/(L+1)], moved by [pinDiameter/2 + tolerance]
    along the unit normal [(-dya, dxa)/|(dxa, dya)|], rotated by [-phi/L]
    and translated by [(e cos phi, e sin phi)]; a sample at which the
    speed is zero is a row that is not finite.  The loop is closed when
    the speed is not zero at [t = 0]: the first and the last row are then
    the offset point at [t = 0]; when the speed is zero there, the first
    row is not a point.  When the eccentricity differs from the stationary
    radius in absolute value the speed is zero nowhere: every sample is
    the offset point, and the loop is closed. *)
Theorem cycloid_disk_single_closed_loop (e : R) (N : Z) (D d phi tol : R) :
  (3 <= N)%Z -> D <> 0 ->
  exists c,
    cycloid_disk e N D d phi tol = Ok [c]
    /\ length c = Z.to_nat (1500 * lobes N)
    /\ (exists mid, grid 0 (2 * PI) (1500 * lobes N) = 0 :: mid ++ [2 * PI])
    /\ (forall (i : nat) (dflt : fpoint3),
          (i < length c)%nat ->
          let t := nth i (grid 0 (2 * PI) (1500 * lobes N)) 0 in
          (trace_speed (r_c N D) (r_s N D) e t <> 0 ->
           nth i c dflt = finite_row (disk_outline e N D d tol phi t))
          /\ (trace_speed (r_c N D) (r_s N D) e t = 0 ->
              nth i c dflt = nonfinite_row))
    /\ (forall dflt,
          (trace_speed (r_c N D) (r_s N D) e 0 <> 0 ->
           hd dflt c = finite_row (disk_outline e N D d tol phi 0)
           /\ last c dflt = finite_row (disk_outline e N D d tol phi 0))
          /\ (trace_speed (r_c N D) (r_s N D) e 0 = 0 ->
              hd dflt c = nonfinite_row))
    /\ ((e / r_s N D) ^ 2 <> 1 ->
        (forall (i : nat) (dflt : fpoint3),
           (i < length c)%nat ->
           nth i c dflt
           = finite_row
               (disk_outline e N D d tol phi
                  (nth i (grid 0 (2 * PI) (1500 * lobes N)) 0)))
        /\ forall dflt,
             hd dflt c = finite_row (disk_outline e N D d tol phi 0)
             /\ last c dflt = finite_row (disk_outline e N D d tol phi 0)).
Proof.
  intros HN HD. unfold cycloid_disk.
  assert (Hpts : (2 <= 1500 * lobes N)%Z) by (unfold lobes; lia).
  assert (HN2 : (2 <= N)%Z) by lia.
  rewrite cycloid_disk_with_ok by assumption.
  eexists. split; [reflexivity |].
  split; [now rewrite length_map, grid_length |].
  destruct (grid_first_last 0 (2 * PI) _ Hpts) as [mid Hg].
  split; [exists mid; exact Hg |].
  split.
  { intros i dflt Hi. cbv zeta.
    rewrite length_map, grid_length in Hi.
    rewrite nth_map_grid by exact Hi. split; intros Hsp.
    - now apply disk_sample_outline.
    - now apply disk_sample_degenerate. }
  split.
  { intros dflt. rewrite Hg. cbn [map]. rewrite map_app. cbn [map hd].
    rewrite last_cons_snoc, disk_sample_turn by assumption.
    split; intros Hsp.
    - split; now apply disk_sample_outline.
    - now apply disk_sample_degenerate. }
  intros Hq.
  assert (Hsp : forall t, trace_speed (r_c N D) (r_s N D) e t <> 0).
  { intros t. destruct (lobes_ratio N D HN2 HD) as [Hs [HR _]].
    apply trace_speed_nonzero; try assumption.
    rewrite HR. intros H. apply HD. lra. }
  split.
  - intros i dflt Hi. rewrite length_map, grid_length in Hi.
    rewrite nth_map_grid by exact Hi. apply disk_sample_outline, Hsp.
  - intros dflt. rewrite Hg. cbn [map]. rewrite map_app. cbn [map hd].
    rewrite last_cons_snoc, disk_sample_turn by assumption.
    split; apply disk_sample_outline, Hsp.
Qed.

(** C1, amended, at [e = 1], 4 pins, ring diameter 40 (stationary radius
    5), pin diameter 5, [phi = 0] and tolerance 0.2: every sample is the
    offset point, and the first and the last row are the offset point at
    [t = 0]. *)
Lemma cycloid_disk_single_closed_loop_witness :
  exists c, cycloid_disk 1 4 40 5 0 (1 / 5) = Ok [c]
            /\ length c = Z.to_nat (1500 * lobes 4)
            /\ (forall (i : nat) (dflt : fpoint3),
                  (i < length c)%nat ->
                  nth i c dflt
                  = finite_row
                      (disk_outline 1 4 40 5 (1 / 5) 0
                         (nth i (grid 0 (2 * PI) (1500 * lobes 4)) 0)))
            /\ forall dflt,
                 hd dflt c = finite_row (disk_outline 1 4 40 5 (1 / 5) 0 0)
                 /\ last c dflt
                    = finite_row (disk_outline 1 4 40 5 (1 / 5) 0 0).
Proof.
  destruct (cycloid_disk_single_closed_loop 1 4 40 5 0 (1 / 5))
    as [c [H1 [H2 [_ [_ [_ H3]]]]]].
  - lia.
  - lra.
  - exists c. split; [exact H1 |]. split; [exact H2 |]. apply H3.
    replace (r_s 4 40) with 5 by (unfold r_s, lobes; simpl; lra). lra.
Defined.

(** C3, amended.  When the speed [|(dxa, dya)|] is exactly zero at some
    sample, the disk generator raises nothing: with at least two pins and
    a non-zero ring diameter [cycloid_disk] still returns one curve of
    [1500 L] samples.  That curve contains a row whose [x] and [y] are not
    finite; every sample of zero speed is such a row, and every other
    sample is the regular outline point.  The disk section of the export
    behaves alike on its own grid of [60 L] samples. *)
Theorem cycloid_disk_degenerate_not_raised (e : R) (N : Z) (D d phi tol : R) :
  (2 <= N)%Z -> D <> 0 ->
  (exists t, In t (grid 0 (2 * PI) (1500 * lobes N))
             /\ trace_speed (r_c N D) (r_s N D) e t = 0) ->
  (exists c,
     cycloid_disk e N D d phi tol = Ok [c]
     /\ length c = Z.to_nat (1500 * lobes N)
     /\ In nonfinite_row c
     /\ forall (i : nat) (dflt : fpoint3),
          (i < length c)%nat ->
          let t := nth i (grid 0 (2 * PI) (1500 * lobes N)) 0 in
          (trace_speed (r_c N D) (r_s N D) e t = 0 ->
           nth i c dflt = nonfinite_row)
          /\ (trace_speed (r_c N D) (r_s N D) e t <> 0 ->
              nth i c dflt = finite_row (disk_outline e N D d tol phi t)))
  /\ ((exists t, In t (grid 0 (2 * PI) (60 * lobes N))
                 /\ trace_speed (r_c N D) (r_s N D) e t = 0) ->
      exists pts,
        dxf_cycloid_disk N (D / 2) e d tol phi (e * cos phi) (e * sin phi)
        = Ok [ Spline pts true "CYCLOID_DISK" ]
        /\ In nonfinite_row pts).
Proof.
  intros HN HD [t0 [Hin0 Hsp0]]. unfold cycloid_disk. split.
  - rewrite cycloid_disk_with_ok by (unfold lobes; lia || assumption).
    eexists. split; [reflexivity |].
    split; [now rewrite length_map, grid_length |].
    split.
    { rewrite <- (disk_sample_degenerate e N D d tol phi t0 Hsp0).
      now apply in_map. }
    intros i dflt Hi. cbv zeta. rewrite length_map, grid_length in Hi.
    rewrite nth_map_grid by exact Hi. split; intros Hsp.
    + now apply disk_sample_degenerate.
    + now apply disk_sample_outline.
  - intros [t1 [Hin1 Hsp1]].
    rewrite dxf_cycloid_disk_ok by assumption.
    eexists. split; [reflexivity |].
    rewrite <- (disk_sample_degenerate e N D d tol phi t1 Hsp1).
    now apply in_map.
Qed.

(** The parameters of [degenerate_disk] have zero speed at [t = 0], the
    first sample of either grid. *)
Lemma degenerate_parameters (ppl : Z) :
  (1 <= ppl)%Z ->
  In 0 (grid 0 (2 * PI) (ppl * lobes 4))
  /\ trace_speed (r_c 4 40) (r_s 4 40) 5 0 = 0.
Proof.
  intros Hppl. split.
  - destruct (grid_first_last 0 (2 * PI) (ppl * lobes 4)) as [mid ->];
      [unfold lobes; lia | now left].
  - assert (Hrs : r_s 4 40 = 5) by (unfold r_s, lobes; simpl; lra).
    assert (Hrc : r_c 4 40 = 15) by (unfold r_c, lobes; simpl; lra).
    unfold trace_speed, trace_dx, trace_dy. rewrite Hrs, Hrc.
    rewrite !Rmult_0_r, sin_0, cos_0.
    replace ((- (15 + 5) * 0 + 5 * ((15 + 5) / 5) * 0) ^ 2
             + ((15 + 5) * 1 - 5 * ((15 + 5) / 5) * 1) ^ 2) with 0 by field.
    apply sqrt_0.
Qed.

(** C3, amended, at the parameters of [degenerate_disk]. *)
Lemma cycloid_disk_degenerate_not_raised_witness :
  exists c, cycloid_disk 5 4 40 5 0 (1 / 5) = Ok [c] /\ In nonfinite_row c.
Proof.
  destruct (cycloid_disk_degenerate_not_raised 5 4 40 5 0 (1 / 5))
    as [[c [H1 [_ [H2 _]]]] _].
  - lia.
  - lra.
  - exists 0. apply degenerate_parameters. lia.
  - exists c. split; assumption.
Defined.

(** C3 as stated fails.  With [e = 5], 4 pins, ring diameter 40
    (stationary radius 5), pin diameter 5, [phi = 0] and tolerance 0.2,
    the speed is zero at the first sample [t = 0], and neither
    [cycloid_disk] nor the disk section of the export raises. *)
Lemma cycloid_disk_degenerate_counterexample :
  (exists t, In t (grid 0 (2 * PI) (1500 * lobes 4))
             /\ trace_speed (r_c 4 40) (r_s 4 40) 5 t = 0)
  /\ ~ raises (cycloid_disk 5 4 40 5 0 (1 / 5))
  /\ ~ raises (dxf_cycloid_disk 4 (40 / 2) 5 5 (1 / 5) 0
                 (5 * cos 0) (5 * sin 0)).
Proof.
  split; [| split].
  - exists 0. apply degenerate_parameters. lia.
  - intros [ex Hex]. unfold cycloid_disk in Hex.
    rewrite cycloid_disk_with_ok in Hex by (unfold lobes; lia || lra).
    discriminate.
  - intros [ex Hex].
    rewrite dxf_cycloid_disk_ok in Hex by (lia || lra). discriminate.
Qed.

(** C1 as stated fails.  The parameters of [degenerate_disk] ([e = 5],
    4 pins, ring diameter 40, so stationary radius 5, pin diameter 5,
    camshaft diameter 12, tolerance 0.2) meet every condition on a
    parameter set, and the speed is zero at [t = 0]: the first row of the
    curve that [cycloid_disk] returns at [phi = 0] is not finite, so it is
    no point at all, and not the offset point. *)
Lemma cycloid_disk_offset_counterexample :
  0 < eccentricity degenerate_disk
  /\ (3 <= num_external_pins degenerate_disk)%Z
  /\ Z.even (num_external_pins degenerate_disk) = true
  /\ (3 <= num_output_pins degenerate_disk)%Z
  /\ 2 * eccentricity degenerate_disk < camshaft_diameter degenerate_disk
  /\ 0 <= tolerance degenerate_disk
  /\ exists c,
       cycloid_disk (eccentricity degenerate_disk)
         (num_external_pins degenerate_disk) (ring_diameter degenerate_disk)
         (pin_diameter degenerate_disk) 0 (tolerance degenerate_disk)
       = Ok [c]
       /\ forall dflt,
            hd dflt c = nonfinite_row
            /\ forall p, hd dflt c <> finite_row p.
Proof.
  unfold degenerate_disk. cbn.
  split; [lra |]. split; [lia |]. split; [reflexivity |]. split; [lia |].
  split; [lra |]. split; [lra |].
  unfold cycloid_disk.
  rewrite cycloid_disk_with_ok by (unfold lobes; lia || lra).
  eexists. split; [reflexivity |]. intros dflt.
  destruct (grid_first_last 0 (2 * PI) (1500 * lobes 4)) as [mid ->];
    [unfold lobes; lia |].
  cbn [map hd].
  rewrite disk_sample_degenerate
    by (apply (degenerate_parameters 1500); lia).
  split; [reflexivity |]. intros p H. discriminate H.
Qed.

(** C5.  For every parameter set and phase, the disk section of the DXF
    export and the display generator run at 60 points per lobe have the
    same outcome: both raise, or the fit points of the closed spline on
    layer CYCLOID_DISK are, sample by sample, the curve of
    [cycloid_disk_with 60], computed with the same offset radius
    [pin_diameter/2 + tolerance], rotation [-phi/L] and translation by
    the eccentricity vector.  The display generator itself is
    [cycloid_disk_with 1500]. *)
Theorem dxf_disk_is_display_disk_at_60 (p : params) (phi : R) :
  same_outcome
    (dxf_cycloid_disk (num_external_pins p) (ring_diameter p / 2)
       (eccentricity p) (pin_diameter p) (tolerance p) phi
       (eccentricity p * cos phi) (eccentricity p * sin phi))
    (cd <- cycloid_disk_with 60 (eccentricity p) (num_external_pins p)
             (ring_diameter p) (pin_diameter p) phi (tolerance p) ;;
     Ok (map (fun c => Spline c true "CYCLOID_DISK") cd))
  /\ cycloid_disk = cycloid_disk_with 1500.
Proof.
  split; [| reflexivity].
  unfold dxf_cycloid_disk, cycloid_disk_with.
  destruct (linspace 0 (2 * PI) (60 * (num_external_pins p - 1)) true)
    as [t | ex1];
  destruct (py_div (IZR (num_external_pins p - 1))
              (IZR (num_external_pins p - 1 + 1))) as [ratio | ex2];
  cbn [bind same_outcome]; try exact I.
  destruct (py_div (ring_diameter p / 2) (IZR (num_external_pins p - 1 + 1)))
    as [stationary | ex3]; cbn [bind same_outcome]; try exact I.
  - destruct (py_div (ratio * (ring_diameter p / 2) + stationary) stationary)
      as [k | ex4]; cbn [bind same_outcome]; try exact I.
    destruct (py_div (eccentricity p) stationary) as [q | ex5];
      cbn [bind same_outcome]; try exact I.
    destruct (py_div (- phi) (IZR (num_external_pins p - 1))) as [rot | ex6];
      cbn [bind same_outcome map]; try exact I.
    reflexivity.
  - destruct (py_div (ring_diameter p / 2)
                (IZR (num_external_pins p - 1 + 1)));
      cbn [bind same_outcome]; exact I.
Qed.

(** C8.  Advancing the phase by [2 pi L], one full orbital cycle of the
    disk, leaves the result of [cycloid_disk] unchanged, for every
    argument: the rotation [-phi/L] changes by a full turn and the
    eccentricity vector by [L] full turns. *)
Theorem cycloid_disk_full_cycle (e : R) (N : Z) (D d phi tol : R) :
  cycloid_disk e N D d (phi + 2 * PI * IZR (lobes N)) tol
  = cycloid_disk e N D d phi tol.
Proof.
  unfold cycloid_disk, cycloid_disk_with, lobes.
  set (L := (N - 1)%Z).
  destruct (py_div (IZR L) (IZR (L + 1))) as [ratio | ?]; [| reflexivity].
  cbn [bind].
  destruct (py_div (D / 2) (IZR (L + 1))) as [stationary | ?]; [| reflexivity].
  cbn [bind].
  destruct (linspace 0 (2 * PI) (1500 * L) true) as [t_full | ?];
    [| reflexivity].
  cbn [bind].
  destruct (py_div (ratio * (D / 2) + stationary) stationary) as [k | ?];
    [| reflexivity].
  cbn [bind].
  destruct (py_div e stationary) as [q | ?]; [| reflexivity].
  cbn [bind].
  destruct (Req_dec_T (IZR L) 0) as [HL | HL].
  - rewrite HL, !py_div_zero. reflexivity.
  - py_ok HL. py_ok HL. do 2 f_equal.
    apply map_ext. intros t. unfold cycloid_disk_sample.
    assert (Hc : cos (phi + 2 * PI * IZR L) = cos phi).
    { replace (phi + 2 * PI * IZR L) with (phi + 2 * IZR L * PI) by ring.
      apply cos_Z_turns. }
    assert (Hs : sin (phi + 2 * PI * IZR L) = sin phi).
    { replace (phi + 2 * PI * IZR L) with (phi + 2 * IZR L * PI) by ring.
      apply sin_Z_turns. }
    assert (Hr : - (phi + 2 * PI * IZR L) / IZR L
                 = - phi / IZR L + 2 * IZR (-1) * PI).
    { field. exact HL. }
    rewrite Hc, Hs, Hr, cos_Z_turns, sin_Z_turns. reflexivity.
Qed.

(** ** Output pins and output holes *)

(** The pins as a list of sampled circles. *)
Lemma inner_pins_ok (No N : Z) (opd odd phi : R) :
  (N <> 1)%Z ->
  inner_pins No N opd odd phi
  = Ok (map (fun i =>
               map (fun t =>
                      row (translate (output_pin_center No N odd phi i)
                             (rotate (- phi / IZR (lobes N))
                                (opd / 2 * sin t, opd / 2 * cos t))))
                   (grid 0 (2 * PI) 200))
            (range No)).
Proof.
  intros HN. unfold inner_pins. rewrite linspace_200. cbn [bind].
  apply mapM_ok. intros i Hi.
  assert (HL : IZR (N - 1) <> 0) by (apply not_0_IZR; lia).
  py_ok (range_divisor _ _ Hi). py_ok HL. cbv beta. apply f_equal.
  apply map_ext. intros t.
  unfold row, translate, output_pin_center, rotate, placement, lobes.
  cbn [fst snd]. f_equal. f_equal; ring.
Qed.

(** The holes as a list of sampled circles. *)
Lemma inner_circles_ok (e : R) (No N : Z) (opd odd phi tol : R) :
  (N <> 1)%Z ->
  inner_circles e No N opd odd phi tol
  = Ok (map (fun i =>
               map (fun t =>
                      row (translate (output_hole_center e No N odd phi i)
                             (rotate (- phi / IZR (lobes N))
                                (hole_radius (opd / 2) e tol * cos t,
                                 hole_radius (opd / 2) e tol * sin t))))
                   (grid 0 (2 * PI) 200))
            (range No)).
Proof.
  intros HN. unfold inner_circles. rewrite linspace_200. cbn [bind].
  apply mapM_ok. intros i Hi.
  assert (HL : IZR (N - 1) <> 0) by (apply not_0_IZR; lia).
  py_ok (range_divisor _ _ Hi). py_ok HL. cbv beta. apply f_equal.
  apply map_ext. intros t.
  unfold output_hole_center, output_pin_center, row, translate, rotate,
    placement, ecc_vector, lobes.
  cbn [fst snd]. f_equal. f_equal; ring.
Qed.

(** A rotated radius vector, moved to [c], lies on the circle about [c]. *)
Lemma rotated_on_circle (c : R * R) (a r u v : R) :
  u ^ 2 + v ^ 2 = r ^ 2 ->
  on_circle c r (row (translate c (rotate a (u, v)))).
Proof.
  intros H. unfold on_circle, row, translate, rotate, dist2. cbn [fst snd].
  split; [| reflexivity].
  rewrite <- H.
  replace ((u * cos a - v * sin a + fst c - fst c) ^ 2
           + (u * sin a + v * cos a + snd c - snd c) ^ 2)
    with ((u ^ 2 + v ^ 2) * (sin a ^ 2 + cos a ^ 2)) by ring.
  rewrite sin2_cos2_pow. ring.
Qed.

(** A radius vector moved to [c] lies on the circle about [c]. *)
Lemma circle_point (c : R * R) (r t : R) :
  on_circle c r (row (translate c (r * cos t, r * sin t))).
Proof.
  unfold on_circle, row, translate, dist2. cbn [fst snd].
  split; [| reflexivity].
  replace ((r * cos t + fst c - fst c) ^ 2 + (r * sin t + snd c - snd c) ^ 2)
    with (r ^ 2 * (sin t ^ 2 + cos t ^ 2)) by ring.
  rewrite sin2_cos2_pow. ring.
Qed.

(** The samples of the output pins lie on their circles. *)
Lemma inner_pins_on_circles (No N : Z) (opd odd phi : R) :
  (N <> 1)%Z ->
  exists pins,
    inner_pins No N opd odd phi = Ok pins
    /\ length pins = Z.to_nat No
    /\ forall i : nat, (i < Z.to_nat No)%nat ->
         length (nth i pins []) = 200%nat
         /\ curve_on_circle (output_pin_center No N odd phi (Z.of_nat i))
              (opd / 2) (nth i pins []).
Proof.
  intros HN. rewrite inner_pins_ok by exact HN.
  eexists. split; [reflexivity |].
  split; [now rewrite length_map, range_length |].
  intros i Hi. rewrite nth_map_range by exact Hi.
  split; [now rewrite length_map, grid_length |].
  intros p Hp. apply in_map_iff in Hp. destruct Hp as [t [<- _]].
  apply rotated_on_circle.
  replace ((opd / 2 * sin t) ^ 2 + (opd / 2 * cos t) ^ 2)
    with ((opd / 2) ^ 2 * (sin t ^ 2 + cos t ^ 2)) by ring.
  rewrite sin2_cos2_pow. ring.
Qed.

(** The samples of the output holes lie on their circles. *)
Lemma inner_circles_on_circles (e : R) (No N : Z) (opd odd phi tol : R) :
  (N <> 1)%Z ->
  exists holes,
    inner_circles e No N opd odd phi tol = Ok holes
    /\ length holes = Z.to_nat No
    /\ forall i : nat, (i < Z.to_nat No)%nat ->
         length (nth i holes []) = 200%nat
         /\ curve_on_circle (output_hole_center e No N odd phi (Z.of_nat i))
              (hole_radius (opd / 2) e tol) (nth i holes []).
Proof.
  intros HN. rewrite inner_circles_ok by exact HN.
  eexists. split; [reflexivity |].
  split; [now rewrite length_map, range_length |].
  intros i Hi. rewrite nth_map_range by exact Hi.
  split; [now rewrite length_map, grid_length |].
  intros p Hp. apply in_map_iff in Hp. destruct Hp as [t [<- _]].
  apply rotated_on_circle.
  replace ((hole_radius (opd / 2) e tol * cos t) ^ 2
           + (hole_radius (opd / 2) e tol * sin t) ^ 2)
    with (hole_radius (opd / 2) e tol ^ 2 * (sin t ^ 2 + cos t ^ 2)) by ring.
  rewrite sin2_cos2_pow. ring.
Qed.

Lemma camshaft_ok (cam_d phi tol : R) :
  camshaft cam_d phi tol
  = Ok (map (fun t => row (translate (0, 0)
                             (hole_diameter cam_d tol / 2 * cos t,
                              hole_diameter cam_d tol / 2 * sin t)))
            (grid 0 (2 * PI) 200)).
Proof.
  unfold camshaft. rewrite linspace_200. cbn [bind]. apply f_equal.
  apply map_ext. intros t. unfold row, translate. cbn [fst snd].
  f_equal. f_equal; ring.
Qed.

(** The samples of the camshaft bore lie on its circle about the origin. *)
Lemma camshaft_on_circle (cam_d phi tol : R) :
  exists c,
    camshaft cam_d phi tol = Ok c
    /\ length c = 200%nat
    /\ curve_on_circle (0, 0) (hole_diameter cam_d tol / 2) c.
Proof.
  rewrite camshaft_ok. eexists. split; [reflexivity |].
  split; [now rewrite length_map, grid_length |].
  intros p Hp. apply in_map_iff in Hp. destruct Hp as [t [<- _]].
  apply circle_point.
Qed.



(** ** Tolerance *)

Lemma dxf_output_holes_ok (No : Z) (Rd opd e tol cx cy : R) :
  dxf_output_holes No Rd opd e tol cx cy
  = Ok (map (fun i => Circle (fst (placement No Rd i) + cx,
                              snd (placement No Rd i) + cy)
                        (opd / 2 + e + tol) "OUTPUT_HOLES")
            (range No)).
Proof.
  unfold dxf_output_holes. apply mapM_ok. intros i Hi.
  py_ok (range_divisor _ _ Hi). reflexivity.
Qed.

(** Tolerance enters the outline only through the offset distance. *)
Lemma disk_outline_tolerance (e : R) (N : Z) (D d phi t t1 t2 : R) :
  disk_outline e N D d t2 phi t
  = translate
      (rotate (- phi / IZR (lobes N))
         ((t2 - t1) * fst (unit_normal (r_c N D) (r_s N D) e t),
          (t2 - t1) * snd (unit_normal (r_c N D) (r_s N D) e t)))
      (disk_outline e N D d t1 phi t).
Proof.
  unfold disk_outline, translate, rotate, offset_curve, ecc_vector.
  cbn [fst snd]. f_equal; ring.
Qed.

(** The disk outline at [t = 0], [phi = 0] for [e = 10], 4 pins, ring
    diameter 20 and pin diameter 5. *)
Lemma undercut_outline_start (tol : R) :
  trace_speed (r_c 4 20) (r_s 4 20) 10 0 = 30
  /\ disk_outline 10 4 20 5 tol 0 0 = (10 + (5 / 2 + tol), 0).
Proof.
  assert (Hrs : r_s 4 20 = 5 / 2) by (unfold r_s, lobes; simpl; lra).
  assert (Hrc : r_c 4 20 = 15 / 2) by (unfold r_c, lobes; simpl; lra).
  assert (Hsp : trace_speed (15 / 2) (5 / 2) 10 0 = 30).
  { unfold trace_speed, trace_dx, trace_dy.
    rewrite !Rmult_0_r, sin_0, cos_0.
    replace ((- (15 / 2 + 5 / 2) * 0
              + 10 * ((15 / 2 + 5 / 2) / (5 / 2)) * 0) ^ 2
             + ((15 / 2 + 5 / 2) * 1
                - 10 * ((15 / 2 + 5 / 2) / (5 / 2)) * 1) ^ 2)
      with (30 * 30) by field.
    apply sqrt_square. lra. }
  rewrite Hrs, Hrc. split; [exact Hsp |].
  unfold disk_outline, translate, rotate, offset_curve, unit_normal,
    ecc_vector. rewrite Hrs, Hrc, Hsp.
  unfold trace_x, trace_y, trace_dx, trace_dy, lobes. cbn [fst snd].
  replace (- 0 / IZR (4 - 1)) with 0 by (simpl; field).
  rewrite !Rmult_0_r, sin_0, cos_0. f_equal; field.
Qed.

(** Rotation keeps the distance to the origin. *)
Lemma rotate_sqr (a : R) (p : R * R) :
  fst (rotate a p) ^ 2 + snd (rotate a p) ^ 2 = fst p ^ 2 + snd p ^ 2.
Proof.
  unfold rotate. cbn [fst snd].
  replace ((fst p * cos a - snd p * sin a) ^ 2
           + (fst p * sin a + snd p * cos a) ^ 2)
    with ((fst p ^ 2 + snd p ^ 2) * (sin a ^ 2 + cos a ^ 2)) by ring.
  rewrite sin2_cos2_pow. ring.
Qed.

Lemma cos_difference_bound (a b : R) :
  -1 <= cos a * cos b + sin a * sin b <= 1.
Proof. rewrite <- cos_minus. apply COS_bound. Qed.

(** The trace against the normal before it is scaled to length one, and
    the square of the speed, in terms of [cos (k t - t)]. *)
Lemma trace_against_normal (rc rs e t : R) :
  let k := (rc + rs) / rs in
  let c := cos t * cos (k * t) + sin t * sin (k * t) in
  trace_x rc rs e t * - trace_dy rc rs e t
  + trace_y rc rs e t * trace_dx rc rs e t
  = - (rc + rs) ^ 2 - e ^ 2 * k + e * (rc + rs) * (k + 1) * c
  /\ trace_dx rc rs e t ^ 2 + trace_dy rc rs e t ^ 2
     = (rc + rs) ^ 2 + (e * k) ^ 2 - 2 * (rc + rs) * (e * k) * c.
Proof.
  intros k c. unfold c, trace_x, trace_y, trace_dx, trace_dy. fold k.
  generalize (sin2_cos2_pow t) (sin2_cos2_pow (k * t)). intros H1 H2.
  split.
  - replace ((( rc + rs) * cos t - e * cos (k * t))
             * - ((rc + rs) * cos t - e * k * cos (k * t))
             + ((rc + rs) * sin t - e * sin (k * t))
               * (- (rc + rs) * sin t + e * k * sin (k * t)))
      with (- (rc + rs) ^ 2 * (sin t ^ 2 + cos t ^ 2)
            - e ^ 2 * k * (sin (k * t) ^ 2 + cos (k * t) ^ 2)
            + e * (rc + rs) * (k + 1)
              * (cos t * cos (k * t) + sin t * sin (k * t))) by ring.
    rewrite H1, H2. ring.
  - replace ((- (rc + rs) * sin t + e * k * sin (k * t)) ^ 2
             + ((rc + rs) * cos t - e * k * cos (k * t)) ^ 2)
      with ((rc + rs) ^ 2 * (sin t ^ 2 + cos t ^ 2)
            + (e * k) ^ 2 * (sin (k * t) ^ 2 + cos (k * t) ^ 2)
            - 2 * (rc + rs) * (e * k)
              * (cos t * cos (k * t) + sin t * sin (k * t))) by ring.
    rewrite H1, H2. ring.
Qed.

(** For an eccentricity below the stationary radius the speed is
    positive everywhere and the unit normal of the code points inward:
    its product with the vector from the disk centre to the trace point
    is negative, by at least [(R - e) (rs - e) / (rs + e)] for
    [R = rc + rs]. *)
Lemma normal_points_inward (rc rs e t : R) :
  0 < rs -> 0 <= rc -> 0 <= e < rs ->
  0 < trace_speed rc rs e t
  /\ 0 < (rc + rs - e) * (rs - e) / (rs + e)
  /\ fst (unit_normal rc rs e t) * trace_x rc rs e t
     + snd (unit_normal rc rs e t) * trace_y rc rs e t
     <= - ((rc + rs - e) * (rs - e) / (rs + e)).
Proof.
  intros Hrs Hrc [He0 He].
  set (k := (rc + rs) / rs).
  set (c := cos t * cos (k * t) + sin t * sin (k * t)).
  destruct (trace_against_normal rc rs e t) as [HP HS]. fold k c in HP, HS.
  destruct (cos_difference_bound t (k * t)) as [Hc1 Hc2]. fold c in Hc1, Hc2.
  assert (Hk : 1 <= k).
  { unfold k. apply Rmult_le_reg_r with rs; [exact Hrs |].
    unfold Rdiv. rewrite Rmult_assoc, Rinv_l by lra. lra. }
  assert (Hkrs : k * rs = rc + rs) by (unfold k; field; lra).
  set (S := trace_speed rc rs e t).
  set (B := (rc + rs - e) * (rs - e) / (rs + e)).
  set (U := rc + rs + e * k).
  set (M := (rc + rs - e) * (rc + rs - e * k)).
  assert (Hek : e * k < rc + rs) by nra.
  assert (HM : 0 < M) by (unfold M; nra).
  assert (HU : 0 < U) by (unfold U; nra).
  assert (HB : 0 < B).
  { unfold B. apply Rdiv_lt_0_compat; [| lra].
    apply Rmult_lt_0_compat; lra. }
  assert (HBU : B * U = M).
  { unfold B, U, M. rewrite <- Hkrs. field. lra. }
  assert (HS0 : 0 <= S) by apply sqrt_pos.
  assert (HSne : S <> 0).
  { apply trace_speed_nonzero; try lra.
    intros H. assert (Hq : 0 <= e / rs < 1).
    { split;
        [unfold Rdiv; apply Rmult_le_pos;
           [lra | left; apply Rinv_0_lt_compat; lra] |].
      apply Rmult_lt_reg_r with rs; [exact Hrs |].
      unfold Rdiv. rewrite Rmult_assoc, Rinv_l by lra. lra. }
    nra. }
  assert (HSpos : 0 < S) by lra.
  assert (HSU : S <= U).
  { generalize (trace_speed_sqr rc rs e t). fold S. rewrite HS. intros HS2.
    assert (0 <= (rc + rs) * (e * k) * (1 + c))
      by (apply Rmult_le_pos; [apply Rmult_le_pos; nra | lra]).
    assert (S ^ 2 <= U ^ 2) by (unfold U; nra).
    destruct (Rle_dec S U) as [? | Hn]; [assumption | exfalso; nra]. }
  split; [exact HSpos |]. split; [exact HB |].
  assert (Hdot :
    fst (unit_normal rc rs e t) * trace_x rc rs e t
    + snd (unit_normal rc rs e t) * trace_y rc rs e t
    = (trace_x rc rs e t * - trace_dy rc rs e t
       + trace_y rc rs e t * trace_dx rc rs e t) / S).
  { unfold unit_normal. cbn [fst snd]. fold S. field. exact HSne. }
  rewrite Hdot, HP.
  apply Rmult_le_reg_r with S; [exact HSpos |].
  unfold Rdiv. rewrite Rmult_assoc, Rinv_l, Rmult_1_r by exact HSne.
  assert (HPM : - (rc + rs) ^ 2 - e ^ 2 * k + e * (rc + rs) * (k + 1) * c
                <= - M).
  { unfold M.
    assert (HA : 0 <= e * (rc + rs) * (k + 1))
      by (apply Rmult_le_pos; [apply Rmult_le_pos |]; lra).
    assert (e * (rc + rs) * (k + 1) * c <= e * (rc + rs) * (k + 1) * 1)
      by (apply Rmult_le_compat_l; [exact HA | exact Hc2]).
    lra. }
  assert (0 <= B * (U - S)) by (apply Rmult_le_pos; lra).
  fold B. lra.
Qed.

(** C7, amended.  For tolerances [t1 < t2] and every parameter set, the
    output-hole radius [outputPinRadius + e + tolerance] and the
    camshaft-bore radius [(camshaftDiameter + 2 tolerance)/2] strictly
    increase: the samples of [inner_circles] and of [camshaft] lie on
    circles of these radii about centres that do not depend on the
    tolerance, the circles of the export on OUTPUT_HOLES keep their
    centres and get the larger radius, and so does the circle on
    CAMSHAFT_HOLE.  For at least two pins, a positive ring diameter and an
    eccentricity from 0 up to, but not reaching, the stationary radius,
    the disk outline shrinks: [cycloid_disk] returns at both tolerances
    one curve of samples over the same parameters, every sample is a
    finite point that moves by [t2 - t1] along the unit normal
    [(-dya, dxa)/|(dxa, dya)|] (rotated by [-phi/L]), this normal points
    inward (its product with the vector from the disk centre to the trace
    point is negative), and as long as the offset [pinDiameter/2 + t2] is
    at most [shrink_margin] the sample comes strictly closer to the centre
    of the disk.  For every parameter set, a sample of non-zero speed
    moves by [t2 - t1] along that normal. *)
Theorem tolerance_grows_radii
    (e : R) (No N : Z) (opd odd cam_d d D phi cx cy : R) (t1 t2 : R) :
  t1 < t2 ->
  hole_radius (opd / 2) e t1 < hole_radius (opd / 2) e t2
  /\ hole_diameter cam_d t1 / 2 < hole_diameter cam_d t2 / 2
  /\ ((3 <= N)%Z ->
      exists h1 h2,
        inner_circles e No N opd odd phi t1 = Ok h1
        /\ inner_circles e No N opd odd phi t2 = Ok h2
        /\ forall i : nat, (i < Z.to_nat No)%nat ->
             curve_on_circle (output_hole_center e No N odd phi (Z.of_nat i))
               (hole_radius (opd / 2) e t1) (nth i h1 [])
             /\ curve_on_circle
                  (output_hole_center e No N odd phi (Z.of_nat i))
                  (hole_radius (opd / 2) e t2) (nth i h2 []))
  /\ (exists c1 c2,
        camshaft cam_d phi t1 = Ok c1
        /\ camshaft cam_d phi t2 = Ok c2
        /\ curve_on_circle (0, 0) (hole_diameter cam_d t1 / 2) c1
        /\ curve_on_circle (0, 0) (hole_diameter cam_d t2 / 2) c2)
  /\ (exists centre r1 r2,
        r1 < r2
        /\ dxf_output_holes No (odd / 2) opd e t1 cx cy
           = Ok (map (fun i => Circle (centre i) r1 "OUTPUT_HOLES") (range No))
        /\ dxf_output_holes No (odd / 2) opd e t2 cx cy
           = Ok (map (fun i => Circle (centre i) r2 "OUTPUT_HOLES") (range No)))
  /\ (exists b1 b2 cam,
        b1 < b2
        /\ dxf_camshaft cam_d e t1 cx cy
           = Circle (0, 0) b1 "CAMSHAFT_HOLE" :: cam
        /\ dxf_camshaft cam_d e t2 cx cy
           = Circle (0, 0) b2 "CAMSHAFT_HOLE" :: cam)
  /\ ((2 <= N)%Z -> 0 < D -> 0 <= e < r_s N D ->
      (exists c1 c2,
         cycloid_disk e N D d phi t1 = Ok [c1]
         /\ cycloid_disk e N D d phi t2 = Ok [c2]
         /\ c1 = map (disk_sample e N D d t1 phi)
                    (grid 0 (2 * PI) (1500 * lobes N))
         /\ c2 = map (disk_sample e N D d t2 phi)
                    (grid 0 (2 * PI) (1500 * lobes N)))
      /\ forall t,
        exists p1 p2,
          disk_sample e N D d t1 phi t = finite_row p1
          /\ disk_sample e N D d t2 phi t = finite_row p2
          /\ p2 = translate
                    (rotate (- phi / IZR (lobes N))
                       ((t2 - t1) * fst (unit_normal (r_c N D) (r_s N D) e t),
                        (t2 - t1) * snd (unit_normal (r_c N D) (r_s N D) e t)))
                    p1
          /\ fst (unit_normal (r_c N D) (r_s N D) e t)
             * trace_x (r_c N D) (r_s N D) e t
             + snd (unit_normal (r_c N D) (r_s N D) e t)
               * trace_y (r_c N D) (r_s N D) e t < 0
          /\ (d / 2 + t2 <= shrink_margin e N D ->
              dist2 p2 (ecc_vector e phi) < dist2 p1 (ecc_vector e phi)))
  /\ (forall t,
        trace_speed (r_c N D) (r_s N D) e t <> 0 ->
        exists p1 p2,
          disk_sample e N D d t1 phi t = finite_row p1
          /\ disk_sample e N D d t2 phi t = finite_row p2
          /\ p2 = translate
                    (rotate (- phi / IZR (lobes N))
                       ((t2 - t1) * fst (unit_normal (r_c N D) (r_s N D) e t),
                        (t2 - t1) * snd (unit_normal (r_c N D) (r_s N D) e t)))
                    p1).
Proof.
  intros Ht.
  split; [unfold hole_radius; lra |].
  split; [unfold hole_diameter; lra |].
  split; [| split; [| split; [| split; [| split]]]].
  - intros HN.
    destruct (inner_circles_on_circles e No N opd odd phi t1)
      as [h1 [H1 [_ Hc1]]]; [lia |].
    destruct (inner_circles_on_circles e No N opd odd phi t2)
      as [h2 [H2 [_ Hc2]]]; [lia |].
    exists h1, h2. split; [exact H1 |]. split; [exact H2 |].
    intros i Hi. split; [apply (Hc1 i Hi) | apply (Hc2 i Hi)].
  - destruct (camshaft_on_circle cam_d phi t1) as [c1 [H1 [_ Hc1]]].
    destruct (camshaft_on_circle cam_d phi t2) as [c2 [H2 [_ Hc2]]].
    exists c1, c2. split; [exact H1 |]. split; [exact H2 |].
    split; [exact Hc1 | exact Hc2].
  - exists (fun i => (fst (placement No (odd / 2) i) + cx,
                      snd (placement No (odd / 2) i) + cy)),
      (opd / 2 + e + t1), (opd / 2 + e + t2).
    split; [lra |]. now rewrite !dxf_output_holes_ok.
  - unfold dxf_camshaft. do 3 eexists.
    split; [| split; reflexivity]. lra.
  - intros HN HD He.
    assert (HD0 : D <> 0) by lra.
    split.
    { assert (Hpts : (2 <= 1500 * lobes N)%Z) by (unfold lobes; lia).
      unfold cycloid_disk. rewrite !cycloid_disk_with_ok by assumption.
      do 2 eexists. repeat split; reflexivity. }
    intros t.
    destruct (lobes_ratio N D HN HD0) as [Hs [HR _]].
    assert (HN0 : 0 < IZR N) by (apply IZR_lt; lia).
    assert (Hrs : 0 < r_s N D).
    { unfold r_s, lobes. rewrite minus_IZR.
      replace (IZR N - 1 + 1) with (IZR N) by ring.
      apply Rdiv_lt_0_compat; lra. }
    assert (Hrc : 0 <= r_c N D).
    { assert (r_s N D * IZR N = D / 2).
      { unfold r_s, lobes. rewrite minus_IZR. field. lra. }
      assert (1 <= IZR N) by (apply IZR_le; lia). nra. }
    destruct (normal_points_inward (r_c N D) (r_s N D) e t Hrs Hrc He)
      as [Hsp [HB Hdot]].
    rewrite HR in HB, Hdot. fold (shrink_margin e N D) in HB, Hdot.
    assert (Hne : trace_speed (r_c N D) (r_s N D) e t <> 0) by lra.
    exists (disk_outline e N D d t1 phi t), (disk_outline e N D d t2 phi t).
    rewrite !disk_sample_outline by exact Hne.
    split; [reflexivity |]. split; [reflexivity |].
    split; [apply disk_outline_tolerance |].
    split; [lra |].
    intros Hoff.
    destruct (unit_normal_unit _ _ _ _ Hne) as [Hunit _].
    set (n := unit_normal (r_c N D) (r_s N D) e t) in *.
    set (x := trace_x (r_c N D) (r_s N D) e t) in *.
    set (y := trace_y (r_c N D) (r_s N D) e t) in *.
    assert (Hdist : forall tol,
              dist2 (disk_outline e N D d tol phi t) (ecc_vector e phi)
              = x ^ 2 + y ^ 2 + 2 * (d / 2 + tol) * (fst n * x + snd n * y)
                + (d / 2 + tol) ^ 2).
    { intros tol. unfold disk_outline, dist2, translate. cbn [fst snd].
      replace (fst (rotate (- phi / IZR (lobes N))
                      (offset_curve (r_c N D) (r_s N D) e (d / 2 + tol) t))
               + fst (ecc_vector e phi) - fst (ecc_vector e phi))
        with (fst (rotate (- phi / IZR (lobes N))
                     (offset_curve (r_c N D) (r_s N D) e (d / 2 + tol) t)))
        by ring.
      replace (snd (rotate (- phi / IZR (lobes N))
                      (offset_curve (r_c N D) (r_s N D) e (d / 2 + tol) t))
               + snd (ecc_vector e phi) - snd (ecc_vector e phi))
        with (snd (rotate (- phi / IZR (lobes N))
                     (offset_curve (r_c N D) (r_s N D) e (d / 2 + tol) t)))
        by ring.
      rewrite rotate_sqr. unfold offset_curve. cbn [fst snd].
      fold n x y.
      replace ((x + (d / 2 + tol) * fst n) ^ 2
               + (y + (d / 2 + tol) * snd n) ^ 2)
        with (x ^ 2 + y ^ 2 + 2 * (d / 2 + tol) * (fst n * x + snd n * y)
              + (d / 2 + tol) ^ 2 * (fst n ^ 2 + snd n ^ 2)) by ring.
      rewrite Hunit. ring. }
    rewrite !Hdist. nra.
  - intros t Hsp.
    exists (disk_outline e N D d t1 phi t), (disk_outline e N D d t2 phi t).
    rewrite !disk_sample_outline by exact Hsp.
    split; [reflexivity |]. split; [reflexivity |].
    apply disk_outline_tolerance.
Qed.

(** C7, amended, for the tolerances 0 and 1 at [e = 1], 4 pins, ring
    diameter 40 (stationary radius 5) and pin diameter 5: the holes grow,
    and the sample of the disk at [t = 0] comes closer to the centre of
    the disk. *)
Lemma tolerance_grows_radii_witness :
  hole_radius (5 / 2) 1 0 < hole_radius (5 / 2) 1 1
  /\ hole_diameter 10 0 / 2 < hole_diameter 10 1 / 2
  /\ exists p1 p2,
       disk_sample 1 4 40 5 0 0 0 = finite_row p1
       /\ disk_sample 1 4 40 5 1 0 0 = finite_row p2
       /\ dist2 p2 (ecc_vector 1 0) < dist2 p1 (ecc_vector 1 0).
Proof.
  destruct (tolerance_grows_radii 1 6 4 5 50 10 5 40 0 1 0 0 1)
    as [H1 [H2 [_ [_ [_ [_ [H3 _]]]]]]]; [lra |].
  split; [exact H1 |]. split; [exact H2 |].
  assert (Hrs : r_s 4 40 = 5) by (unfold r_s, lobes; simpl; lra).
  destruct (proj2 (H3 ltac:(lia) ltac:(lra) ltac:(rewrite Hrs; lra)) 0)
    as [p1 [p2 [Hp1 [Hp2 [_ [_ Hd]]]]]].
  exists p1, p2. split; [exact Hp1 |]. split; [exact Hp2 |].
  apply Hd. unfold shrink_margin. rewrite Hrs. lra.
Defined.

(** C7 as stated fails for an eccentricity above the stationary radius.
    With [e = 10], 4 pins, ring diameter 20 (stationary radius 2.5), pin
    diameter 5 and [phi = 0] the normal at [t = 0] points away from the
    disk centre [(10, 0)]: the first sample of [cycloid_disk] is
    [(12.5, 0)] at tolerance 0 and [(13.5, 0)] at tolerance 1, further
    from the centre, so the outline grows there. *)
Lemma tolerance_offset_counterexample :
  r_s 4 20 < 10
  /\ exists c0 c1,
       cycloid_disk 10 4 20 5 0 0 = Ok [c0]
       /\ cycloid_disk 10 4 20 5 0 1 = Ok [c1]
       /\ hd (fin 0, fin 0, fin 0) c0 = finite_row (25 / 2, 0)
       /\ hd (fin 0, fin 0, fin 0) c1 = finite_row (27 / 2, 0)
       /\ dist2 (25 / 2, 0) (ecc_vector 10 0)
          < dist2 (27 / 2, 0) (ecc_vector 10 0).
Proof.
  split; [unfold r_s, lobes; simpl; lra |].
  unfold cycloid_disk.
  rewrite !cycloid_disk_with_ok by (unfold lobes; lia || lra).
  do 2 eexists. split; [reflexivity |]. split; [reflexivity |].
  destruct (grid_first_last 0 (2 * PI) (1500 * lobes 4)) as [mid ->];
    [unfold lobes; lia |].
  cbn [map hd].
  rewrite !disk_sample_outline
    by (rewrite (proj1 (undercut_outline_start 0)); lra).
  rewrite (proj2 (undercut_outline_start 0)),
    (proj2 (undercut_outline_start 1)).
  split; [do 2 f_equal; lra |]. split; [do 2 f_equal; lra |].
  unfold dist2, ecc_vector. cbn [fst snd]. rewrite cos_0, sin_0. lra.
Qed.

(** ** The merged housing outline *)

Lemma py_min_Rmin (a b : R) : py_min a b = Rmin a b.
Proof.
  unfold py_min, Rmin.
  destruct (Rlt_dec b a), (Rle_dec a b); try reflexivity; lra.
Qed.

Lemma py_round_IZR (z : Z) : py_round (IZR z) = z.
Proof.
  unfold py_round. rewrite ZfloorZ.
  destruct (Rlt_dec (IZR z - IZR z) (1 / 2)); [reflexivity | lra].
Qed.

(** [round] moves its argument by at most one half. *)
Lemma py_round_nearest (x : R) : Rabs (x - IZR (py_round x)) <= 1 / 2.
Proof.
  unfold py_round. generalize (Zfloor_bound x). intros [H1 H2].
  destruct (Rlt_dec (x - IZR (Zfloor x)) (1 / 2)) as [Hlt | Hge].
  - apply Rabs_le. lra.
  - assert (Hup : Rabs (x - IZR (Zfloor x + 1)) <= 1 / 2).
    { rewrite plus_IZR. apply Rabs_le. lra. }
    destruct (Rlt_dec (1 / 2) (x - IZR (Zfloor x))) as [Hgt | Hle];
      [exact Hup |].
    destruct (Z.even (Zfloor x)); [| exact Hup].
    apply Rabs_le. lra.
Qed.

(** The roots of the ray-circle quadratic. *)
Lemma ray_hits_quadratic (c : R * R) (rp theta lam : R) :
  ray_hits c rp theta lam
  <-> (lam - (fst c * cos theta + snd c * sin theta)) ^ 2
      = (fst c * cos theta + snd c * sin theta) ^ 2
        - (fst c ^ 2 + snd c ^ 2 - rp ^ 2).
Proof.
  unfold ray_hits, dist2. cbn [fst snd].
  generalize (sin2_cos2_pow theta). intros H.
  assert (E : (lam * cos theta - fst c) ^ 2 + (lam * sin theta - snd c) ^ 2
              = lam ^ 2 * (sin theta ^ 2 + cos theta ^ 2)
                - 2 * lam * (fst c * cos theta + snd c * sin theta)
                + (fst c ^ 2 + snd c ^ 2)) by ring.
  rewrite E, H. split; intros H0; lra.
Qed.

Section Housing.

(** A ring of [N] pins of radius [rp] on the circle of radius [Rring]. *)
Variables (N : Z) (Rring rp : R).
Hypothesis HN : IZR N <> 0.

Lemma nearest_pin_at_pin (j : Z) : nearest_pin N (pin_angle N j) = j.
Proof.
  unfold nearest_pin, pin_angle.
  replace (2 * PI * IZR j / IZR N / (2 * PI / IZR N)) with (IZR j).
  - apply py_round_IZR.
  - field. split; [exact HN | apply PI_neq0].
Qed.

(** The wall radius of the code is the blended wall radius. *)
Lemma r_housing_wall (theta : R) :
  r_housing N Rring (rp * 0.8) (rp * 0.8 + rp * 0.8) theta
  = housingWallRadius N Rring rp theta.
Proof.
  unfold r_housing, housingWallRadius, pocketDepth, clearance. field.
Qed.

(** The ray casting of the code is the nearest-pin intersection. *)
Lemma r_pin_intersection (theta : R) :
  r_pin N Rring rp theta = Ok (pinIntersectionRadius N Rring rp theta).
Proof.
  unfold r_pin, pinIntersectionRadius.
  py_ok HN. fold (nearest_pin N theta).
  unfold placement. cbn [fst snd].
  replace (IZR (nearest_pin N theta) * (2 * PI / IZR N))
    with (2 * PI * IZR (nearest_pin N theta) / IZR N) by (field; exact HN).
  reflexivity.
Qed.

Lemma final_r_merged (theta : R) :
  final_r N Rring rp (rp * 0.8) (rp * 0.8 + rp * 0.8) theta
  = Ok (Rmin (housingWallRadius N Rring rp theta)
             (pinIntersectionRadius N Rring rp theta)).
Proof.
  unfold final_r. rewrite r_pin_intersection. cbn [bind].
  now rewrite py_min_Rmin, r_housing_wall.
Qed.

Lemma wall_at_pin (j : Z) :
  housingWallRadius N Rring rp (pin_angle N j) = Rring - pocketDepth rp.
Proof.
  unfold housingWallRadius, pin_angle.
  replace (IZR N * (2 * PI * IZR j / IZR N)) with (IZR j * (2 * PI))
    by (field; exact HN).
  rewrite cos_Z_2PI. field.
Qed.

Lemma wall_between_pins (j : Z) :
  housingWallRadius N Rring rp (pin_angle N j + PI / IZR N)
  = Rring - pocketDepth rp + (pocketDepth rp + clearance rp).
Proof.
  unfold housingWallRadius, pin_angle.
  replace (IZR N * (2 * PI * IZR j / IZR N + PI / IZR N))
    with (PI + 2 * IZR j * PI) by (field; exact HN).
  rewrite cos_Z_turns, cos_PI. field.
Qed.

Lemma wall_bounds (theta : R) :
  0 <= rp ->
  Rring - pocketDepth rp <= housingWallRadius N Rring rp theta
  <= Rring - pocketDepth rp + (pocketDepth rp + clearance rp).
Proof.
  intros Hrp. unfold housingWallRadius, pocketDepth, clearance.
  generalize (COS_bound (IZR N * theta)). intros [H1 H2]. split; nra.
Qed.

(** When the code finds an intersection it is the nearest point of the
    ray on the circle of the nearest pin. *)
Lemma pin_intersection_nearest (theta : R) :
  pinIntersectionRadius N Rring rp theta = 1e9
  \/ (0 < pinIntersectionRadius N Rring rp theta
      /\ ray_hits (placement N Rring (nearest_pin N theta)) rp theta
           (pinIntersectionRadius N Rring rp theta)
      /\ forall lam,
           ray_hits (placement N Rring (nearest_pin N theta)) rp theta lam ->
           pinIntersectionRadius N Rring rp theta <= lam).
Proof.
  unfold pinIntersectionRadius.
  set (c := placement N Rring (nearest_pin N theta)).
  set (proj := fst c * cos theta + snd c * sin theta).
  set (disc := proj ^ 2 - (fst c ^ 2 + snd c ^ 2 - rp ^ 2)).
  destruct (Rle_dec 0 disc) as [Hd | Hd]; [| now left].
  destruct (Rlt_dec 0 (proj - sqrt disc)) as [H1 | H1]; [| now left].
  right. split; [exact H1 |].
  assert (Hsq : sqrt disc ^ 2 = disc) by (apply pow2_sqrt; exact Hd).
  generalize (sqrt_pos disc). intros Hs0.
  split.
  - apply ray_hits_quadratic.
    change ((proj - sqrt disc - proj) ^ 2 = disc).
    rewrite <- Hsq at 2. ring.
  - intros lam Hl. apply ray_hits_quadratic in Hl.
    change ((lam - proj) ^ 2 = disc) in Hl.
    destruct (Rle_dec (proj - sqrt disc) lam) as [? | Hn]; [assumption |].
    exfalso. nra.
Qed.

(** On the centre angle of pin [j] the projection of the pin centre on
    the ray is [Rring] and the discriminant is [rp ^ 2], so the near
    root is [Rring - rp] for a pin radius that is not negative. *)
Lemma pin_intersection_on_centre (j : Z) :
  0 <= rp ->
  pinIntersectionRadius N Rring rp (pin_angle N j)
  = if Rlt_dec 0 (Rring - rp) then Rring - rp else 1e9.
Proof.
  intros Hrp. unfold pinIntersectionRadius.
  rewrite nearest_pin_at_pin. unfold placement. cbn [fst snd].
  fold (pin_angle N j). set (a := pin_angle N j).
  generalize (sin2_cos2_pow a). intros H.
  assert (Hproj : Rring * cos a * cos a + Rring * sin a * sin a = Rring).
  { replace (Rring * cos a * cos a + Rring * sin a * sin a)
      with (Rring * (sin a ^ 2 + cos a ^ 2)) by ring.
    rewrite H. ring. }
  rewrite Hproj.
  assert (Hdisc : Rring ^ 2
                  - ((Rring * cos a) ^ 2 + (Rring * sin a) ^ 2 - rp ^ 2)
                  = rp ^ 2).
  { replace ((Rring * cos a) ^ 2 + (Rring * sin a) ^ 2)
      with (Rring ^ 2 * (sin a ^ 2 + cos a ^ 2)) by ring.
    rewrite H. ring. }
  rewrite Hdisc, (sqrt_pow2 rp Hrp).
  destruct (Rle_dec 0 (rp ^ 2)) as [_ | Hn]; [reflexivity |].
  exfalso. apply Hn, pow2_ge_0.
Qed.

(** On a pin centre the ray meets the near edge of the pin. *)
Lemma pin_intersection_at_pin (j : Z) :
  0 <= rp < Rring ->
  pinIntersectionRadius N Rring rp (pin_angle N j) = Rring - rp.
Proof.
  intros [Hrp HR]. rewrite pin_intersection_on_centre by exact Hrp.
  destruct (Rlt_dec 0 (Rring - rp)); [reflexivity | lra].
Qed.

(** With a pin at least as wide as the ring, the guard [d1 > 0] leaves
    the "no intersection" value. *)
Lemma pin_intersection_at_wide_pin (j : Z) :
  0 <= Rring <= rp ->
  pinIntersectionRadius N Rring rp (pin_angle N j) = 1e9.
Proof.
  intros [HR Hrp]. rewrite pin_intersection_on_centre by lra.
  destruct (Rlt_dec 0 (Rring - rp)); [lra | reflexivity].
Qed.

End Housing.

(** The chosen pin is within half a pin-angle step of the ray. *)
Lemma nearest_pin_within_half_step (N : Z) (theta : R) :
  (1 <= N)%Z ->
  Rabs (theta - pin_angle N (nearest_pin N theta)) <= PI / IZR N.
Proof.
  intros HN. assert (HN0 : 0 < IZR N) by (apply IZR_lt; lia).
  generalize PI_RGT_0. intros Hpi.
  assert (Hstep : 0 < 2 * PI / IZR N).
  { apply Rdiv_lt_0_compat; lra. }
  unfold nearest_pin, pin_angle.
  set (x := theta / (2 * PI / IZR N)).
  generalize (py_round_nearest x). intros Hr.
  replace (theta - 2 * PI * IZR (py_round x) / IZR N)
    with ((x - IZR (py_round x)) * (2 * PI / IZR N))
    by (unfold x; field; lra).
  rewrite Rabs_mult, (Rabs_pos_eq (2 * PI / IZR N)) by lra.
  replace (PI / IZR N) with (1 / 2 * (2 * PI / IZR N)) by (field; lra).
  apply Rmult_le_compat_r; lra.
Qed.

Lemma housing_angles_ok (N : Z) :
  (1 <= N)%Z -> housing_angles N = Ok (housing_sample_angles N).
Proof.
  intros HN. unfold housing_angles, housing_sample_angles.
  rewrite linspace_open by lia. f_equal. apply map_ext. intros i.
  field. apply not_0_IZR. lia.
Qed.

Lemma housing_sample_at_pin (N j : Z) (dflt : R) :
  (0 <= j < N)%Z ->
  nth (Z.to_nat (30 * j)) (housing_sample_angles N) dflt = pin_angle N j.
Proof.
  intros Hj. unfold housing_sample_angles, pin_angle.
  rewrite nth_map_range by lia.
  rewrite Z2Nat.id, !mult_IZR by lia. field. apply not_0_IZR. lia.
Qed.

Lemma housing_sample_between_pins (N j : Z) (dflt : R) :
  (0 <= j < N)%Z ->
  nth (Z.to_nat (30 * j + 15)) (housing_sample_angles N) dflt
  = pin_angle N j + PI / IZR N.
Proof.
  intros Hj. unfold housing_sample_angles, pin_angle.
  rewrite nth_map_range by lia.
  rewrite Z2Nat.id, mult_IZR, plus_IZR, mult_IZR by lia.
  field. apply not_0_IZR. lia.
Qed.

Lemma dxf_outer_ring_ok (N : Z) (Rring pin_d ring_w : R) :
  (1 <= N)%Z ->
  dxf_outer_ring N Rring pin_d ring_w
  = Ok [ LWPolyline
           (map (fun theta =>
                   (mergedRadius N Rring (pin_d / 2) theta * cos theta,
                    mergedRadius N Rring (pin_d / 2) theta * sin theta))
                (housing_sample_angles N))
           true "OUTER_RING";
         Circle (0, 0) (Rring + ring_w) "OUTER_RING" ].
Proof.
  intros HN. assert (HN0 : IZR N <> 0) by (apply not_0_IZR; lia).
  unfold dxf_outer_ring. rewrite housing_angles_ok by exact HN. cbn [bind].
  rewrite mapM_ok with
    (g := fun theta =>
            (mergedRadius N Rring (pin_d / 2) theta * cos theta,
             mergedRadius N Rring (pin_d / 2) theta * sin theta)).
  - reflexivity.
  - intros theta _. rewrite final_r_merged by exact HN0. reflexivity.
Qed.

(** C2, amended.  With at least three external pins, the housing section
    of the DXF export writes one closed polyline through the points of
    radius [min (housingWallRadius, pinIntersectionRadius)] at each of the
    [30 N] sample angles, and the outer circle.  The radius computed at
    any angle is that minimum.  The pin-intersection radius is either the
    value [1e9] the code keeps when it finds no positive near root, or the
    nearest point of the ray on the circle of the pin chosen by rounding
    the angle to the pin-angle step, a pin whose angle is within half a
    step of the ray.  Sample [30 j] is the angle of pin
    [j], where the wall radius is [ringRadius - pocketDepth]; sample
    [30 j + 15] is half-way to the next pin, where it is
    [ringRadius - pocketDepth + (pocketDepth + clearance)], with
    [pocketDepth = clearance = 0.8 pinRadius].  On a pin centre the
    pin-intersection radius is [ringRadius - pinRadius] provided
    [0 <= pinRadius < ringRadius]; for [0 <= ringRadius <= pinRadius] it
    is [1e9]. *)
Theorem housing_merged_silhouette (N : Z) (ring_d pin_d ring_w : R) :
  (3 <= N)%Z ->
  dxf_outer_ring N (ring_d / 2) pin_d ring_w
  = Ok [ LWPolyline
           (map (fun theta =>
                   (mergedRadius N (ring_d / 2) (pin_d / 2) theta * cos theta,
                    mergedRadius N (ring_d / 2) (pin_d / 2) theta * sin theta))
                (housing_sample_angles N))
           true "OUTER_RING";
         Circle (0, 0) (ring_d / 2 + ring_w) "OUTER_RING" ]
  /\ (forall theta,
        final_r N (ring_d / 2) (pin_d / 2) (pin_d / 2 * 0.8)
          (pin_d / 2 * 0.8 + pin_d / 2 * 0.8) theta
        = Ok (Rmin (housingWallRadius N (ring_d / 2) (pin_d / 2) theta)
                   (pinIntersectionRadius N (ring_d / 2) (pin_d / 2) theta)))
  /\ (forall theta,
        pinIntersectionRadius N (ring_d / 2) (pin_d / 2) theta = 1e9
        \/ (0 < pinIntersectionRadius N (ring_d / 2) (pin_d / 2) theta
            /\ ray_hits (placement N (ring_d / 2) (nearest_pin N theta))
                 (pin_d / 2) theta
                 (pinIntersectionRadius N (ring_d / 2) (pin_d / 2) theta)
            /\ forall lam,
                 ray_hits (placement N (ring_d / 2) (nearest_pin N theta))
                   (pin_d / 2) theta lam ->
                 pinIntersectionRadius N (ring_d / 2) (pin_d / 2) theta
                 <= lam))
  /\ (forall theta,
        Rabs (theta - pin_angle N (nearest_pin N theta)) <= PI / IZR N)
  /\ (forall j : Z, (0 <= j < N)%Z ->
        nth (Z.to_nat (30 * j)) (housing_sample_angles N) 0 = pin_angle N j
        /\ nth (Z.to_nat (30 * j + 15)) (housing_sample_angles N) 0
           = pin_angle N j + PI / IZR N
        /\ housingWallRadius N (ring_d / 2) (pin_d / 2) (pin_angle N j)
           = ring_d / 2 - pocketDepth (pin_d / 2)
        /\ housingWallRadius N (ring_d / 2) (pin_d / 2)
             (pin_angle N j + PI / IZR N)
           = ring_d / 2 - pocketDepth (pin_d / 2)
             + (pocketDepth (pin_d / 2) + clearance (pin_d / 2))
        /\ (0 <= pin_d / 2 < ring_d / 2 ->
            pinIntersectionRadius N (ring_d / 2) (pin_d / 2) (pin_angle N j)
            = ring_d / 2 - pin_d / 2
            /\ mergedRadius N (ring_d / 2) (pin_d / 2) (pin_angle N j)
               = Rmin (ring_d / 2 - pocketDepth (pin_d / 2))
                      (ring_d / 2 - pin_d / 2))
        /\ (0 <= ring_d / 2 <= pin_d / 2 ->
            pinIntersectionRadius N (ring_d / 2) (pin_d / 2) (pin_angle N j)
            = 1e9)).
Proof.
  intros HN. assert (HN0 : IZR N <> 0) by (apply not_0_IZR; lia).
  split; [apply dxf_outer_ring_ok; lia |].
  split; [intros theta; now apply final_r_merged |].
  split; [intros theta; apply pin_intersection_nearest |].
  split; [intros theta; apply nearest_pin_within_half_step; lia |].
  intros j Hj.
  split; [now apply housing_sample_at_pin |].
  split; [now apply housing_sample_between_pins |].
  split; [now apply wall_at_pin |].
  split; [now apply wall_between_pins |].
  split.
  - intros Hrp. split; [now apply pin_intersection_at_pin |].
    unfold mergedRadius.
    now rewrite wall_at_pin, pin_intersection_at_pin.
  - intros Hrp. now apply pin_intersection_at_wide_pin.
Qed.

(** C2, amended, at 12 pins of diameter 5 on a ring of diameter 41, on
    the centre of pin 3. *)
Lemma housing_merged_silhouette_witness :
  pinIntersectionRadius 12 (41 / 2) (5 / 2) (pin_angle 12 3) = 41 / 2 - 5 / 2
  /\ housingWallRadius 12 (41 / 2) (5 / 2) (pin_angle 12 3)
     = 41 / 2 - pocketDepth (5 / 2).
Proof.
  destruct (housing_merged_silhouette 12 41 5 15) as [_ [_ [_ [_ H]]]];
    [lia |].
  destruct (H 3%Z) as [_ [_ [H1 [_ [H2 _]]]]]; [lia |].
  split; [apply H2; lra | exact H1].
Defined.

(** C2 as stated fails.  With 4 pins, ring diameter 20 and pin diameter
    25, the angle 0 is a sample angle and the centre angle of pin 0, and
    the ray casting returns [1e9] there, not
    [ringRadius - pinRadius = -2.5]. *)
Lemma housing_pin_centre_counterexample :
  (exists angles, housing_angles 4 = Ok angles /\ In 0 angles)
  /\ 0 = pin_angle 4 0
  /\ r_pin 4 (20 / 2) (25 / 2) 0 = Ok 1e9
  /\ 1e9 <> 20 / 2 - 25 / 2.
Proof.
  assert (H4 : IZR 4 <> 0) by lra.
  assert (Ha : pin_angle 4 0 = 0) by (unfold pin_angle; field).
  split; [| split; [| split]].
  - exists (housing_sample_angles 4).
    split; [apply housing_angles_ok; lia |].
    rewrite <- Ha, <- (housing_sample_at_pin 4 0 0) by lia.
    apply nth_In. unfold housing_sample_angles.
    rewrite length_map, range_length. lia.
  - now rewrite Ha.
  - rewrite r_pin_intersection by exact H4. f_equal.
    rewrite <- Ha. apply pin_intersection_at_wide_pin; [exact H4 | lra].
  - lra.
Qed.

(** ** The drawing written by the export *)

Lemma dxf_pin_centers_ok (N : Z) (Rring : R) :
  dxf_pin_centers N Rring
  = Ok (map (fun i => Point (placement N Rring i) "PIN_CENTERS") (range N)).
Proof.
  unfold dxf_pin_centers. apply mapM_ok. intros i Hi.
  py_ok (range_divisor _ _ Hi). reflexivity.
Qed.

Lemma dxf_output_pins_ok (No : Z) (Rd opd : R) :
  dxf_output_pins No Rd opd
  = Ok (map (fun i => Circle (placement No Rd i) (opd / 2) "OUTPUT_PINS")
            (range No)).
Proof.
  unfold dxf_output_pins. apply mapM_ok. intros i Hi.
  py_ok (range_divisor _ _ Hi). reflexivity.
Qed.

(** With [ezdxf] present, a writable path, at least two pins and a
    non-zero ring diameter the export succeeds and writes the entities of
    [dxf_entities], with the cam circle only for a positive shaft
    radius. *)
Lemma export_to_dxf_ok (filename : string) (p : params) (phi : R) (w : world) :
  ezdxf_installed w = true -> writable w filename = true ->
  (2 <= num_external_pins p)%Z -> ring_diameter p <> 0 ->
  export_to_dxf filename p phi w
  = Ok (true,
        saved {| layers := layers_config;
                 modelspace :=
                   dxf_entities p phi
                     (if Rlt_dec 0 (shaft_radius (eccentricity p)
                                      (camshaft_diameter p))
                      then [eccentric_cam_circle p phi] else []) |}
              filename w).
Proof.
  intros Hez Hwr HN HD. unfold export_to_dxf.
  rewrite Hez. cbn [negb].
  rewrite dxf_pin_centers_ok. cbn [bind].
  assert (Hring :
    (if show_outer_ring p
     then dxf_outer_ring (num_external_pins p) (ring_diameter p / 2)
            (pin_diameter p) (outer_ring_width p)
     else Ok [])
    = Ok (if show_outer_ring p
          then [ LWPolyline
                   (map (fun theta =>
                           (mergedRadius (num_external_pins p)
                              (ring_diameter p / 2) (pin_diameter p / 2) theta
                            * cos theta,
                            mergedRadius (num_external_pins p)
                              (ring_diameter p / 2) (pin_diameter p / 2) theta
                            * sin theta))
                        (housing_sample_angles (num_external_pins p)))
                   true "OUTER_RING";
                 Circle (0, 0) (ring_diameter p / 2 + outer_ring_width p)
                   "OUTER_RING" ]
          else [])).
  { destruct (show_outer_ring p); [| reflexivity].
    apply dxf_outer_ring_ok. lia. }
  rewrite Hring. cbn [bind].
  rewrite dxf_output_pins_ok. cbn [bind].
  rewrite dxf_output_holes_ok. cbn [bind].
  rewrite dxf_cycloid_disk_ok by assumption. cbn [bind].
  unfold saveas. rewrite Hwr. cbn [bind].
  unfold dxf_entities, dxf_camshaft, eccentric_cam_circle, shaft_radius,
    ecc_vector, translate, placement.
  cbn [fst snd].
  destruct (Rlt_dec 0 ((camshaft_diameter p - 2 * eccentricity p) / 2));
    reflexivity.
Qed.

Lemma dxf_entities_without_cam (p : params) (phi : R) :
  Forall (fun en => entity_layer en <> "ECCENTRIC_CAM"%string)
         (dxf_entities p phi []).
Proof.
  unfold dxf_entities.
  repeat (apply Forall_app; split);
    try (apply Forall_forall; intros en Hen; apply in_map_iff in Hen;
         destruct Hen as [i [<- _]]; cbn [entity_layer]; discriminate).
  - repeat constructor. cbn [entity_layer]. discriminate.
  - destruct (show_outer_ring p); repeat constructor;
      cbn [entity_layer]; discriminate.
  - repeat constructor. cbn [entity_layer]. discriminate.
  - constructor.
  - repeat constructor. cbn [entity_layer]. discriminate.
Qed.

(** C10.  With [ezdxf] importable, a writable path, at least three
    external pins and a non-zero ring diameter, a parameter set with
    [(camshaftDiameter - 2 e)/2 <= 0] makes [export_to_dxf] return [True]
    without raising.  The saved drawing has the eight layers and holds
    every entity of the other sections, and no entity at all on layer
    ECCENTRIC_CAM. *)
Theorem export_to_dxf_omits_cam
    (filename : string) (p : params) (phi : R) (w : world) :
  ezdxf_installed w = true -> writable w filename = true ->
  (3 <= num_external_pins p)%Z -> ring_diameter p <> 0 ->
  (camshaft_diameter p - 2 * eccentricity p) / 2 <= 0 ->
  exists doc,
    export_to_dxf filename p phi w = Ok (true, saved doc filename w)
    /\ files (saved doc filename w) filename = Some doc
    /\ layers doc = layers_config
    /\ modelspace doc = dxf_entities p phi []
    /\ Forall (fun en => entity_layer en <> "ECCENTRIC_CAM"%string)
              (modelspace doc).
Proof.
  intros Hez Hwr HN HD Hcam.
  rewrite export_to_dxf_ok by (assumption || lia).
  unfold shaft_radius.
  destruct (Rlt_dec 0 ((camshaft_diameter p - 2 * eccentricity p) / 2));
    [lra |].
  eexists. split; [reflexivity |].
  split; [cbn [files saved]; now rewrite String.eqb_refl |].
  split; [reflexivity |]. split; [reflexivity |].
  apply dxf_entities_without_cam.
Qed.

(** C10 at the parameters of [oversized_eccentricity]. *)
Lemma export_to_dxf_omits_cam_witness :
  exists doc,
    export_to_dxf "gearbox.dxf" oversized_eccentricity 0 ready_world
    = Ok (true, saved doc "gearbox.dxf" ready_world)
    /\ modelspace doc = dxf_entities oversized_eccentricity 0 [].
Proof.
  destruct (export_to_dxf_omits_cam "gearbox.dxf" oversized_eccentricity 0
              ready_world) as [doc [H1 [_ [_ [H2 _]]]]].
  - reflexivity.
  - reflexivity.
  - simpl. lia.
  - simpl. lra.
  - simpl. lra.
  - exists doc. split; assumption.
Defined.

(** ** The camshaft bore and the eccentric shaft *)

Lemma eccentric_camshaft_ok (e cam_d phi : R) :
  eccentric_camshaft e cam_d phi
  = Ok (map (fun t => row (translate (ecc_vector e phi)
                             (shaft_radius e cam_d * cos t,
                              shaft_radius e cam_d * sin t)))
            (grid 0 (2 * PI) 200)).
Proof.
  unfold eccentric_camshaft. rewrite linspace_200. reflexivity.
Qed.

(** C4, amended.  For [eccentricity >= camshaftDiameter/2] the shaft radius
    [(camshaftDiameter - 2 e)/2] is not positive, and nothing is flagged:
    [eccentric_camshaft] returns the 200 samples of the circle of that
    radius about [(e cos phi, e sin phi)], and [export_to_dxf] returns
    [True] whenever [ezdxf] is importable, the path writable, there are
    at least three external pins and the ring diameter is not zero. *)
Theorem nonpositive_shaft_radius_not_flagged
    (filename : string) (p : params) (phi : R) (w : world) :
  camshaft_diameter p / 2 <= eccentricity p ->
  shaft_radius (eccentricity p) (camshaft_diameter p) <= 0
  /\ (exists c,
        eccentric_camshaft (eccentricity p) (camshaft_diameter p) phi = Ok c
        /\ length c = 200%nat
        /\ curve_on_circle (ecc_vector (eccentricity p) phi)
             (shaft_radius (eccentricity p) (camshaft_diameter p)) c)
  /\ (ezdxf_installed w = true -> writable w filename = true ->
      (3 <= num_external_pins p)%Z -> ring_diameter p <> 0 ->
      exists w', export_to_dxf filename p phi w = Ok (true, w')).
Proof.
  intros Hcam. split; [unfold shaft_radius; lra |]. split.
  - rewrite eccentric_camshaft_ok. eexists. split; [reflexivity |].
    split; [now rewrite length_map, grid_length |].
    intros pt Hpt. apply in_map_iff in Hpt. destruct Hpt as [t [<- _]].
    apply circle_point.
  - intros Hez Hwr HN HD.
    rewrite export_to_dxf_ok by (assumption || lia).
    eexists. reflexivity.
Qed.

(** C4, amended, at the parameters of [oversized_eccentricity]. *)
Lemma nonpositive_shaft_radius_not_flagged_witness :
  shaft_radius 10 10 <= 0
  /\ exists c, eccentric_camshaft 10 10 0 = Ok c /\ length c = 200%nat.
Proof.
  destruct (nonpositive_shaft_radius_not_flagged "gearbox.dxf"
              oversized_eccentricity 0 ready_world) as [H1 [[c [H2 [H3 _]]] _]].
  - simpl. lra.
  - split; [exact H1 |]. exists c. split; assumption.
Defined.

(** C4 as stated fails.  With eccentricity 10 and camshaft diameter 10
    neither [eccentric_camshaft] nor [export_to_dxf] raises. *)
Lemma nonpositive_shaft_radius_counterexample :
  camshaft_diameter oversized_eccentricity / 2
  <= eccentricity oversized_eccentricity
  /\ ~ raises (eccentric_camshaft (eccentricity oversized_eccentricity)
                 (camshaft_diameter oversized_eccentricity) 0)
  /\ ~ raises (export_to_dxf "gearbox.dxf" oversized_eccentricity 0
                 ready_world).
Proof.
  split; [simpl; lra |]. split.
  - intros [ex Hex]. rewrite eccentric_camshaft_ok in Hex. discriminate.
  - intros [ex Hex]. rewrite export_to_dxf_ok in Hex;
      [discriminate | reflexivity | reflexivity | simpl; lia | simpl; lra].
Qed.

(** ** The displayed housing *)

(** The profiles of the displayed housing: the blended wall, closed by
    repeating its first point, and a circle. *)
Lemma outer_ring_ok (n : Z) (ring_d pin_d ring_w tol : R) :
  (1 <= n)%Z ->
  let wall_point := fun i : Z =>
    let a := 2 * PI * IZR i / IZR (100 * n) in
    row (housingWallRadius n (ring_d / 2) (pin_d / 2) a * cos a,
         housingWallRadius n (ring_d / 2) (pin_d / 2) a * sin a) in
  outer_ring n ring_d pin_d ring_w tol
  = Ok (map wall_point (range (100 * n)) ++ [wall_point 0%Z],
        map (fun a => row ((ring_d / 2 + ring_w) * cos a,
                           (ring_d / 2 + ring_w) * sin a))
            (grid 0 (2 * PI) 200)).
Proof.
  intros Hn wall_point. unfold outer_ring.
  rewrite mapM_ok with (g := wall_point).
  - cbn [bind]. destruct (range_head (100 * n)) as [l ->]; [lia |].
    cbn [map first_item bind]. rewrite linspace_200. reflexivity.
  - intros i Hi. py_ok (range_divisor _ _ Hi).
    unfold wall_point, row, housingWallRadius, pocketDepth, clearance.
    cbn [fst snd]. cbv zeta. apply f_equal.
    apply f_equal2; [apply f_equal2 |]; [| | reflexivity];
      apply f_equal2; try reflexivity; field.
Qed.

(** C9.  The result of [outer_ring], both profiles or the exception, is
    the same for any two tolerances: the argument is never read. *)
Theorem outer_ring_ignores_tolerance
    (num_pins : Z) (ring_diameter pin_diameter ring_width t1 t2 : R) :
  outer_ring num_pins ring_diameter pin_diameter ring_width t1
  = outer_ring num_pins ring_diameter pin_diameter ring_width t2.
Proof. reflexivity. Qed.

(** * Further properties of the code *)

(** ** How the disk generator ends *)

Lemma linspace_negative (start stop : R) (num : Z) (endpoint : bool) :
  (num < 0)%Z -> linspace start stop num endpoint = Raise ValueError.
Proof.
  intros H. unfold linspace. destruct (Z.ltb_spec num 0); [reflexivity | lia].
Qed.

Lemma linspace_zero (start stop : R) (endpoint : bool) :
  linspace start stop 0 endpoint = Ok [].
Proof. unfold linspace. destruct endpoint; reflexivity. Qed.

Lemma py_div_cases (a b : R) :
  py_div a b = Ok (a / b) \/ py_div a b = Raise ZeroDivisionError.
Proof. unfold py_div. destruct (Req_dec_T b 0); [now right | now left]. Qed.

(** How the disk generator ends, for every argument. *)
Lemma cycloid_disk_with_outcome (ppl : Z) (e : R) (N : Z) (D d phi tol : R) :
  (2 <= ppl)%Z ->
  cycloid_disk_with ppl e N D d phi tol
  = if (N <? 0)%Z then Raise ValueError
    else if (N <? 2)%Z then Raise ZeroDivisionError
    else if Req_dec_T D 0 then Raise ZeroDivisionError
    else Ok [ map (disk_sample e N D d tol phi)
                  (grid 0 (2 * PI) (ppl * lobes N)) ].
Proof.
  intros Hppl. destruct (Z.ltb_spec N 0) as [Hneg | Hpos].
  - unfold cycloid_disk_with.
    replace (N - 1 + 1)%Z with N by lia.
    assert (HN0 : IZR N <> 0) by (apply not_0_IZR; lia).
    py_ok HN0. py_ok HN0. rewrite linspace_negative by nia. reflexivity.
  - destruct (Z.ltb_spec N 2) as [Hsmall | Hbig].
    + unfold cycloid_disk_with.
      assert (HN : N = 0%Z \/ N = 1%Z) by lia. destruct HN as [-> | ->].
      * change (IZR (0 - 1 + 1)) with 0. rewrite py_div_zero. reflexivity.
      * change (IZR (1 - 1 + 1)) with 1. change (IZR (1 - 1)) with 0.
        replace (ppl * (1 - 1))%Z with 0%Z by lia.
        assert (H1 : (1 : R) <> 0) by lra.
        py_ok H1. py_ok H1. rewrite linspace_zero. cbn [bind].
        destruct (py_div_cases (0 / 1 * (D / 2) + D / 2 / 1) (D / 2 / 1))
          as [-> | ->]; [| reflexivity].
        cbn [bind].
        destruct (py_div_cases e (D / 2 / 1)) as [-> | ->]; [| reflexivity].
        cbn [bind]. rewrite py_div_zero. reflexivity.
    + destruct (Req_dec_T D 0) as [HD | HD].
      * unfold cycloid_disk_with.
        replace (N - 1 + 1)%Z with N by lia.
        assert (HN0 : IZR N <> 0) by (apply not_0_IZR; lia).
        py_ok HN0. py_ok HN0.
        rewrite linspace_endpoint by nia. cbn [bind].
        replace (D / 2 / IZR N) with 0 by (subst D; field; exact HN0).
        rewrite py_div_zero. reflexivity.
      * apply cycloid_disk_with_ok; try assumption.
        unfold lobes. nia.
Qed.

(** X1.  How the displayed disk generator ends, for every argument: a
    negative pin count is refused by [linspace], zero or one pin and a
    zero ring diameter divide by zero, and every other argument gives one
    curve of 1500 samples per lobe. *)
Theorem cycloid_disk_outcome (e : R) (N : Z) (D d phi tol : R) :
  cycloid_disk e N D d phi tol
  = if (N <? 0)%Z then Raise ValueError
    else if (N <? 2)%Z then Raise ZeroDivisionError
    else if Req_dec_T D 0 then Raise ZeroDivisionError
    else Ok [ map (disk_sample e N D d tol phi)
                  (grid 0 (2 * PI) (1500 * lobes N)) ].
Proof. unfold cycloid_disk. apply cycloid_disk_with_outcome. lia. Qed.

(** ** How the DXF export ends *)

Lemma range_nonpositive (n : Z) : (n <= 0)%Z -> range n = [].
Proof.
  intros H. unfold range. replace (Z.to_nat n) with 0%nat by lia. reflexivity.
Qed.

(** The housing section raises only for a negative pin count. *)
Lemma dxf_outer_ring_outcome (N : Z) (Rring pin_d ring_w : R) :
  (N < 0)%Z /\ dxf_outer_ring N Rring pin_d ring_w = Raise ValueError
  \/ (0 <= N)%Z /\ exists l, dxf_outer_ring N Rring pin_d ring_w = Ok l.
Proof.
  destruct (Z_lt_le_dec N 0) as [Hneg | Hpos]; [left | right]; split;
    try assumption.
  - unfold dxf_outer_ring, housing_angles.
    rewrite linspace_negative by lia. reflexivity.
  - destruct (Z.eq_dec N 0) as [-> | Hnz].
    + unfold dxf_outer_ring, housing_angles.
      change (0 * 30)%Z with 0%Z. rewrite linspace_zero. cbn [bind mapM].
      eexists. reflexivity.
    + rewrite dxf_outer_ring_ok by lia. eexists. reflexivity.
Qed.

(** The disk section of the export for fewer than two pins or a zero ring
    diameter. *)
Lemma dxf_cycloid_disk_fails (N : Z) (D e d tol phi cx cy : R) :
  dxf_cycloid_disk N (D / 2) e d tol phi cx cy
  = if (N <=? 0)%Z then Raise ValueError
    else if (N =? 1)%Z then Raise ZeroDivisionError
    else if Req_dec_T D 0 then Raise ZeroDivisionError
    else dxf_cycloid_disk N (D / 2) e d tol phi cx cy.
Proof.
  destruct (Z.leb_spec N 0) as [Hneg | Hpos].
  - unfold dxf_cycloid_disk. rewrite linspace_negative by lia. reflexivity.
  - destruct (Z.eqb_spec N 1) as [-> | Hne].
    + unfold dxf_cycloid_disk.
      change (60 * (1 - 1))%Z with 0%Z. rewrite linspace_zero. cbn [bind].
      change (IZR (1 - 1 + 1)) with 1. change (IZR (1 - 1)) with 0.
      assert (H1 : (1 : R) <> 0) by lra. py_ok H1. py_ok H1.
      destruct (py_div_cases (0 / 1 * (D / 2) + D / 2 / 1) (D / 2 / 1))
        as [-> | ->]; [| reflexivity].
      cbn [bind].
      destruct (py_div_cases e (D / 2 / 1)) as [-> | ->]; [| reflexivity].
      cbn [bind]. rewrite py_div_zero. reflexivity.
    + destruct (Req_dec_T D 0) as [HD | HD]; [| reflexivity].
      unfold dxf_cycloid_disk.
      rewrite linspace_endpoint by lia. cbn [bind].
      replace (N - 1 + 1)%Z with N by lia.
      assert (HN0 : IZR N <> 0) by (apply not_0_IZR; lia).
      py_ok HN0. py_ok HN0.
      replace (D / 2 / IZR N) with 0 by (subst D; field; exact HN0).
      rewrite py_div_zero. reflexivity.
Qed.

(** All entities are computed before the file is written: a path that
    cannot be written raises [OSError] at the end. *)
Lemma export_to_dxf_unwritable
    (filename : string) (p : params) (phi : R) (w : world) :
  ezdxf_installed w = true -> writable w filename = false ->
  (2 <= num_external_pins p)%Z -> ring_diameter p <> 0 ->
  export_to_dxf filename p phi w = Raise OSError.
Proof.
  intros Hez Hwr HN HD. unfold export_to_dxf. rewrite Hez. cbn [negb].
  rewrite dxf_pin_centers_ok. cbn [bind].
  destruct (show_outer_ring p).
  - rewrite dxf_outer_ring_ok by lia. cbn [bind].
    rewrite dxf_output_pins_ok. cbn [bind].
    rewrite dxf_output_holes_ok. cbn [bind].
    rewrite dxf_cycloid_disk_ok by (lia || assumption). cbn [bind].
    unfold saveas. rewrite Hwr. reflexivity.
  - cbn [bind]. rewrite dxf_output_pins_ok. cbn [bind].
    rewrite dxf_output_holes_ok. cbn [bind].
    rewrite dxf_cycloid_disk_ok by (lia || assumption). cbn [bind].
    unfold saveas. rewrite Hwr. reflexivity.
Qed.

(** X2.  How the DXF export ends, for every argument: without [ezdxf] it
    raises [ImportError] before anything else; a pin count of zero or
    less is refused by [linspace], one pin and a zero ring diameter divide
    by zero in the disk section; a path that cannot be written raises
    [OSError] after all entities were computed; otherwise the drawing of
    [dxf_entities] is saved and [True] returned. *)
Theorem export_to_dxf_outcome
    (filename : string) (p : params) (phi : R) (w : world) :
  export_to_dxf filename p phi w
  = if negb (ezdxf_installed w) then Raise ImportError
    else if (num_external_pins p <=? 0)%Z then Raise ValueError
    else if (num_external_pins p =? 1)%Z then Raise ZeroDivisionError
    else if Req_dec_T (ring_diameter p) 0 then Raise ZeroDivisionError
    else if negb (writable w filename) then Raise OSError
    else Ok (true,
             saved {| layers := layers_config;
                      modelspace :=
                        dxf_entities p phi
                          (if Rlt_dec 0 (shaft_radius (eccentricity p)
                                           (camshaft_diameter p))
                           then [eccentric_cam_circle p phi] else []) |}
                   filename w).
Proof.
  destruct (ezdxf_installed w) eqn:Hez; cbn [negb];
    [| unfold export_to_dxf; rewrite Hez; reflexivity].
  assert (Hfail : forall ex,
    dxf_cycloid_disk (num_external_pins p) (ring_diameter p / 2)
      (eccentricity p) (pin_diameter p) (tolerance p) phi
      (eccentricity p * cos phi) (eccentricity p * sin phi) = Raise ex ->
    (0 < num_external_pins p)%Z ->
    export_to_dxf filename p phi w = Raise ex).
  { intros ex Hex Hpos. unfold export_to_dxf. rewrite Hez. cbn [negb].
    rewrite dxf_pin_centers_ok. cbn [bind].
    destruct (show_outer_ring p).
    - destruct (dxf_outer_ring_outcome (num_external_pins p)
                  (ring_diameter p / 2) (pin_diameter p) (outer_ring_width p))
        as [[Hneg _] | [_ [l ->]]]; [lia |].
      cbn [bind]. rewrite dxf_output_pins_ok. cbn [bind].
      rewrite dxf_output_holes_ok. cbn [bind]. rewrite Hex. reflexivity.
    - cbn [bind]. rewrite dxf_output_pins_ok. cbn [bind].
      rewrite dxf_output_holes_ok. cbn [bind]. rewrite Hex. reflexivity. }
  generalize (dxf_cycloid_disk_fails (num_external_pins p) (ring_diameter p)
                (eccentricity p) (pin_diameter p) (tolerance p) phi
                (eccentricity p * cos phi) (eccentricity p * sin phi)).
  intros Hdisk.
  destruct (Z.leb_spec (num_external_pins p) 0) as [Hneg | Hpos].
  - unfold export_to_dxf. rewrite Hez. cbn [negb].
    rewrite dxf_pin_centers_ok. cbn [bind].
    destruct (show_outer_ring p).
    + destruct (dxf_outer_ring_outcome (num_external_pins p)
                  (ring_diameter p / 2) (pin_diameter p) (outer_ring_width p))
        as [[_ ->] | [_ [l ->]]]; [reflexivity |].
      cbn [bind]. rewrite dxf_output_pins_ok. cbn [bind].
      rewrite dxf_output_holes_ok. cbn [bind]. rewrite Hdisk. reflexivity.
    + cbn [bind]. rewrite dxf_output_pins_ok. cbn [bind].
      rewrite dxf_output_holes_ok. cbn [bind]. rewrite Hdisk. reflexivity.
  - destruct (Z.eqb_spec (num_external_pins p) 1) as [H1 | H1];
      [now apply Hfail |].
    destruct (Req_dec_T (ring_diameter p) 0) as [HD | HD];
      [now apply Hfail |].
    destruct (writable w filename) eqn:Hwr; cbn [negb].
    + apply export_to_dxf_ok; try assumption. lia.
    + apply export_to_dxf_unwritable; try assumption. lia.
Qed.

(** ** The eccentric shaft inside its bore *)

(** Two vectors of lengths [ra] and [rb]: their sum and their difference
    are no longer than [ra + rb]. *)
Lemma sum_within (a1 a2 b1 b2 ra rb : R) :
  a1 ^ 2 + a2 ^ 2 = ra ^ 2 -> b1 ^ 2 + b2 ^ 2 = rb ^ 2 ->
  0 <= ra -> 0 <= rb ->
  (a1 + b1) ^ 2 + (a2 + b2) ^ 2 <= (ra + rb) ^ 2.
Proof.
  intros Ha Hb Hra Hrb.
  assert (Hcs : (a1 * b1 + a2 * b2) ^ 2 <= (ra * rb) ^ 2).
  { replace ((ra * rb) ^ 2) with ((a1 ^ 2 + a2 ^ 2) * (b1 ^ 2 + b2 ^ 2))
      by (rewrite Ha, Hb; ring).
    generalize (pow2_ge_0 (a1 * b2 - a2 * b1)). intros H. nra. }
  assert (Hdot : a1 * b1 + a2 * b2 <= ra * rb).
  { destruct (Rle_dec (a1 * b1 + a2 * b2) (ra * rb)) as [? | Hn];
      [assumption |].
    exfalso. assert (0 <= ra * rb) by nra. nra. }
  nra.
Qed.

Lemma difference_within (a1 a2 b1 b2 ra rb : R) :
  a1 ^ 2 + a2 ^ 2 = ra ^ 2 -> b1 ^ 2 + b2 ^ 2 = rb ^ 2 ->
  0 <= ra -> 0 <= rb ->
  (a1 - b1) ^ 2 + (a2 - b2) ^ 2 <= (ra + rb) ^ 2.
Proof.
  intros Ha Hb Hra Hrb.
  replace (a1 - b1) with (a1 + - b1) by ring.
  replace (a2 - b2) with (a2 + - b2) by ring.
  apply sum_within; try assumption. rewrite <- Hb. ring.
Qed.

Lemma polar_sqr (r t : R) : (r * cos t) ^ 2 + (r * sin t) ^ 2 = r ^ 2.
Proof.
  replace ((r * cos t) ^ 2 + (r * sin t) ^ 2)
    with (r ^ 2 * (sin t ^ 2 + cos t ^ 2)) by ring.
  rewrite sin2_cos2_pow. ring.
Qed.

(** X3.  For an eccentricity between 0 and half the camshaft diameter and
    a tolerance that is not negative, every sample of the eccentric shaft
    lies inside or on the circle of the camshaft bore, whose samples all
    lie on the circle of radius [hole_diameter / 2] about the origin. *)
Theorem eccentric_shaft_inside_bore (e cam_d phi tol : R) :
  0 <= e -> 2 * e <= cam_d -> 0 <= tol ->
  exists shaft bore,
    eccentric_camshaft e cam_d phi = Ok shaft
    /\ camshaft cam_d phi tol = Ok bore
    /\ curve_on_circle (0, 0) (hole_diameter cam_d tol / 2) bore
    /\ forall p, In p shaft ->
         dist2 (fst p) (0, 0) <= (hole_diameter cam_d tol / 2) ^ 2.
Proof.
  intros He Hcam Htol.
  destruct (camshaft_on_circle cam_d phi tol) as [bore [Hb [_ Hbore]]].
  rewrite eccentric_camshaft_ok. eexists. exists bore.
  split; [reflexivity |]. split; [exact Hb |]. split; [exact Hbore |].
  intros p Hp. apply in_map_iff in Hp. destruct Hp as [t [<- _]].
  unfold row, translate, ecc_vector, dist2, hole_diameter. cbn [fst snd].
  rewrite !Rminus_0_r.
  assert (Hr : 0 <= shaft_radius e cam_d) by (unfold shaft_radius; lra).
  apply Rle_trans with ((shaft_radius e cam_d + e) ^ 2).
  - apply sum_within; try assumption; apply polar_sqr.
  - unfold shaft_radius in *. apply pow_incr. lra.
Qed.

Lemma eccentric_shaft_inside_bore_witness :
  exists shaft bore,
    eccentric_camshaft (7 / 5) 20 0 = Ok shaft
    /\ camshaft 20 0 (1 / 5) = Ok bore
    /\ curve_on_circle (0, 0) (hole_diameter 20 (1 / 5) / 2) bore.
Proof.
  destruct (eccentric_shaft_inside_bore (7 / 5) 20 0 (1 / 5))
    as [shaft [bore [H1 [H2 [H3 _]]]]]; try lra.
  exists shaft, bore. split; [exact H1 |]. split; [exact H2 | exact H3].
Defined.

(** ** Output pins inside their holes, and the offset of the disk *)

(** X4.  For a pin diameter, an eccentricity and a tolerance that are not
    negative, every sample of output pin [i] lies inside or on the circle
    of output hole [i] (centre moved by the eccentricity vector, radius
    pin radius + eccentricity + tolerance), at every phase. *)
Theorem output_pin_inside_hole (e : R) (No N : Z) (opd odd phi tol : R) :
  (N <> 1)%Z -> 0 <= opd -> 0 <= e -> 0 <= tol ->
  exists pins,
    inner_pins No N opd odd phi = Ok pins
    /\ forall i : nat, (i < Z.to_nat No)%nat ->
         forall p, In p (nth i pins []) ->
           dist2 (fst p) (output_hole_center e No N odd phi (Z.of_nat i))
           <= hole_radius (opd / 2) e tol ^ 2.
Proof.
  intros HN Hopd He Htol. rewrite inner_pins_ok by exact HN.
  eexists. split; [reflexivity |].
  intros i Hi p Hp. rewrite nth_map_range in Hp by exact Hi.
  apply in_map_iff in Hp. destruct Hp as [t [<- _]].
  unfold output_hole_center, hole_radius.
  set (c := output_pin_center No N odd phi (Z.of_nat i)).
  set (v := rotate (- phi / IZR (lobes N)) (opd / 2 * sin t, opd / 2 * cos t)).
  unfold row, translate, ecc_vector, dist2. cbn [fst snd].
  replace (fst v + fst c - (fst c + e * cos phi)) with (fst v - e * cos phi)
    by ring.
  replace (snd v + snd c - (snd c + e * sin phi)) with (snd v - e * sin phi)
    by ring.
  apply Rle_trans with ((opd / 2 + e) ^ 2).
  - apply difference_within; try lra; [| apply polar_sqr].
    unfold v. rewrite rotate_sqr. cbn [fst snd].
    replace ((opd / 2 * sin t) ^ 2 + (opd / 2 * cos t) ^ 2)
      with ((opd / 2) ^ 2 * (sin t ^ 2 + cos t ^ 2)) by ring.
    rewrite sin2_cos2_pow. ring.
  - apply pow_incr. lra.
Qed.

Lemma output_pin_inside_hole_witness :
  exists pins, inner_pins 7 24 10 50 (1 / 2) = Ok pins.
Proof.
  destruct (output_pin_inside_hole (7 / 5) 7 24 10 50 (1 / 2) (1 / 5))
    as [pins [H _]]; try lra; [lia |].
  exists pins. exact H.
Defined.

Lemma outline_offset_distance (e : R) (N : Z) (D d tol phi t : R) :
  trace_speed (r_c N D) (r_s N D) e t <> 0 ->
  dist2 (disk_outline e N D d tol phi t) (placed_trace e N D phi t)
  = (d / 2 + tol) ^ 2.
Proof.
  intros Hsp. destruct (unit_normal_unit _ _ _ _ Hsp) as [Hn _].
  unfold disk_outline, placed_trace, offset_curve, dist2, translate.
  set (n := unit_normal (r_c N D) (r_s N D) e t) in *.
  set (a := - phi / IZR (lobes N)).
  unfold rotate, ecc_vector. cbn [fst snd].
  replace (((trace_x (r_c N D) (r_s N D) e t + (d / 2 + tol) * fst n) * cos a
            - (trace_y (r_c N D) (r_s N D) e t + (d / 2 + tol) * snd n) * sin a
            + e * cos phi
            - (trace_x (r_c N D) (r_s N D) e t * cos a
               - trace_y (r_c N D) (r_s N D) e t * sin a + e * cos phi)) ^ 2
           + ((trace_x (r_c N D) (r_s N D) e t + (d / 2 + tol) * fst n) * sin a
              + (trace_y (r_c N D) (r_s N D) e t + (d / 2 + tol) * snd n)
                * cos a
              + e * sin phi
              - (trace_x (r_c N D) (r_s N D) e t * sin a
                 + trace_y (r_c N D) (r_s N D) e t * cos a + e * sin phi)) ^ 2)
    with ((d / 2 + tol) ^ 2 * (fst n ^ 2 + snd n ^ 2)
          * (sin a ^ 2 + cos a ^ 2)) by ring.
  rewrite Hn, sin2_cos2_pow. ring.
Qed.

(** X5.  Every sample of the disk at which the trace has a speed lies at
    distance [pin_diameter / 2 + tolerance] from the point of the trace
    of the same parameter, rotated and moved like the disk. *)
Theorem cycloid_disk_offset_distance (e : R) (N : Z) (D d phi tol : R) :
  (2 <= N)%Z -> D <> 0 ->
  exists c,
    cycloid_disk e N D d phi tol = Ok [c]
    /\ forall (i : nat) (dflt : fpoint3),
         (i < length c)%nat ->
         let t := nth i (grid 0 (2 * PI) (1500 * lobes N)) 0 in
         trace_speed (r_c N D) (r_s N D) e t <> 0 ->
         exists p,
           nth i c dflt = finite_row p
           /\ dist2 p (placed_trace e N D phi t)
              = effective_pin_radius (d / 2) tol ^ 2.
Proof.
  intros HN HD. unfold cycloid_disk.
  rewrite cycloid_disk_with_ok by (unfold lobes; lia || assumption).
  eexists. split; [reflexivity |].
  intros i dflt Hi. cbv zeta. intros Hsp.
  rewrite length_map, grid_length in Hi.
  rewrite nth_map_grid by exact Hi.
  eexists. split; [now apply disk_sample_outline |].
  now apply outline_offset_distance.
Qed.

Lemma cycloid_disk_offset_distance_witness :
  exists c, cycloid_disk 1 4 40 5 0 (1 / 5) = Ok [c].
Proof.
  destruct (cycloid_disk_offset_distance 1 4 40 5 0 (1 / 5)) as [c [H _]];
    [lia | lra |].
  exists c. exact H.
Defined.

(** ** The lobes of the disk *)

Section LobeShift.

(** A shift [alpha] of the parameter that the faster term of the trace
    sees as [alpha] plus [z] turns. *)
Variables (rc rs e alpha t : R) (z : Z).
Hypothesis Hshift :
  (rc + rs) / rs * (t + alpha) = (rc + rs) / rs * t + alpha + 2 * IZR z * PI.

Lemma trace_shift :
  trace_x rc rs e (t + alpha)
  = trace_x rc rs e t * cos alpha - trace_y rc rs e t * sin alpha
  /\ trace_y rc rs e (t + alpha)
     = trace_x rc rs e t * sin alpha + trace_y rc rs e t * cos alpha
  /\ trace_dx rc rs e (t + alpha)
     = trace_dx rc rs e t * cos alpha - trace_dy rc rs e t * sin alpha
  /\ trace_dy rc rs e (t + alpha)
     = trace_dx rc rs e t * sin alpha + trace_dy rc rs e t * cos alpha.
Proof.
  unfold trace_x, trace_y, trace_dx, trace_dy.
  rewrite Hshift, cos_Z_turns, sin_Z_turns, !cos_plus, !sin_plus.
  repeat split; ring.
Qed.

Lemma trace_speed_shift :
  trace_speed rc rs e (t + alpha) = trace_speed rc rs e t.
Proof.
  destruct trace_shift as [_ [_ [Hx Hy]]].
  unfold trace_speed. rewrite Hx, Hy. f_equal.
  replace ((trace_dx rc rs e t * cos alpha - trace_dy rc rs e t * sin alpha) ^ 2
           + (trace_dx rc rs e t * sin alpha
              + trace_dy rc rs e t * cos alpha) ^ 2)
    with ((trace_dx rc rs e t ^ 2 + trace_dy rc rs e t ^ 2)
          * (sin alpha ^ 2 + cos alpha ^ 2)) by ring.
  rewrite sin2_cos2_pow. ring.
Qed.

Lemma offset_curve_shift (dist : R) :
  offset_curve rc rs e dist (t + alpha)
  = rotate alpha (offset_curve rc rs e dist t).
Proof.
  destruct trace_shift as [Hx [Hy [Hdx Hdy]]].
  unfold offset_curve, unit_normal, rotate. cbn [fst snd].
  rewrite trace_speed_shift, Hx, Hy, Hdx, Hdy.
  f_equal; unfold Rdiv; ring.
Qed.

End LobeShift.

(** X6.  The outline has [L] equal lobes: moving the parameter by
    [2 pi / L] turns a sample by [2 pi / L] about the centre of the disk
    (the end of the eccentricity vector), at every phase and tolerance. *)
Theorem disk_lobe_symmetry (e : R) (N : Z) (D d tol phi t : R) :
  (2 <= N)%Z -> D <> 0 ->
  trace_speed (r_c N D) (r_s N D) e t <> 0 ->
  exists p q,
    disk_sample e N D d tol phi t = finite_row p
    /\ disk_sample e N D d tol phi (t + 2 * PI / IZR (lobes N)) = finite_row q
    /\ q = translate (ecc_vector e phi)
             (rotate (2 * PI / IZR (lobes N))
                (fst p - fst (ecc_vector e phi),
                 snd p - snd (ecc_vector e phi))).
Proof.
  intros HN HD Hsp.
  destruct (lobes_ratio N D HN HD) as [_ [_ Hk]].
  assert (HL : IZR (lobes N) <> 0) by (unfold lobes; apply not_0_IZR; lia).
  assert (Hshift :
    (r_c N D + r_s N D) / r_s N D * (t + 2 * PI / IZR (lobes N))
    = (r_c N D + r_s N D) / r_s N D * t + 2 * PI / IZR (lobes N)
      + 2 * IZR 1 * PI).
  { rewrite Hk. replace (IZR N) with (IZR (lobes N) + 1)
      by (unfold lobes; rewrite minus_IZR; ring).
    field. exact HL. }
  exists (disk_outline e N D d tol phi t),
    (disk_outline e N D d tol phi (t + 2 * PI / IZR (lobes N))).
  split; [now apply disk_sample_outline |].
  split.
  { apply disk_sample_outline. now rewrite (trace_speed_shift _ _ _ _ _ 1). }
  unfold disk_outline. rewrite (offset_curve_shift _ _ _ _ _ 1) by exact Hshift.
  unfold translate, rotate, ecc_vector. cbn [fst snd]. f_equal; ring.
Qed.

Lemma disk_lobe_symmetry_witness :
  exists p q,
    disk_sample 1 4 40 5 (1 / 5) 0 0 = finite_row p
    /\ disk_sample 1 4 40 5 (1 / 5) 0 (0 + 2 * PI / IZR (lobes 4))
       = finite_row q.
Proof.
  destruct (disk_lobe_symmetry 1 4 40 5 (1 / 5) 0 0) as [p [q [H1 [H2 _]]]].
  - lia.
  - lra.
  - assert (Hrs : r_s 4 40 = 5) by (unfold r_s, lobes; simpl; lra).
    assert (Hrc : r_c 4 40 = 15) by (unfold r_c, lobes; simpl; lra).
    apply trace_speed_nonzero; rewrite ?Hrs, ?Hrc; lra.
  - exists p, q. split; assumption.
Defined.

(** ** The sampled circles *)

(** A curve sampled over one turn by a function that takes the same value
    at both ends is closed. *)
Lemma map_grid_closed {A : Type} (F : R -> A) (num : Z) (dflt : A) :
  (2 <= num)%Z -> F (2 * PI) = F 0 ->
  hd dflt (map F (grid 0 (2 * PI) num)) = last (map F (grid 0 (2 * PI) num)) dflt.
Proof.
  intros Hn HF. destruct (grid_first_last 0 (2 * PI) num Hn) as [mid ->].
  cbn [map hd]. rewrite map_app. cbn [map].
  rewrite last_cons_snoc. symmetry. exact HF.
Qed.

(** Close a goal [F (2 * PI) = F 0] by the values of [cos] and [sin]. *)
Ltac same_after_turn := cbv beta; autorewrite with turns; reflexivity.

Lemma pin_ring_ok (N : Z) (D d : R) :
  pin_ring N D d
  = Ok (map (fun i =>
               map (fun t => row (translate (placement N (D / 2) i)
                                    (d / 2 * sin t, d / 2 * cos t)))
                   (grid 0 (2 * PI) 200))
            (range N)).
Proof.
  unfold pin_ring. rewrite linspace_200. cbn [bind].
  apply mapM_ok. intros i Hi. py_ok (range_divisor _ _ Hi).
  cbv beta. apply f_equal. apply map_ext. intros t.
  unfold row, translate, placement. reflexivity.
Qed.

(** X7.  [pin_ring] never raises; it returns one curve per pin (none for
    a pin count of zero or less), each of 200 samples on the circle of
    radius [pin_diameter / 2] about the point at angle [2 pi i / N] of the
    ring circle, with a last sample equal to the first. *)
Theorem pin_ring_circles (N : Z) (D d : R) :
  exists pins,
    pin_ring N D d = Ok pins
    /\ length pins = Z.to_nat N
    /\ forall i : nat, (i < Z.to_nat N)%nat ->
         length (nth i pins []) = 200%nat
         /\ curve_on_circle (placement N (D / 2) (Z.of_nat i)) (d / 2)
              (nth i pins [])
         /\ dist2 (placement N (D / 2) (Z.of_nat i)) (0, 0) = (D / 2) ^ 2
         /\ forall dflt, hd dflt (nth i pins []) = last (nth i pins []) dflt.
Proof.
  rewrite pin_ring_ok. eexists. split; [reflexivity |].
  split; [now rewrite length_map, range_length |].
  intros i Hi. rewrite nth_map_range by exact Hi.
  split; [now rewrite length_map, grid_length |]. split; [| split].
  - intros p Hp. apply in_map_iff in Hp. destruct Hp as [t [<- _]].
    unfold on_circle, row, translate, dist2. cbn [fst snd].
    split; [| reflexivity].
    replace ((d / 2 * sin t + fst (placement N (D / 2) (Z.of_nat i))
              - fst (placement N (D / 2) (Z.of_nat i))) ^ 2
             + (d / 2 * cos t + snd (placement N (D / 2) (Z.of_nat i))
                - snd (placement N (D / 2) (Z.of_nat i))) ^ 2)
      with ((d / 2) ^ 2 * (sin t ^ 2 + cos t ^ 2)) by ring.
    rewrite sin2_cos2_pow. ring.
  - unfold placement, dist2. cbn [fst snd]. rewrite !Rminus_0_r.
    apply polar_sqr.
  - intros dflt. apply map_grid_closed; [lia |].
    same_after_turn.
Qed.

(** X8.  Unless there is exactly one external pin, the output pins, the
    output holes, the camshaft bore and the eccentric shaft are returned
    as curves of 200 samples whose last sample equals the first. *)
Theorem circle_generators_closed
    (e : R) (No N : Z) (opd odd cam_d phi tol : R) :
  (N <> 1)%Z ->
  exists pins holes bore shaft,
    inner_pins No N opd odd phi = Ok pins
    /\ inner_circles e No N opd odd phi tol = Ok holes
    /\ camshaft cam_d phi tol = Ok bore
    /\ eccentric_camshaft e cam_d phi = Ok shaft
    /\ (forall c dflt, In c pins \/ In c holes \/ c = bore \/ c = shaft ->
          length c = 200%nat /\ hd dflt c = last c dflt).
Proof.
  intros HN.
  rewrite inner_pins_ok, inner_circles_ok, camshaft_ok, eccentric_camshaft_ok
    by exact HN.
  do 4 eexists. do 4 (split; [reflexivity |]).
  intros c dflt [Hc | [Hc | [-> | ->]]].
  - apply in_map_iff in Hc. destruct Hc as [i [<- _]].
    split; [now rewrite length_map, grid_length |].
    apply map_grid_closed; [lia | same_after_turn].
  - apply in_map_iff in Hc. destruct Hc as [i [<- _]].
    split; [now rewrite length_map, grid_length |].
    apply map_grid_closed; [lia | same_after_turn].
  - split; [now rewrite length_map, grid_length |].
    apply map_grid_closed; [lia | same_after_turn].
  - split; [now rewrite length_map, grid_length |].
    apply map_grid_closed; [lia | same_after_turn].
Qed.

Lemma circle_generators_closed_witness :
  exists pins holes,
    inner_pins 7 24 10 50 0 = Ok pins
    /\ inner_circles (7 / 5) 7 24 10 50 0 (1 / 5) = Ok holes.
Proof.
  destruct (circle_generators_closed (7 / 5) 7 24 10 50 20 0 (1 / 5))
    as [pins [holes [_ [_ [H1 [H2 _]]]]]]; [lia |].
  exists pins, holes. split; assumption.
Defined.

(** The output pins and holes without output pins, and with one external
    pin. *)
Lemma inner_pins_cases (No N : Z) (opd odd phi : R) :
  inner_pins No N opd odd phi
  = if (No <=? 0)%Z then Ok []
    else if (N =? 1)%Z then Raise ZeroDivisionError
    else inner_pins No N opd odd phi.
Proof.
  destruct (Z.leb_spec No 0) as [H0 | H0].
  - unfold inner_pins. rewrite linspace_200, range_nonpositive by lia.
    reflexivity.
  - destruct (Z.eqb_spec N 1) as [-> | HN]; [| reflexivity].
    destruct (range_head No H0) as [l Hl].
    assert (HNo : IZR No <> 0) by (apply not_0_IZR; lia).
    unfold inner_pins. rewrite linspace_200, Hl. cbn [bind mapM].
    py_ok HNo. change (IZR (1 - 1)) with 0. rewrite py_div_zero.
    reflexivity.
Qed.

Lemma inner_circles_cases (e : R) (No N : Z) (opd odd phi tol : R) :
  inner_circles e No N opd odd phi tol
  = if (No <=? 0)%Z then Ok []
    else if (N =? 1)%Z then Raise ZeroDivisionError
    else inner_circles e No N opd odd phi tol.
Proof.
  destruct (Z.leb_spec No 0) as [H0 | H0].
  - unfold inner_circles. rewrite linspace_200, range_nonpositive by lia.
    reflexivity.
  - destruct (Z.eqb_spec N 1) as [-> | HN]; [| reflexivity].
    destruct (range_head No H0) as [l Hl].
    assert (HNo : IZR No <> 0) by (apply not_0_IZR; lia).
    unfold inner_circles. rewrite linspace_200, Hl. cbn [bind mapM].
    py_ok HNo. change (IZR (1 - 1)) with 0. rewrite py_div_zero.
    reflexivity.
Qed.

(** X9.  How the generators of the output pins and of the output holes
    end: without output pins both return no curve, whatever the number of
    external pins; with output pins and one external pin (no lobe) both
    divide by zero; in every other case both return one curve per output
    pin. *)
Theorem output_generators_outcome (e : R) (No N : Z) (opd odd phi tol : R) :
  (exists pins holes,
     inner_pins No N opd odd phi
     = (if (No <=? 0)%Z then Ok []
        else if (N =? 1)%Z then Raise ZeroDivisionError
        else Ok pins)
     /\ inner_circles e No N opd odd phi tol
        = (if (No <=? 0)%Z then Ok []
           else if (N =? 1)%Z then Raise ZeroDivisionError
           else Ok holes)
     /\ length pins = Z.to_nat No /\ length holes = Z.to_nat No).
Proof.
  rewrite inner_pins_cases, inner_circles_cases.
  destruct (Z.leb_spec No 0) as [H0 | H0].
  - exists (map (fun _ => []) (range No)), (map (fun _ => []) (range No)).
    now rewrite !length_map, !range_length.
  - destruct (Z.eqb_spec N 1) as [-> | HN].
    + exists (map (fun _ => []) (range No)), (map (fun _ => []) (range No)).
      now rewrite !length_map, !range_length.
    + rewrite inner_pins_ok, inner_circles_ok by exact HN.
      do 2 eexists. do 2 (split; [reflexivity |]).
      now rewrite !length_map, !range_length.
Qed.

(** ** The profiles of the displayed housing *)

(** X10.  How the displayed housing generator ends: for a pin count of
    zero or less it raises [IndexError] on [inner_points[0]]; otherwise
    it returns the wall sampled at 100 points per pin and closed by its
    first point, and the outer circle of 200 samples. *)
Theorem outer_ring_outcome (n : Z) (ring_d pin_d ring_w tol : R) :
  outer_ring n ring_d pin_d ring_w tol
  = if (n <=? 0)%Z then Raise IndexError
    else Ok (map (wall_point n ring_d pin_d) (range (100 * n))
               ++ [wall_point n ring_d pin_d 0],
             map (fun a => row ((ring_d / 2 + ring_w) * cos a,
                                (ring_d / 2 + ring_w) * sin a))
                 (grid 0 (2 * PI) 200)).
Proof.
  destruct (Z.leb_spec n 0) as [H0 | H0].
  - unfold outer_ring. rewrite range_nonpositive by lia. reflexivity.
  - apply outer_ring_ok. lia.
Qed.

(** X11.  For at least one pin and a pin diameter that is not negative,
    both profiles of the displayed housing are closed (the wall has
    [100 N + 1] points, the outer circle 200, on the circle of radius
    [ring radius + ring width]); every wall point is at a radius between
    [ring radius - pocketDepth] and [ring radius + clearance], and the
    point [100 j] is the bottom of the pocket at pin [j]. *)
Theorem outer_ring_profiles (n : Z) (ring_d pin_d ring_w tol : R) :
  (1 <= n)%Z -> 0 <= pin_d ->
  exists inner outer,
    outer_ring n ring_d pin_d ring_w tol = Ok (inner, outer)
    /\ length inner = S (Z.to_nat (100 * n))
    /\ length outer = 200%nat
    /\ (forall dflt, hd dflt inner = last inner dflt)
    /\ (forall dflt, hd dflt outer = last outer dflt)
    /\ curve_on_circle (0, 0) (ring_d / 2 + ring_w) outer
    /\ (forall p, In p inner ->
          exists r a,
            p = row (r * cos a, r * sin a)
            /\ ring_d / 2 - pocketDepth (pin_d / 2) <= r
               <= ring_d / 2 + clearance (pin_d / 2))
    /\ (forall j : Z, (0 <= j < n)%Z ->
          nth (Z.to_nat (100 * j)) inner (0, 0, 0)
          = row ((ring_d / 2 - pocketDepth (pin_d / 2)) * cos (pin_angle n j),
                 (ring_d / 2 - pocketDepth (pin_d / 2)) * sin (pin_angle n j))).
Proof.
  intros Hn Hd. rewrite outer_ring_ok by exact Hn. cbv zeta.
  fold (wall_point n ring_d pin_d).
  assert (HN0 : IZR n <> 0) by (apply not_0_IZR; lia).
  assert (Hwall : forall i,
            exists r a,
              wall_point n ring_d pin_d i = row (r * cos a, r * sin a)
              /\ ring_d / 2 - pocketDepth (pin_d / 2) <= r
                 <= ring_d / 2 + clearance (pin_d / 2)).
  { intros i. unfold wall_point. cbv zeta. do 2 eexists.
    split; [reflexivity |].
    generalize (wall_bounds n (ring_d / 2) (pin_d / 2)
                  (2 * PI * IZR i / IZR (100 * n))).
    unfold pocketDepth, clearance. intros H. lra. }
  do 2 eexists. split; [reflexivity |].
  split; [rewrite length_app, length_map, range_length; simpl; lia |].
  split; [now rewrite length_map, grid_length |].
  split; [| split; [| split; [| split]]].
  - intros dflt. rewrite last_last.
    destruct (range_head (100 * n)) as [l ->]; [lia |]. reflexivity.
  - intros dflt. apply map_grid_closed; [lia | same_after_turn].
  - intros p Hp. apply in_map_iff in Hp. destruct Hp as [a [<- _]].
    generalize (circle_point (0, 0) (ring_d / 2 + ring_w) a).
    unfold translate. cbn [fst snd]. now rewrite !Rplus_0_r.
  - intros p Hp. apply in_app_or in Hp. destruct Hp as [Hp | [<- | []]].
    + apply in_map_iff in Hp. destruct Hp as [i [<- _]]. apply Hwall.
    + apply Hwall.
  - intros j Hj. rewrite app_nth1
      by (rewrite length_map, range_length; lia).
    rewrite nth_map_range by lia. rewrite Z2Nat.id by lia.
    unfold wall_point. cbv zeta.
    replace (2 * PI * IZR (100 * j) / IZR (100 * n)) with (pin_angle n j)
      by (unfold pin_angle; rewrite !mult_IZR; field; exact HN0).
    now rewrite wall_at_pin.
Qed.

Lemma outer_ring_profiles_witness :
  exists inner outer,
    outer_ring 24 80 5 15 (1 / 5) = Ok (inner, outer)
    /\ length inner = 2401%nat.
Proof.
  destruct (outer_ring_profiles 24 80 5 15 (1 / 5))
    as [inner [outer [H1 [H2 _]]]]; [lia | lra |].
  exists inner, outer. split; [exact H1 |]. rewrite H2. reflexivity.
Defined.

(** ** The housing outline and its pins *)

(** Distance of a point of the ray to a centre, by the ray-circle
    quadratic. *)
Lemma ray_distance (c : R * R) (rp theta lam : R) :
  dist2 (lam * cos theta, lam * sin theta) c
  = (lam - (fst c * cos theta + snd c * sin theta)) ^ 2
    - ((fst c * cos theta + snd c * sin theta) ^ 2
       - (fst c ^ 2 + snd c ^ 2 - rp ^ 2))
    + rp ^ 2.
Proof.
  unfold dist2. cbn [fst snd].
  generalize (sin2_cos2_pow theta). intros H.
  replace ((lam * cos theta - fst c) ^ 2 + (lam * sin theta - snd c) ^ 2)
    with (lam ^ 2 * (sin theta ^ 2 + cos theta ^ 2)
          - 2 * lam * (fst c * cos theta + snd c * sin theta)
          + (fst c ^ 2 + snd c ^ 2)) by ring.
  rewrite H. ring.
Qed.

(** The merged radius is positive, no larger than the wall radius, and
    its point on the ray is outside or on the nearest pin. *)
Lemma merged_radius_clear (N : Z) (Rring rp theta : R) :
  0 <= rp < Rring ->
  0 < mergedRadius N Rring rp theta
    <= housingWallRadius N Rring rp theta
  /\ rp ^ 2
     <= dist2 (mergedRadius N Rring rp theta * cos theta,
               mergedRadius N Rring rp theta * sin theta)
              (placement N Rring (nearest_pin N theta)).
Proof.
  intros [Hrp HR].
  generalize (wall_bounds N Rring rp theta Hrp).
  unfold pocketDepth, clearance. intros [Hw1 Hw2].
  assert (Hw0 : 0 < housingWallRadius N Rring rp theta) by lra.
  rewrite (ray_distance _ rp).
  unfold mergedRadius, pinIntersectionRadius.
  set (w := housingWallRadius N Rring rp theta) in *.
  set (c := placement N Rring (nearest_pin N theta)).
  assert (Hc : fst c ^ 2 + snd c ^ 2 = Rring ^ 2).
  { unfold c, placement. cbn [fst snd]. apply polar_sqr. }
  set (proj := fst c * cos theta + snd c * sin theta).
  cbv zeta. rewrite Hc.
  set (disc := proj ^ 2 - (Rring ^ 2 - rp ^ 2)).
  generalize (pow2_ge_0 (Rmin w 1e9 - proj)). intros Hsq0.
  destruct (Rle_dec 0 disc) as [Hd | Hd].
  - assert (Hsq : sqrt disc ^ 2 = disc) by (apply pow2_sqrt; exact Hd).
    generalize (sqrt_pos disc). intros Hs0.
    destruct (Rlt_dec 0 (proj - sqrt disc)) as [H1 | H1].
    + split.
      * split; [apply Rmin_glb_lt; assumption | apply Rmin_l].
      * unfold Rmin. destruct (Rle_dec w (proj - sqrt disc)); nra.
    + assert (Hp : proj < 0).
      { destruct (Rlt_dec proj 0) as [? | Hn]; [assumption |].
        exfalso. unfold disc in *. nra. }
      assert (Hm : 0 < Rmin w 1e9) by (apply Rmin_glb_lt; lra).
      split.
      * split; [exact Hm | apply Rmin_l].
      * unfold disc in *. nra.
  - split.
    + split; [apply Rmin_glb_lt; lra | apply Rmin_l].
    + lra.
Qed.

(** X12.  For at least one pin and a pin radius between 0 and the ring
    radius, the housing polyline of the drawing has 30 points per pin,
    each on its ray at a positive radius of at most
    [ring radius + clearance], and none of them inside the pin nearest to
    its ray. *)
Theorem housing_outline_clear_of_pin (N : Z) (Rring pin_d ring_w : R) :
  (1 <= N)%Z -> 0 <= pin_d -> pin_d / 2 < Rring ->
  exists pts,
    dxf_outer_ring N Rring pin_d ring_w
    = Ok [ LWPolyline pts true "OUTER_RING";
           Circle (0, 0) (Rring + ring_w) "OUTER_RING" ]
    /\ length pts = Z.to_nat (30 * N)
    /\ forall i : Z, (0 <= i < 30 * N)%Z ->
         let theta := 2 * PI * IZR i / IZR (N * 30) in
         exists m,
           nth (Z.to_nat i) pts (0, 0) = (m * cos theta, m * sin theta)
           /\ 0 < m <= Rring + clearance (pin_d / 2)
           /\ (pin_d / 2) ^ 2
              <= dist2 (nth (Z.to_nat i) pts (0, 0))
                       (placement N Rring (nearest_pin N theta)).
Proof.
  intros HN Hd HR. rewrite dxf_outer_ring_ok by exact HN.
  eexists. split; [reflexivity |].
  split.
  - unfold housing_sample_angles. rewrite !length_map, range_length.
    f_equal. lia.
  - intros i Hi theta. unfold housing_sample_angles.
    rewrite map_map, nth_map_range by lia. rewrite Z2Nat.id by lia.
    fold theta.
    destruct (merged_radius_clear N Rring (pin_d / 2) theta) as [[H1 H2] H3];
      [lra |].
    exists (mergedRadius N Rring (pin_d / 2) theta).
    split; [reflexivity |]. split; [| exact H3].
    split; [exact H1 |].
    generalize (wall_bounds N Rring (pin_d / 2) theta).
    unfold pocketDepth, clearance in *. intros H. lra.
Qed.

Lemma housing_outline_clear_of_pin_witness :
  exists pts,
    dxf_outer_ring 12 40 5 15
    = Ok [ LWPolyline pts true "OUTER_RING";
           Circle (0, 0) (40 + 15) "OUTER_RING" ]
    /\ length pts = 360%nat.
Proof.
  destruct (housing_outline_clear_of_pin 12 40 5 15) as [pts [H1 [H2 _]]];
    [lia | lra | lra |].
  exists pts. split; [exact H1 |]. rewrite H2. reflexivity.
Defined.

(** ** The entities of the drawing *)

Lemma filter_map_layer {A : Type} (f : A -> entity) (layer l : string)
    (xs : list A) :
  (forall x, entity_layer (f x) = l) ->
  filter (fun en => String.eqb (entity_layer en) layer) (map f xs)
  = if String.eqb l layer then map f xs else [].
Proof.
  intros Hf. induction xs as [| x xs IH]; cbn [map filter].
  - now destruct (String.eqb l layer).
  - rewrite IH, Hf. now destruct (String.eqb l layer).
Qed.

Lemma filter_cons_app {A : Type} (f : A -> bool) (x : A) (xs : list A) :
  filter f (x :: xs) = filter f [x] ++ filter f xs.
Proof. cbn [filter]. now destruct (f x). Qed.

Ltac declared_layer :=
  cbn; repeat (first [left; reflexivity | right]).

(** X13.  The drawing of a successful export: it is stored under the file
    name and no other file changes; its layers are those of
    [layers_config]; every entity lies on one of these layers and every
    polyline and spline is closed; and it holds one axis point, one point
    per external pin, two housing entities if the housing is enabled, one
    circle per output pin and per output hole, one camshaft bore, one
    eccentric cam if the shaft radius is positive, and one disk spline. *)
Theorem export_to_dxf_drawing (filename : string) (p : params) (phi : R)
    (w : world) :
  ezdxf_installed w = true -> writable w filename = true ->
  (2 <= num_external_pins p)%Z -> ring_diameter p <> 0 ->
  exists doc w',
    export_to_dxf filename p phi w = Ok (true, w')
    /\ files w' filename = Some doc
    /\ (forall f, f <> filename -> files w' f = files w f)
    /\ layers doc = layers_config
    /\ Forall (fun en => In (entity_layer en) (map fst (layers doc))
                         /\ entity_closed en = true)
              (modelspace doc)
    /\ length (on_layer "CENTER_AXIS" doc) = 1%nat
    /\ length (on_layer "PIN_CENTERS" doc) = Z.to_nat (num_external_pins p)
    /\ length (on_layer "OUTER_RING" doc)
       = (if show_outer_ring p then 2%nat else 0%nat)
    /\ length (on_layer "OUTPUT_PINS" doc) = Z.to_nat (num_output_pins p)
    /\ length (on_layer "OUTPUT_HOLES" doc) = Z.to_nat (num_output_pins p)
    /\ length (on_layer "CAMSHAFT_HOLE" doc) = 1%nat
    /\ length (on_layer "ECCENTRIC_CAM" doc)
       = (if Rlt_dec 0 (shaft_radius (eccentricity p) (camshaft_diameter p))
          then 1%nat else 0%nat)
    /\ length (on_layer "CYCLOID_DISK" doc) = 1%nat.
Proof.
  intros Hez Hwr HN HD.
  rewrite (export_to_dxf_ok filename p phi w Hez Hwr HN HD).
  do 2 eexists. split; [reflexivity |].
  split; [cbn; now rewrite String.eqb_refl |].
  split.
  { intros f Hf. cbn. apply String.eqb_neq in Hf. now rewrite Hf. }
  split; [reflexivity |].
  split.
  { cbn [modelspace layers]. unfold dxf_entities. cbv zeta.
    apply Forall_forall. intros en Hen.
    repeat match goal with
           | H : In _ (_ ++ _) |- _ => apply in_app_or in H; destruct H
           | H : In _ (map _ _) |- _ =>
               apply in_map_iff in H; destruct H as [? [<- _]]
           | H : In _ (if ?b then _ else _) |- _ => destruct b
           | H : In _ (_ :: _) |- _ => destruct H as [<- | H]
           | H : In _ [] |- _ => destruct H
           end;
      (split; [declared_layer | reflexivity]). }
  unfold on_layer. cbn [modelspace]. unfold dxf_entities. cbv zeta.
  repeat split;
    rewrite (filter_cons_app _ (Point (0, 0) "CENTER_AXIS")), !filter_app;
    rewrite (filter_map_layer _ _ "PIN_CENTERS") by reflexivity;
    rewrite (filter_map_layer _ _ "OUTPUT_PINS") by reflexivity;
    rewrite (filter_map_layer _ _ "OUTPUT_HOLES") by reflexivity;
    destruct (show_outer_ring p);
    destruct (Rlt_dec 0 (shaft_radius (eccentricity p) (camshaft_diameter p)));
    cbn; rewrite ?length_app, ?length_map, ?range_length; cbn; lia.
Qed.

Lemma export_to_dxf_drawing_witness :
  exists doc w',
    export_to_dxf "gearbox.dxf" degenerate_disk 0 ready_world = Ok (true, w')
    /\ files w' "gearbox.dxf" = Some doc
    /\ length (on_layer "PIN_CENTERS" doc) = 4%nat
    /\ length (on_layer "ECCENTRIC_CAM" doc) = 1%nat.
Proof.
  destruct (export_to_dxf_drawing "gearbox.dxf" degenerate_disk 0 ready_world)
    as [doc [w' [H1 [H2 [_ [_ [_ [_ [H3 [_ [_ [_ [_ [H4 _]]]]]]]]]]]]]].
  - reflexivity.
  - reflexivity.
  - simpl. lia.
  - simpl. lra.
  - exists doc, w'. split; [exact H1 |]. split; [exact H2 |].
    split; [exact H3 |]. rewrite H4. simpl.
    destruct (Rlt_dec 0 (shaft_radius 5 12)) as [_ | Hn]; [reflexivity |].
    exfalso. apply Hn. unfold shaft_radius. lra.
Defined.

(** X14.  The pin-centre points of the drawing are the centres of the
    displayed external pins. *)
Theorem dxf_pin_centers_match_pin_ring (N : Z) (D d : R) :
  exists pts pins,
    dxf_pin_centers N (D / 2) = Ok pts
    /\ pin_ring N D d = Ok pins
    /\ length pts = Z.to_nat N
    /\ length pins = Z.to_nat N
    /\ forall i : Z, (0 <= i < N)%Z ->
         exists c,
           nth (Z.to_nat i) pts (Point (0, 0) "") = Point c "PIN_CENTERS"
           /\ curve_on_circle c (d / 2) (nth (Z.to_nat i) pins []).
Proof.
  rewrite dxf_pin_centers_ok, pin_ring_ok.
  do 2 eexists. split; [reflexivity |]. split; [reflexivity |].
  split; [now rewrite length_map, range_length |].
  split; [now rewrite length_map, range_length |].
  intros i Hi. exists (placement N (D / 2) i).
  rewrite !nth_map_range by lia. rewrite Z2Nat.id by lia.
  split; [reflexivity |].
  intros q Hq. apply in_map_iff in Hq. destruct Hq as [t [<- _]].
  split; [| reflexivity].
  unfold row, translate, dist2. cbn [fst snd].
  transitivity ((d / 2 * cos t) ^ 2 + (d / 2 * sin t) ^ 2);
    [ring | apply polar_sqr].
Qed.

(** X15.  In the drawing every output hole is the output pin of the same
    index moved by the eccentricity vector and grown by the eccentricity
    plus the tolerance, so the pin touches the hole from inside. *)
Theorem dxf_output_pin_in_hole (No : Z) (Rd opd e tol phi : R) :
  exists pins holes,
    dxf_output_pins No Rd opd = Ok pins
    /\ dxf_output_holes No Rd opd e tol (e * cos phi) (e * sin phi) = Ok holes
    /\ length pins = Z.to_nat No
    /\ length holes = Z.to_nat No
    /\ forall i : Z, (0 <= i < No)%Z ->
         exists c,
           nth (Z.to_nat i) pins (Point (0, 0) "")
           = Circle c (opd / 2) "OUTPUT_PINS"
           /\ nth (Z.to_nat i) holes (Point (0, 0) "")
              = Circle (translate (ecc_vector e phi) c)
                  (opd / 2 + e + tol) "OUTPUT_HOLES"
           /\ dist2 (translate (ecc_vector e phi) c) c = e ^ 2.
Proof.
  rewrite dxf_output_pins_ok, dxf_output_holes_ok.
  do 2 eexists. split; [reflexivity |]. split; [reflexivity |].
  split; [now rewrite length_map, range_length |].
  split; [now rewrite length_map, range_length |].
  intros i Hi. exists (placement No Rd i).
  rewrite !nth_map_range by lia. rewrite Z2Nat.id by lia.
  split; [reflexivity |]. split.
  - unfold translate, ecc_vector. cbn [fst snd].
    apply f_equal3; [| reflexivity | reflexivity].
    apply f_equal2; ring.
  - unfold translate, ecc_vector, dist2. cbn [fst snd].
    transitivity ((e * cos phi) ^ 2 + (e * sin phi) ^ 2);
      [ring | apply polar_sqr].
Qed.

(** ** The drawing against the display *)

(** X16.  The circles of the drawing against the displayed curves.  The
    drawing places output pin [i] and output hole [i] without the
    rotation by [-phi/L] that the display (and the disk outline of the
    drawing itself) applies: the displayed pin lies on the circle of the
    drawing turned by [-phi/L] about the origin, the displayed hole on the
    circle of the drawing turned by [-phi/L] about the centre of the disk,
    with the same radii; the two agree at phase 0.  The camshaft bore is
    the same circle in both. *)
Theorem dxf_circles_against_display
    (e : R) (No N : Z) (opd odd cam_d phi tol : R) :
  (N <> 1)%Z ->
  exists pins holes bore dxf_pins dxf_holes,
    inner_pins No N opd odd phi = Ok pins
    /\ inner_circles e No N opd odd phi tol = Ok holes
    /\ camshaft cam_d phi tol = Ok bore
    /\ dxf_output_pins No (odd / 2) opd = Ok dxf_pins
    /\ dxf_output_holes No (odd / 2) opd e tol (e * cos phi) (e * sin phi)
       = Ok dxf_holes
    /\ (forall i : Z, (0 <= i < No)%Z ->
          exists c r r',
            nth (Z.to_nat i) dxf_pins (Point (0, 0) "")
            = Circle c r "OUTPUT_PINS"
            /\ nth (Z.to_nat i) dxf_holes (Point (0, 0) "")
               = Circle (translate (ecc_vector e phi) c) r' "OUTPUT_HOLES"
            /\ curve_on_circle (rotate (- phi / IZR (lobes N)) c) r
                 (nth (Z.to_nat i) pins [])
            /\ curve_on_circle
                 (translate (ecc_vector e phi)
                    (rotate (- phi / IZR (lobes N)) c)) r'
                 (nth (Z.to_nat i) holes [])
            /\ (phi = 0 -> rotate (- phi / IZR (lobes N)) c = c))
    /\ exists r cam,
         dxf_camshaft cam_d e tol (e * cos phi) (e * sin phi)
         = Circle (0, 0) r "CAMSHAFT_HOLE" :: cam
         /\ curve_on_circle (0, 0) r bore.
Proof.
  intros HN.
  destruct (inner_pins_on_circles No N opd odd phi HN)
    as [pins [Hpins [_ Hpin]]].
  destruct (inner_circles_on_circles e No N opd odd phi tol HN)
    as [holes [Hholes [_ Hhole]]].
  destruct (camshaft_on_circle cam_d phi tol) as [bore [Hbore [_ Hb]]].
  rewrite dxf_output_pins_ok, dxf_output_holes_ok.
  exists pins, holes, bore. do 2 eexists.
  do 5 (split; [first [eassumption | reflexivity] |]).
  split.
  - intros i Hi.
    exists (placement No (odd / 2) i), (opd / 2), (opd / 2 + e + tol).
    rewrite !nth_map_range by lia. rewrite Z2Nat.id by lia.
    split; [reflexivity |].
    split; [reflexivity |].
    assert (Hi' : (Z.to_nat i < Z.to_nat No)%nat) by lia.
    destruct (Hpin _ Hi') as [_ H1]. destruct (Hhole _ Hi') as [_ H2].
    rewrite Z2Nat.id in H1, H2 by lia.
    split; [exact H1 |]. split; [exact H2 |].
    intros ->. unfold rotate.
    replace (- 0 / IZR (lobes N)) with 0 by (unfold Rdiv; ring).
    rewrite cos_0, sin_0. destruct (placement No (odd / 2) i) as [x y].
    cbn [fst snd]. f_equal; ring.
  - unfold dxf_camshaft. do 2 eexists. split; [reflexivity |].
    unfold hole_diameter in Hb.
    replace (cam_d / 2 + tol) with ((cam_d + 2 * tol) / 2) by field.
    exact Hb.
Qed.

Lemma dxf_circles_against_display_witness :
  exists pins dxf_pins,
    inner_pins 7 24 10 50 (1 / 2) = Ok pins
    /\ dxf_output_pins 7 (50 / 2) 10 = Ok dxf_pins.
Proof.
  destruct (dxf_circles_against_display (7 / 5) 7 24 10 50 20 (1 / 2) (1 / 5))
    as (pins & holes & bore & dxf_pins & dxf_holes & H1 & _ & _ & H2 & _);
    [lia |].
  exists pins, dxf_pins. split; assumption.
Defined.

(** ** The SVG export *)

Lemma append_assoc (a b c : string) :
  ((a ++ b) ++ c)%string = (a ++ (b ++ c))%string.
Proof. induction a as [| ch a IH]; [reflexivity |]. cbn. now rewrite IH. Qed.

Lemma append_empty_r (a : string) : (a ++ "")%string = a.
Proof. induction a as [| ch a IH]; [reflexivity |]. cbn. now rewrite IH. Qed.

(** The accumulation of [points_to_path] appends the segments in order. *)
Lemma fold_left_append {A : Type} (f : A -> string) (l : list A)
    (init : string) :
  fold_left (fun acc a => (acc ++ f a)%string) l init
  = (init ++ String.concat "" (map f l))%string.
Proof.
  revert init. induction l as [| a l IH]; intros init; cbn [fold_left map].
  - cbn. now rewrite append_empty_r.
  - rewrite IH, append_assoc. f_equal.
    destruct l as [| b l]; cbn; [now rewrite append_empty_r | reflexivity].
Qed.

Lemma points_to_path_cons (fmt3 : npfloat -> string) (p0 : fpoint3)
    (rest : list fpoint3) :
  points_to_path fmt3 (p0 :: rest) = Ok (closed_path fmt3 p0 rest).
Proof.
  unfold points_to_path, closed_path, coord. cbn [first_item bind tl].
  f_equal.
  rewrite (fold_left_append
             (fun p => (" L " ++ fmt3 (fst (fst p)) ++ ","
                        ++ fmt3 (snd (fst p)))%string)).
  now rewrite !append_assoc.
Qed.

(** X17.  [points_to_path] refuses an empty curve and writes every other
    curve as one closed path: a move to the first point, a line to each
    further point in order, and the closing [Z]. *)
Theorem points_to_path_outcome (fmt3 : npfloat -> string)
    (points : list fpoint3) :
  points_to_path fmt3 points
  = match points with
    | [] => Raise IndexError
    | p0 :: rest => Ok (closed_path fmt3 p0 rest)
    end.
Proof.
  destruct points as [| p0 rest]; [reflexivity | apply points_to_path_cons].
Qed.

Lemma points_to_path_curve (fmt3 : npfloat -> string) (c : list fpoint3) :
  c <> [] -> points_to_path fmt3 c = Ok (curve_path fmt3 c).
Proof.
  destruct c as [| p0 rest]; [congruence |]. intros _.
  apply points_to_path_cons.
Qed.

Lemma path_lines_ok (fmt3 : npfloat -> string) (stroke width : string)
    (curves : list (list fpoint3)) :
  (forall c, In c curves -> c <> []) ->
  path_lines fmt3 stroke width curves
  = Ok (map (curve_line fmt3 stroke width) curves).
Proof.
  intros H. unfold path_lines. apply mapM_ok. intros c Hc.
  now rewrite points_to_path_curve by now apply H.
Qed.

Lemma app_cons_not_nil_r {A : Type} (l : list A) (a : A) : l ++ [a] <> [].
Proof. destruct l; discriminate. Qed.

Lemma sampled_nonempty {A : Type} (F : R -> A) (num : Z) :
  (1 <= num)%Z -> map F (grid 0 (2 * PI) num) <> [].
Proof.
  intros H E. apply (f_equal (@length A)) in E.
  rewrite length_map, grid_length in E. cbn in E. lia.
Qed.

(** Every curve of a family of sampled curves has a point. *)
Lemma family_nonempty {A : Type} (F : Z -> R -> A) (n num : Z)
    (G : A -> fpoint3) :
  (1 <= num)%Z ->
  forall c,
    In c (map (map G) (map (fun i => map (F i) (grid 0 (2 * PI) num))
                         (range n))) ->
    c <> [].
Proof.
  intros H c Hc. rewrite map_map in Hc. apply in_map_iff in Hc.
  destruct Hc as [i [<- _]]. rewrite map_map. now apply sampled_nonempty.
Qed.

(** With two external pins or more and a ring diameter that is not
    zero, the SVG export fails only on the file. *)
Lemma export_to_svg_ok (fmt3 : npfloat -> string) (fstr : R -> string)
    (filename : string) (p : params) (phi : R) (fs : filesystem) :
  (2 <= num_external_pins p)%Z -> ring_diameter p <> 0 ->
  export_to_svg fmt3 fstr filename p phi fs
  = if negb (openable fs filename) then Raise OSError
    else Ok (true,
             written (String.concat newline (svg_document fmt3 fstr p phi))
               filename fs).
Proof.
  intros HN HD. unfold export_to_svg. cbv zeta.
  rewrite pin_ring_ok. cbn [bind].
  rewrite path_lines_ok by (apply family_nonempty; lia). cbn [bind].
  unfold cycloid_disk at 1. rewrite cycloid_disk_with_ok
    by (assumption || (unfold lobes; lia)).
  cbn [bind].
  rewrite points_to_path_curve
    by (apply sampled_nonempty; unfold lobes; lia).
  cbn [bind].
  rewrite inner_pins_ok by lia. cbn [bind].
  rewrite path_lines_ok by (apply family_nonempty; lia). cbn [bind].
  rewrite inner_circles_ok by lia. cbn [bind].
  rewrite path_lines_ok by (apply family_nonempty; lia). cbn [bind].
  rewrite camshaft_ok. cbn [bind].
  rewrite points_to_path_curve
    by (rewrite map_map; apply sampled_nonempty; lia).
  cbn [bind].
  rewrite eccentric_camshaft_ok. cbn [bind].
  rewrite points_to_path_curve
    by (rewrite map_map; apply sampled_nonempty; lia).
  cbn [bind].
  assert (Hfile :
    forall lines lines' : list string,
      lines = lines' ->
      (fs' <- write_text (String.concat newline lines) filename fs ;;
       Ok (true, fs'))
      = if negb (openable fs filename) then Raise OSError
        else Ok (true,
                 written (String.concat newline lines') filename fs)).
  { intros lines lines' <-. unfold write_text.
    now destruct (openable fs filename). }
  unfold svg_document. cbv zeta.
  rewrite pin_ring_ok.
  unfold cycloid_disk. rewrite cycloid_disk_with_ok
    by (assumption || (unfold lobes; lia)).
  rewrite inner_pins_ok, inner_circles_ok by lia.
  rewrite camshaft_ok, eccentric_camshaft_ok.
  cbn [bind curves_of].
  destruct (show_outer_ring p).
  - rewrite outer_ring_ok by lia. cbv zeta. cbn [bind fst snd curves_of].
    rewrite !points_to_path_curve
      by (rewrite ?map_app, ?map_map;
          first [apply sampled_nonempty; lia | apply app_cons_not_nil_r]).
    cbn [bind]. apply Hfile. cbn [map]. rewrite <- !app_assoc. reflexivity.
  - cbn [bind]. apply Hfile. cbn [map]. rewrite <- !app_assoc. reflexivity.
Qed.

(** X18.  How the SVG export ends, for every argument: it raises exactly
    where the disk generator raises or the file cannot be opened, never
    for an empty curve, and otherwise writes the lines of [svg_document]
    and returns [True]. *)
Theorem export_to_svg_outcome (fmt3 : npfloat -> string) (fstr : R -> string)
    (filename : string) (p : params) (phi : R) (fs : filesystem) :
  export_to_svg fmt3 fstr filename p phi fs
  = if (num_external_pins p <? 0)%Z then Raise ValueError
    else if (num_external_pins p <? 2)%Z then Raise ZeroDivisionError
    else if Req_dec_T (ring_diameter p) 0 then Raise ZeroDivisionError
    else if negb (openable fs filename) then Raise OSError
    else Ok (true,
             written (String.concat newline (svg_document fmt3 fstr p phi))
               filename fs).
Proof.
  assert (Hfail : forall ex,
    cycloid_disk (eccentricity p) (num_external_pins p) (ring_diameter p)
      (pin_diameter p) phi (tolerance p) = Raise ex ->
    export_to_svg fmt3 fstr filename p phi fs = Raise ex).
  { intros ex Hex. unfold export_to_svg. cbv zeta.
    rewrite pin_ring_ok. cbn [bind].
    rewrite path_lines_ok by (apply family_nonempty; lia). cbn [bind].
    rewrite Hex. reflexivity. }
  generalize (cycloid_disk_with_outcome 1500 (eccentricity p)
                (num_external_pins p) (ring_diameter p) (pin_diameter p)
                phi (tolerance p)).
  fold cycloid_disk. intros Hdisk.
  destruct (Z.ltb_spec (num_external_pins p) 0) as [Hneg | Hpos];
    [apply Hfail, Hdisk; lia |].
  destruct (Z.ltb_spec (num_external_pins p) 2) as [Hsmall | HN];
    [apply Hfail, Hdisk; lia |].
  destruct (Req_dec_T (ring_diameter p) 0) as [HD | HD];
    [apply Hfail, Hdisk; lia |].
  now apply export_to_svg_ok.
Qed.

(** X19.  The SVG file of a successful export holds one path per external
    pin, one for the disk, one per output pin and per output hole, the
    camshaft bore, the eccentric shaft whatever the sign of its radius,
    and the two housing profiles if enabled. *)
Theorem export_to_svg_paths (fmt3 : npfloat -> string) (fstr : R -> string)
    (filename : string) (p : params) (phi : R) (fs : filesystem) :
  (2 <= num_external_pins p)%Z -> ring_diameter p <> 0 ->
  openable fs filename = true ->
  exists fs' ecc,
    export_to_svg fmt3 fstr filename p phi fs = Ok (true, fs')
    /\ text fs' filename
       = Some (String.concat newline (svg_document fmt3 fstr p phi))
    /\ (forall f, f <> filename -> text fs' f = text fs f)
    /\ length (svg_document fmt3 fstr p phi)
       = (3 + Z.to_nat (num_external_pins p) + 1
          + Z.to_nat (num_output_pins p) + Z.to_nat (num_output_pins p)
          + 2 + (if show_outer_ring p then 2 else 0) + 2)%nat
    /\ eccentric_camshaft (eccentricity p) (camshaft_diameter p) phi = Ok ecc
    /\ length ecc = 200%nat
    /\ In (curve_line fmt3 "#FFAA00" "0.5" (map np_row ecc))
         (svg_document fmt3 fstr p phi).
Proof.
  intros HN HD Hopen. rewrite export_to_svg_ok by assumption.
  rewrite Hopen. cbn [negb].
  do 2 eexists. split; [reflexivity |].
  split; [cbn; now rewrite String.eqb_refl |].
  split.
  { intros f Hf. cbn. apply String.eqb_neq in Hf. now rewrite Hf. }
  split; [| split; [apply eccentric_camshaft_ok | split]].
  - unfold svg_document. cbv zeta.
    rewrite pin_ring_ok.
    unfold cycloid_disk. rewrite cycloid_disk_with_ok
      by (assumption || (unfold lobes; lia)).
    rewrite inner_pins_ok, inner_circles_ok by lia.
    rewrite camshaft_ok, eccentric_camshaft_ok.
    cbn [bind curves_of].
    destruct (show_outer_ring p).
    + rewrite outer_ring_ok by lia. cbv zeta. cbn [bind curves_of].
      rewrite !length_app, !length_map, !range_length. cbn [length]. lia.
    + rewrite !length_app, !length_map, !range_length. cbn [length]. lia.
  - now rewrite length_map, grid_length.
  - unfold svg_document. cbv zeta. rewrite eccentric_camshaft_ok.
    cbn [bind curves_of map].
    rewrite !in_app_iff. do 6 right. left. now left.
Qed.

Lemma export_to_svg_paths_witness :
  exists fs',
    export_to_svg (fun _ => "0"%string) (fun _ => "0"%string) "gearbox.svg"
      oversized_eccentricity 0
      {| openable := fun _ => true; text := fun _ => None |}
    = Ok (true, fs')
    /\ length (svg_document (fun _ => "0"%string) (fun _ => "0"%string)
                 oversized_eccentricity 0) = 24%nat.
Proof.
  destruct (export_to_svg_paths (fun _ => "0"%string) (fun _ => "0"%string)
              "gearbox.svg" oversized_eccentricity 0
              {| openable := fun _ => true; text := fun _ => None |})
    as [fs' [ecc [H1 [_ [_ [H2 _]]]]]].
  - simpl. lia.
  - simpl. lra.
  - reflexivity.
  - exists fs'. split; [exact H1 |]. rewrite H2. reflexivity.
Defined.

(** ** The viewer and the slider panel *)

Lemma set_each_length (items : list item) (curves : list (list fpoint3)) :
  length (set_each items curves) = length items.
Proof.
  revert curves. induction items as [| it items IH]; intros [| c curves];
    cbn [set_each length]; try reflexivity.
  now rewrite IH.
Qed.

Lemma set_each_nil (items : list item) : set_each items [] = items.
Proof. now destruct items. Qed.

(** Setting the same curves twice is setting them once. *)
Lemma set_each_twice (items : list item) (curves : list (list fpoint3)) :
  set_each (set_each items curves) curves = set_each items curves.
Proof.
  revert curves. induction items as [| it items IH]; intros [| c curves];
    cbn [set_each]; try reflexivity.
  now rewrite IH.
Qed.

(** With at least two external pins, a ring diameter that is not zero
    and the four single items in place, [update_viewer] gives every item
    its curve. *)
Lemma update_viewer_ok (st : panel) :
  (2 <= num_external_pins (panel_params st))%Z ->
  ring_diameter (panel_params st) <> 0 ->
  camshaft_item (panel_viewer st) <> None ->
  eccentric_camshaft_item (panel_viewer st) <> None ->
  outer_ring_inner_item (panel_viewer st) <> None ->
  outer_ring_outer_item (panel_viewer st) <> None ->
  update_viewer st = Done (refreshed st).
Proof.
  intros HN HD Hc He Hi Ho.
  unfold update_viewer, refreshed, update_geometry, shown_viewer. cbv zeta.
  destruct (panel_viewer st) as [opi ipi ici cyi ci ei rii roi].
  cbn [outer_pin_items inner_pin_items inner_circle_items cycloid_items
       camshaft_item eccentric_camshaft_item outer_ring_inner_item
       outer_ring_outer_item] in *.
  destruct ci as [ci |]; [| congruence].
  destruct ei as [ei |]; [| congruence].
  destruct rii as [rii |]; [| congruence].
  destruct roi as [roi |]; [| congruence].
  set (p := panel_params st) in *.
  rewrite pin_ring_ok.
  rewrite inner_pins_ok, inner_circles_ok by lia.
  unfold cycloid_disk. rewrite cycloid_disk_with_ok
    by (assumption || (unfold lobes; lia)).
  rewrite camshaft_ok, eccentric_camshaft_ok.
  cbn [generated gui_bind attribute curves_of curve_of firstn option_map].
  destruct (show_outer_ring p).
  - rewrite outer_ring_ok by lia. cbv zeta.
    cbn [generated gui_bind attribute profiles_of fst snd].
    do 2 f_equal.
    destruct cyi as [| it cyi]; [reflexivity |].
    cbn [set_each]. now rewrite set_each_nil.
  - cbn [generated gui_bind attribute fst snd].
    do 2 f_equal.
    destruct cyi as [| it cyi]; [reflexivity |].
    cbn [set_each]. now rewrite set_each_nil.
Qed.

Lemma shown_viewer_twice (v : viewer) (p : params) (phi : R) :
  shown_viewer (shown_viewer v p phi) p phi = shown_viewer v p phi.
Proof.
  unfold shown_viewer. cbv zeta.
  cbn [outer_pin_items inner_pin_items inner_circle_items cycloid_items
       camshaft_item eccentric_camshaft_item outer_ring_inner_item
       outer_ring_outer_item].
  rewrite !set_each_twice.
  destruct (camshaft_item v), (eccentric_camshaft_item v),
    (outer_ring_inner_item v), (outer_ring_outer_item v),
    (show_outer_ring p); reflexivity.
Qed.

Lemma shown_viewer_items (v : viewer) (p : params) (phi : R) :
  items_ok v p -> items_ok (shown_viewer v p phi) p.
Proof.
  unfold items_ok, shown_viewer. cbv zeta.
  cbn [outer_pin_items inner_pin_items inner_circle_items cycloid_items
       camshaft_item eccentric_camshaft_item outer_ring_inner_item
       outer_ring_outer_item].
  rewrite !set_each_length.
  intros (H1 & H2 & H3 & H4 & H5 & H6 & H7 & H8).
  repeat split; try assumption.
  - now destruct (camshaft_item v).
  - now destruct (eccentric_camshaft_item v).
  - now destruct (outer_ring_inner_item v).
  - now destruct (outer_ring_outer_item v).
Qed.

(** From parameters and items that are in order, [update_viewer] leads to
    a state the panel keeps to. *)
Lemma update_viewer_settles (st : panel) :
  params_ok (panel_params st) ->
  items_ok (panel_viewer st) (panel_params st) ->
  update_viewer st = Done (refreshed st) /\ panel_ok (refreshed st).
Proof.
  intros Hp Hi.
  assert (Hgo : forall st',
            params_ok (panel_params st') ->
            items_ok (panel_viewer st') (panel_params st') ->
            update_viewer st' = Done (refreshed st')).
  { intros st' (_ & HN & _ & HD & _) (_ & _ & _ & _ & H5 & H6 & H7 & H8).
    apply update_viewer_ok; try assumption; lia || lra. }
  split; [now apply Hgo |].
  assert (Hi' : items_ok (panel_viewer (refreshed st))
                  (panel_params (refreshed st))).
  { apply shown_viewer_items. exact Hi. }
  split; [exact Hp |]. split; [exact Hi' |].
  rewrite (Hgo (refreshed st) Hp Hi'). f_equal.
  unfold refreshed, set_viewer.
  cbn [panel_params panel_viewer panel_phi animation_speed paused].
  now rewrite shown_viewer_twice.
Qed.

Lemma Rabs_within (a b : R) : Rabs a <= b -> - b <= a <= b.
Proof. unfold Rabs. destruct (Rcase_abs a); lra. Qed.

Lemma py_int_IZR (z : Z) : py_int (IZR z) = z.
Proof.
  unfold py_int. destruct (Rle_dec 0 (IZR z)); [apply ZfloorZ |].
  rewrite <- opp_IZR, ZfloorZ. lia.
Qed.

(** Rounding to [n] digits keeps a number that has no more digits. *)
Lemma py_round_to_exact (x : R) (n : nat) (m : Z) :
  x * 10 ^ n = IZR m -> py_round_to x n = x.
Proof.
  intros H. unfold py_round_to. rewrite H, py_round_IZR, <- H.
  field. apply pow_nonzero. lra.
Qed.

(** Rounding to [n] digits moves a number by at most half a unit of the
    last digit. *)
Lemma py_round_to_near (x : R) (n : nat) :
  Rabs (py_round_to x n - x) <= / 2 * / 10 ^ n.
Proof.
  assert (Hp : 0 < 10 ^ n) by (apply pow_lt; lra).
  unfold py_round_to.
  replace (IZR (py_round (x * 10 ^ n)) / 10 ^ n - x)
    with (- (x * 10 ^ n - IZR (py_round (x * 10 ^ n))) * / 10 ^ n)
    by (field; lra).
  rewrite Rabs_mult, Rabs_Ropp, (Rabs_pos_eq (/ 10 ^ n))
    by (left; now apply Rinv_0_lt_compat).
  apply Rmult_le_compat_r; [left; now apply Rinv_0_lt_compat |].
  generalize (py_round_nearest (x * 10 ^ n)). lra.
Qed.

Lemma rebuild_items_ok (v : viewer) (p : params) :
  items_ok (rebuild_items (num_external_pins p) (num_output_pins p) v) p.
Proof.
  unfold items_ok, rebuild_items.
  cbn [outer_pin_items inner_pin_items inner_circle_items cycloid_items
       camshaft_item eccentric_camshaft_item outer_ring_inner_item
       outer_ring_outer_item].
  rewrite !length_map, !range_length.
  repeat split; try reflexivity.
  - now destruct (camshaft_item v).
  - now destruct (eccentric_camshaft_item v).
  - now destruct (outer_ring_inner_item v).
  - now destruct (outer_ring_outer_item v).
Qed.

Lemma settles (st : panel) :
  params_ok (panel_params st) ->
  items_ok (panel_viewer st) (panel_params st) ->
  exists st', update_viewer st = Done st' /\ panel_ok st'.
Proof.
  intros Hp Hi. exists (refreshed st). now apply update_viewer_settles.
Qed.

Ltac panel_simpl :=
  cbn [panel_params panel_viewer panel_phi animation_speed paused
       set_viewer set_int set_float toggle_pause
       eccentricity num_external_pins num_output_pins ring_diameter
       pin_diameter output_disk_diameter output_pin_diameter
       camshaft_diameter tolerance show_outer_ring outer_ring_width].

Ltac params_goal :=
  unfold params_ok; panel_simpl;
  repeat split; try assumption; try lia; try lra.

Ltac items_goal := panel_simpl; unfold items_ok; panel_simpl.

(** An integer slider moved within its range. *)
Lemma update_int_ok (s : slider) (k : int_key) (v : Z) (st : panel) :
  key s = IntKey k ->
  (k = Num_external_pins -> 3 <= v <= 100)%Z ->
  (k = Num_output_pins -> 3 <= v <= 45)%Z ->
  panel_ok st ->
  exists st', update s v st = Done st' /\ panel_ok st'.
Proof.
  intros Hk HvN HvNo ((Heven & HN & HNo & HD & Hd) & Hi & _).
  unfold update. rewrite Hk. cbv zeta.
  destruct k.
  - (* animation speed *)
    cbn [andb]. apply settles; [params_goal | items_goal; exact Hi].
  - (* external pins *)
    specialize (HvN eq_refl).
    assert (Hval : Z.even (slider_value_int Num_external_pins v) = true
                   /\ (4 <= slider_value_int Num_external_pins v <= 100)%Z).
    { unfold slider_value_int.
      destruct (Z.eqb_spec (v mod 2) 0) as [E | E].
      - assert (Hev : Z.even v = true)
          by (rewrite Zeven_mod; now apply Z.eqb_eq).
        split; [exact Hev |].
        destruct (Z.eq_dec v 3) as [-> | ?]; [discriminate | lia].
      - assert (Hodd : Z.even v = false).
        { rewrite Zeven_mod. now apply Z.eqb_neq. }
        split; [rewrite Z.even_add, Hodd; reflexivity |].
        destruct (Z.eq_dec v 100) as [-> | ?]; [discriminate | lia]. }
    destruct Hval as [Hev Hrange].
    set (value := slider_value_int Num_external_pins v) in *.
    clearbody value.
    cbn [set_int panel_params num_external_pins num_output_pins andb].
    rewrite Z.eqb_refl. cbn [negb orb].
    destruct (Z.eqb_spec value (num_external_pins (panel_params st)))
      as [E | E]; cbn [negb orb andb].
    + apply settles; [params_goal | items_goal; rewrite ?E; exact Hi].
    + apply settles; [params_goal | panel_simpl].
      apply (rebuild_items_ok _
               {| eccentricity := eccentricity (panel_params st);
                  num_external_pins := value;
                  num_output_pins := num_output_pins (panel_params st);
                  ring_diameter := ring_diameter (panel_params st);
                  pin_diameter := pin_diameter (panel_params st);
                  output_disk_diameter :=
                    output_disk_diameter (panel_params st);
                  output_pin_diameter := output_pin_diameter (panel_params st);
                  camshaft_diameter := camshaft_diameter (panel_params st);
                  tolerance := tolerance (panel_params st);
                  show_outer_ring := show_outer_ring (panel_params st);
                  outer_ring_width := outer_ring_width (panel_params st) |}).
  - (* output pins *)
    specialize (HvNo eq_refl). unfold slider_value_int.
    cbn [set_int panel_params num_external_pins num_output_pins andb].
    rewrite Z.eqb_refl. cbn [negb orb].
    destruct (Z.eqb_spec v (num_output_pins (panel_params st)))
      as [E | E]; cbn [negb orb andb].
    + apply settles; [params_goal | items_goal; rewrite ?E; exact Hi].
    + apply settles; [params_goal | panel_simpl].
      apply (rebuild_items_ok _
               {| eccentricity := eccentricity (panel_params st);
                  num_external_pins := num_external_pins (panel_params st);
                  num_output_pins := v;
                  ring_diameter := ring_diameter (panel_params st);
                  pin_diameter := pin_diameter (panel_params st);
                  output_disk_diameter :=
                    output_disk_diameter (panel_params st);
                  output_pin_diameter := output_pin_diameter (panel_params st);
                  camshaft_diameter := camshaft_diameter (panel_params st);
                  tolerance := tolerance (panel_params st);
                  show_outer_ring := show_outer_ring (panel_params st);
                  outer_ring_width := outer_ring_width (panel_params st) |}).
Qed.

(** A float slider whose value keeps the ring diameter positive and the
    pin diameter at 2 or more. *)
Lemma update_float_ok (s : slider) (k : float_key) (v : Z) (st : panel) :
  key s = FloatKey k ->
  scale s <> 0%Z ->
  (k = Ring_diameter -> 0 < py_round_to (IZR v / IZR (scale s)) 2) ->
  (k = Pin_diameter -> 2 <= py_round_to (IZR v / IZR (scale s)) 2) ->
  panel_ok st ->
  exists st', update s v st = Done st' /\ panel_ok st'.
Proof.
  intros Hk Hs HvD Hvd ((Heven & HN & HNo & HD & Hd) & Hi & _).
  unfold update. rewrite Hk. cbv zeta. unfold slider_value_float.
  assert (Hs0 : IZR (scale s) <> 0) by now apply not_0_IZR.
  py_ok Hs0. cbn [generated gui_bind].
  set (value := py_round_to (IZR v / IZR (scale s)) 2) in *.
  clearbody value.
  destruct k; (apply settles; [params_goal | items_goal; exact Hi]);
    first [now apply HvD | now apply Hvd].
Qed.

(** The scale and the bounds of the sliders of the panel. *)
Lemma float_sliders (s : slider) (k : float_key) :
  In s sliders -> key s = FloatKey k ->
  (1 <= scale s)%Z
  /\ (k = Ring_diameter ->
      scale s = 1%Z /\ slider_minimum s = 20%Z /\ slider_maximum s = 250%Z)
  /\ (k = Pin_diameter ->
      scale s = 2%Z /\ slider_minimum s = 4%Z /\ slider_maximum s = 50%Z).
Proof.
  intros Hin Hk. unfold sliders in Hin. cbn [In] in Hin.
  repeat (destruct Hin as [<- | Hin]); try contradiction;
    cbn [key] in Hk; try discriminate;
    injection Hk as <-;
    unfold slider_minimum, slider_maximum, scale, is_int;
    cbn [key step min_val max_val].
  - replace (1 / 0.1) with (IZR 10) by lra. rewrite py_int_IZR.
    repeat split; (lia || discriminate).
  - replace (1 / 0.5) with (IZR 2) by lra. rewrite py_int_IZR.
    replace (2 * IZR 2) with (IZR 4) by lra.
    replace (25 * IZR 2) with (IZR 50) by lra. rewrite !py_int_IZR.
    repeat split; (lia || discriminate).
  - replace (1 / 1) with (IZR 1) by lra. rewrite py_int_IZR.
    replace (20 * IZR 1) with (IZR 20) by lra.
    replace (250 * IZR 1) with (IZR 250) by lra. rewrite !py_int_IZR.
    repeat split; (lia || discriminate).
  - replace (1 / 0.1) with (IZR 10) by lra. rewrite py_int_IZR.
    repeat split; (lia || discriminate).
  - replace (1 / 0.5) with (IZR 2) by lra. rewrite py_int_IZR.
    repeat split; (lia || discriminate).
  - replace (1 / 0.5) with (IZR 2) by lra. rewrite py_int_IZR.
    repeat split; (lia || discriminate).
  - replace (1 / 0.01) with (IZR 100) by lra. rewrite py_int_IZR.
    repeat split; (lia || discriminate).
  - replace (1 / 0.5) with (IZR 2) by lra. rewrite py_int_IZR.
    repeat split; (lia || discriminate).
Qed.

Lemma int_sliders (s : slider) (k : int_key) :
  In s sliders -> key s = IntKey k ->
  (k = Num_external_pins ->
   slider_minimum s = 3%Z /\ slider_maximum s = 100%Z)
  /\ (k = Num_output_pins ->
      slider_minimum s = 3%Z /\ slider_maximum s = 45%Z).
Proof.
  intros Hin Hk. unfold sliders in Hin. cbn [In] in Hin.
  repeat (destruct Hin as [<- | Hin]); try contradiction;
    cbn [key] in Hk; try discriminate;
    injection Hk as <-;
    unfold slider_minimum, slider_maximum, is_int;
    cbn [key min_val max_val]; rewrite !py_int_IZR;
    repeat split; (reflexivity || discriminate).
Qed.

(** The step of the panel: a handler started in a state the panel keeps
    to ends in such a state. *)
Lemma handle_ok (ev : event) (st : panel) :
  in_range ev -> panel_ok st ->
  exists st', handle ev st = Done st' /\ panel_ok st'.
Proof.
  intros Hev Hok.
  pose proof Hok as ((Heven & HN & HNo & HD & Hd) & Hi & Hup).
  destruct ev as [s v | state | | | |]; cbn [handle].
  - (* a slider *)
    destruct Hev as [Hin Hv]. destruct (key s) as [k | k] eqn:Hk.
    + destruct (int_sliders s k Hin Hk) as [H1 H2].
      apply (update_int_ok s k); try assumption.
      * intros E. destruct (H1 E) as [Hmin Hmax]. lia.
      * intros E. destruct (H2 E) as [Hmin Hmax]. lia.
    + destruct (float_sliders s k Hin Hk) as [Hs [H1 H2]].
      apply (update_float_ok s k); try assumption; [lia | |].
      * intros E. destruct (H1 E) as [Hsc [Hmin Hmax]]. rewrite Hsc.
        rewrite (py_round_to_exact _ 2 (100 * v)).
        -- assert (20 <= IZR v) by (apply IZR_le; lia). lra.
        -- rewrite mult_IZR. simpl. field.
      * intros E. destruct (H2 E) as [Hsc [Hmin Hmax]]. rewrite Hsc.
        rewrite (py_round_to_exact _ 2 (50 * v)).
        -- assert (4 <= IZR v) by (apply IZR_le; lia). lra.
        -- rewrite mult_IZR. simpl. field.
  - (* the check box *)
    unfold toggle_outer_ring. cbv zeta.
    apply settles; [params_goal | items_goal; exact Hi].
  - (* normalize *)
    unfold normalize_to_pins, normalized_ring_diameter. cbv zeta.
    py_ok PI_neq0. cbn [generated gui_bind].
    apply settles; [| items_goal; exact Hi].
    unfold params_ok. panel_simpl.
    repeat split; try assumption; try lia.
    set (x := (pin_diameter (panel_params st)
               * IZR (num_external_pins (panel_params st))
               + 1.25 * pin_diameter (panel_params st)
                 * IZR (num_external_pins (panel_params st) - 1)) / PI).
    assert (Hx : 1 < x).
    { unfold x. generalize PI_RGT_0 PI_4. intros Hpi0 Hpi4.
      assert (H4 : 4 <= IZR (num_external_pins (panel_params st)))
        by (apply IZR_le; lia).
      rewrite minus_IZR.
      apply Rmult_lt_reg_r with PI; [exact Hpi0 |].
      unfold Rdiv. rewrite Rmult_assoc, Rinv_l by lra. nra. }
    generalize (py_round_to_near x 1). intros Hnear.
    apply Rabs_within in Hnear. simpl in Hnear. lra.
  - (* pause *)
    exists (toggle_pause st). split; [reflexivity |].
    split; [exact (conj Heven (conj HN (conj HNo (conj HD Hd)))) |].
    split; [exact Hi |].
    unfold update_viewer in *. panel_simpl.
    destruct (update_geometry _ _ _ _ _ _ _ _ _ _ _ _ _) as [v' | e];
      cbn [gui_bind] in *; [| discriminate].
    injection Hup as Hup. unfold toggle_pause, set_viewer. f_equal.
    apply (f_equal panel_viewer) in Hup. cbn in Hup. now rewrite Hup.
  - (* reset *)
    unfold reset_params. cbv zeta.
    assert (Hdef : params_ok default_params).
    { unfold params_ok, default_params. panel_simpl.
      repeat split; try reflexivity; try lia; lra. }
    assert (Hfinish : forall st1,
              panel_params st1 = default_params ->
              exists st',
                update_viewer
                  (set_viewer
                     (rebuild_items (num_external_pins (panel_params st1))
                        (num_output_pins (panel_params st1))
                        (panel_viewer st1)) st1) = Done st'
                /\ panel_ok st').
    { intros st1 Hp1. apply settles; panel_simpl.
      - now rewrite Hp1.
      - apply rebuild_items_ok. }
    destruct Hi as (_ & _ & _ & _ & H5 & H6 & H7 & H8).
    destruct (show_outer_ring (panel_params st)).
    + unfold toggle_outer_ring. cbv zeta.
      rewrite update_viewer_ok; panel_simpl; try assumption;
        [| unfold default_params; panel_simpl; lia
         | unfold default_params; panel_simpl; lra].
      cbn [gui_bind]. apply Hfinish. reflexivity.
    + cbn [gui_bind]. apply Hfinish. reflexivity.
  - (* the timer *)
    unfold advance_animation. destruct (paused st); cbn [negb].
    + exists st. split; [reflexivity | exact Hok].
    + apply settles; [params_goal | items_goal; exact Hi].
Qed.

(** New items that are given as many curves show these curves. *)
Lemma set_each_new (n : Z) (curves : list (list fpoint3)) :
  length curves = Z.to_nat n ->
  set_each (map (fun _ => new_item) (range n)) curves
  = map (fun c => setData c new_item) curves.
Proof.
  unfold range. generalize (seq 0 (Z.to_nat n)) (length_seq (Z.to_nat n) 0).
  intros l Hl Hc. rewrite <- Hl in Hc. clear Hl. rewrite map_map.
  revert curves Hc. induction l as [| a l IH]; intros [| c curves] Hc;
    try discriminate; [reflexivity |].
  cbn [map set_each]. f_equal. apply IH. now injection Hc.
Qed.

(** After [rebuild_items], with two external pins or more and a ring
    diameter that is not zero, a refresh gives every item its curve. *)
Lemma update_geometry_rebuilt (v : viewer) (p : params) (phi : R) :
  (2 <= num_external_pins p)%Z -> ring_diameter p <> 0 ->
  let v0 := rebuild_items (num_external_pins p) (num_output_pins p) v in
  update_geometry v0 (eccentricity p) (num_external_pins p)
    (num_output_pins p) (ring_diameter p) (pin_diameter p)
    (output_disk_diameter p) (output_pin_diameter p) (camshaft_diameter p)
    (tolerance p) (show_outer_ring p) (outer_ring_width p) phi
  = Done (shown_viewer v0 p phi).
Proof.
  intros HN HD v0.
  generalize
    (update_viewer_ok
       {| panel_params := p; animation_speed := 0; panel_phi := phi;
          paused := false; panel_viewer := v0 |}).
  unfold update_viewer, refreshed, set_viewer. panel_simpl.
  intros H.
  assert (Hitems : camshaft_item v0 <> None
                   /\ eccentric_camshaft_item v0 <> None
                   /\ outer_ring_inner_item v0 <> None
                   /\ outer_ring_outer_item v0 <> None).
  { destruct (rebuild_items_ok v p) as (_ & _ & _ & _ & H5). exact H5. }
  destruct Hitems as (H5 & H6 & H7 & H8).
  specialize (H HN HD H5 H6 H7 H8).
  destruct (update_geometry _ _ _ _ _ _ _ _ _ _ _ _ _) as [v' | e];
    cbn [gui_bind] in H; [| discriminate].
  injection H as H. now rewrite H.
Qed.

(** X20.  How a refresh of the viewer ends once [rebuild_items] has run, for
    every parameter set: it never fails on a missing item, it raises
    exactly where the disk generator raises, and otherwise it leaves the
    viewer of [shown_viewer]. *)
Theorem update_geometry_outcome (v : viewer) (p : params) (phi : R) :
  let v0 := rebuild_items (num_external_pins p) (num_output_pins p) v in
  update_geometry v0 (eccentricity p) (num_external_pins p)
    (num_output_pins p) (ring_diameter p) (pin_diameter p)
    (output_disk_diameter p) (output_pin_diameter p) (camshaft_diameter p)
    (tolerance p) (show_outer_ring p) (outer_ring_width p) phi
  = if (num_external_pins p <? 0)%Z
    then Failed (GeneratorError ValueError)
    else if (num_external_pins p <? 2)%Z
    then Failed (GeneratorError ZeroDivisionError)
    else if Req_dec_T (ring_diameter p) 0
    then Failed (GeneratorError ZeroDivisionError)
    else Done (shown_viewer v0 p phi).
Proof.
  intros v0.
  destruct (Z.ltb_spec (num_external_pins p) 2) as [Hsmall | HN].
  - unfold update_geometry.
    rewrite pin_ring_ok. cbn [generated gui_bind].
    rewrite inner_pins_cases, inner_circles_cases.
    unfold cycloid_disk. rewrite cycloid_disk_with_outcome by lia.
    destruct (Z.ltb_spec (num_external_pins p) 0) as [Hneg | Hpos];
      destruct (Z.ltb_spec (num_external_pins p) 2) as [_ | ?]; try lia;
      destruct (Z.leb_spec (num_output_pins p) 0) as [H0 | H0];
      cbn [generated gui_bind]; try reflexivity;
      destruct (Z.eqb_spec (num_external_pins p) 1) as [H1 | H1];
      cbn [generated gui_bind]; try reflexivity; try lia;
      rewrite inner_pins_ok by exact H1; cbn [generated gui_bind];
      rewrite inner_circles_ok by exact H1; cbn [generated gui_bind];
      reflexivity.
  - destruct (Z.ltb_spec (num_external_pins p) 0) as [? | _]; [lia |].
    destruct (Req_dec_T (ring_diameter p) 0) as [HD | HD].
    + unfold update_geometry.
      rewrite pin_ring_ok. cbn [generated gui_bind].
      rewrite inner_pins_ok, inner_circles_ok by lia.
      cbn [generated gui_bind].
      unfold cycloid_disk. rewrite cycloid_disk_with_outcome by lia.
      destruct (Z.ltb_spec (num_external_pins p) 0) as [? | _]; [lia |].
      destruct (Z.ltb_spec (num_external_pins p) 2) as [? | _]; [lia |].
      destruct (Req_dec_T (ring_diameter p) 0) as [_ | ?];
        [reflexivity | contradiction].
    + now apply update_geometry_rebuilt.
Qed.

(** X21.  After [rebuild_items], for two external pins or more and a ring
    diameter that is not zero, a refresh leaves one item per curve of the
    generators, each showing its curve, and the housing items visible
    exactly when the housing is enabled. *)
Theorem viewer_shows_generated_curves (v : viewer) (p : params) (phi : R) :
  (2 <= num_external_pins p)%Z -> ring_diameter p <> 0 ->
  exists v' pins ip ic disk cam ecc,
    update_geometry
      (rebuild_items (num_external_pins p) (num_output_pins p) v)
      (eccentricity p) (num_external_pins p)
      (num_output_pins p) (ring_diameter p) (pin_diameter p)
      (output_disk_diameter p) (output_pin_diameter p) (camshaft_diameter p)
      (tolerance p) (show_outer_ring p) (outer_ring_width p) phi
    = Done v'
    /\ pin_ring (num_external_pins p) (ring_diameter p) (pin_diameter p)
       = Ok pins
    /\ inner_pins (num_output_pins p) (num_external_pins p)
         (output_pin_diameter p) (output_disk_diameter p) phi = Ok ip
    /\ inner_circles (eccentricity p) (num_output_pins p)
         (num_external_pins p) (output_pin_diameter p)
         (output_disk_diameter p) phi (tolerance p) = Ok ic
    /\ cycloid_disk (eccentricity p) (num_external_pins p) (ring_diameter p)
         (pin_diameter p) phi (tolerance p) = Ok [disk]
    /\ camshaft (camshaft_diameter p) phi (tolerance p) = Ok cam
    /\ eccentric_camshaft (eccentricity p) (camshaft_diameter p) phi = Ok ecc
    /\ map pos (outer_pin_items v') = map (map np_row) pins
    /\ map pos (inner_pin_items v') = map (map np_row) ip
    /\ map pos (inner_circle_items v') = map (map np_row) ic
    /\ map pos (cycloid_items v') = [disk]
    /\ option_map pos (camshaft_item v') = Some (map np_row cam)
    /\ option_map pos (eccentric_camshaft_item v') = Some (map np_row ecc)
    /\ option_map visible (outer_ring_inner_item v')
       = Some (show_outer_ring p)
    /\ option_map visible (outer_ring_outer_item v')
       = Some (show_outer_ring p)
    /\ (show_outer_ring p = true ->
        exists inner outer,
          outer_ring (num_external_pins p) (ring_diameter p) (pin_diameter p)
            (outer_ring_width p) (tolerance p) = Ok (inner, outer)
          /\ option_map pos (outer_ring_inner_item v')
             = Some (map np_row inner)
          /\ option_map pos (outer_ring_outer_item v')
             = Some (map np_row outer)).
Proof.
  intros HN HD. rewrite update_geometry_rebuilt by assumption.
  assert (Hshow : forall curves : list (list fpoint3),
            map pos (map (fun c => setData c new_item) curves) = curves).
  { intros curves. rewrite map_map. cbn [setData pos]. apply map_id. }
  unfold shown_viewer, rebuild_items. cbv zeta.
  cbn [outer_pin_items inner_pin_items inner_circle_items cycloid_items
       camshaft_item eccentric_camshaft_item outer_ring_inner_item
       outer_ring_outer_item].
  rewrite pin_ring_ok.
  rewrite inner_pins_ok, inner_circles_ok by lia.
  unfold cycloid_disk. rewrite cycloid_disk_with_ok
    by (assumption || (unfold lobes; lia)).
  rewrite camshaft_ok, eccentric_camshaft_ok.
  cbn [curves_of curve_of firstn].
  do 7 eexists. do 7 (split; [reflexivity |]).
  rewrite !set_each_new by now rewrite !length_map, range_length.
  cbn [outer_pin_items inner_pin_items inner_circle_items cycloid_items
       camshaft_item eccentric_camshaft_item outer_ring_inner_item
       outer_ring_outer_item].
  rewrite !Hshow.
  do 3 (split; [reflexivity |]).
  split; [reflexivity |].
  split; [now destruct (camshaft_item v) |].
  split; [now destruct (eccentric_camshaft_item v) |].
  split; [now destruct (outer_ring_inner_item v), (show_outer_ring p) |].
  split; [now destruct (outer_ring_outer_item v), (show_outer_ring p) |].
  intros Hs. rewrite Hs. rewrite outer_ring_ok by lia. cbv zeta.
  do 2 eexists. split; [reflexivity |]. cbn [profiles_of fst snd].
  split; [now destruct (outer_ring_inner_item v) |].
  now destruct (outer_ring_outer_item v).
Qed.

Lemma viewer_shows_generated_curves_witness :
  exists v' disk,
    update_geometry (rebuild_items 24 7 viewer_init)
      1.4 24 7 80 5 50 10 20 0.2 false 15 0 = Done v'
    /\ map pos (cycloid_items v') = [disk].
Proof.
  destruct (viewer_shows_generated_curves viewer_init default_params 0)
    as (v' & pins & ip & ic & disk & cam & ecc & H1 & _ & _ & _ & _ & _ & _
        & _ & _ & _ & H2 & _).
  - simpl. lia.
  - simpl. lra.
  - exists v', disk. split; [exact H1 | exact H2].
Defined.

Lemma panel_init_ok : exists st0, panel_init = Done st0 /\ panel_ok st0.
Proof.
  unfold panel_init. apply settles; panel_simpl.
  - unfold params_ok, default_params. panel_simpl.
    repeat split; try reflexivity; try lia; lra.
  - apply rebuild_items_ok.
Qed.

Lemma handle_all_ok (evs : list event) (st : panel) :
  Forall in_range evs -> panel_ok st ->
  exists st', handle_all evs st = Done st' /\ panel_ok st'.
Proof.
  intros Hevs. revert st. induction Hevs as [| ev evs Hev _ IH]; intros st Hok.
  - exists st. split; [reflexivity | exact Hok].
  - destruct (handle_ok ev st Hev Hok) as [st1 [H1 Hok1]].
    cbn [handle_all]. rewrite H1. cbn [gui_bind]. now apply IH.
Qed.

(** X22.  Whatever the user does with the sliders (within their ranges), the
    check box and the buttons, and however often the timer fires, no
    handler of the panel raises, and the panel stays in a state with an
    even number of external pins between 4 and 100, 3 to 45 output pins,
    a positive ring diameter, one viewer item per curve, and a viewer that
    shows the current parameters. *)
Theorem panel_never_raises (evs : list event) :
  Forall in_range evs ->
  exists st0 st,
    panel_init = Done st0
    /\ handle_all evs st0 = Done st
    /\ panel_ok st.
Proof.
  intros Hevs. destruct panel_init_ok as [st0 [H0 Hok0]].
  destruct (handle_all_ok evs st0 Hevs Hok0) as [st [H Hok]].
  exists st0, st. split; [exact H0 |]. split; [exact H | exact Hok].
Qed.

Lemma panel_never_raises_witness :
  exists st0 st,
    panel_init = Done st0
    /\ handle_all
         [ SliderMoved {| key := IntKey Num_external_pins; min_val := 3;
                          max_val := 100; step := 1 |} 3;
           NormalizeClicked; OuterRingToggled 2; TimerTick; ResetClicked ]
         st0 = Done st
    /\ panel_ok st.
Proof.
  apply panel_never_raises.
  apply Forall_cons;
    [| repeat (apply Forall_cons; [exact I |]); apply Forall_nil].
  split; [right; right; left; reflexivity |].
  unfold slider_minimum, slider_maximum, is_int. cbn [key min_val max_val].
  rewrite !py_int_IZR. lia.
Defined.

(** X23.  [normalize_to_pins] stores the ring diameter
    [(d N + 1.25 d (N - 1)) / pi] and two thirds of it as output disk
    diameter, each rounded to one digit and so within 0.05 of the exact
    value, and changes no other parameter. *)
Theorem normalize_to_pins_diameters (st : panel) :
  panel_ok st ->
  let p := panel_params st in
  let exact := (pin_diameter p * IZR (num_external_pins p)
                + 1.25 * pin_diameter p * IZR (num_external_pins p - 1))
               / PI in
  exists st',
    normalize_to_pins st = Done st'
    /\ Rabs (ring_diameter (panel_params st') - exact) <= 0.05
    /\ Rabs (output_disk_diameter (panel_params st') - 2 / 3 * exact)
       <= 0.05
    /\ 0 < exact
    /\ panel_params st'
       = {| eccentricity := eccentricity p;
            num_external_pins := num_external_pins p;
            num_output_pins := num_output_pins p;
            ring_diameter := ring_diameter (panel_params st');
            pin_diameter := pin_diameter p;
            output_disk_diameter := output_disk_diameter (panel_params st');
            output_pin_diameter := output_pin_diameter p;
            camshaft_diameter := camshaft_diameter p;
            tolerance := tolerance p;
            show_outer_ring := show_outer_ring p;
            outer_ring_width := outer_ring_width p |}
    /\ panel_phi st' = panel_phi st
    /\ panel_ok st'.
Proof.
  intros Hok. cbv zeta.
  destruct (handle_ok NormalizeClicked st I Hok) as [st' [H Hok']].
  cbn [handle] in H. exists st'. split; [exact H |].
  pose proof Hok as ((Heven & HN & HNo & HD & Hd) & Hi & Hup).
  unfold normalize_to_pins, normalized_ring_diameter in H. cbv zeta in H.
  rewrite (py_div_ok _ _ PI_neq0) in H. cbn [generated gui_bind] in H.
  unfold update_viewer in H. panel_simpl. cbn [panel_params] in H.
  destruct (update_geometry _ _ _ _ _ _ _ _ _ _ _ _ _) as [v' | e];
    cbn [gui_bind] in H; [| discriminate].
  injection H as <-. unfold set_viewer. panel_simpl.
  assert (H10 : / 2 * / 10 ^ 1 = 0.05) by (simpl; lra).
  split; [rewrite <- H10; apply py_round_to_near |].
  split; [rewrite <- H10; apply py_round_to_near |].
  split.
  { apply Rdiv_lt_0_compat; [| apply PI_RGT_0].
    assert (H4 : 4 <= IZR (num_external_pins (panel_params st)))
      by (apply IZR_le; lia).
    rewrite minus_IZR. nra. }
  split; [reflexivity |]. split; [reflexivity |]. exact Hok'.
Qed.

Lemma normalize_to_pins_diameters_witness :
  exists st0 st',
    panel_init = Done st0 /\ normalize_to_pins st0 = Done st'.
Proof.
  destruct panel_init_ok as [st0 [H0 Hok0]].
  destruct (normalize_to_pins_diameters st0 Hok0) as [st' [H _]].
  exists st0, st'. split; assumption.
Defined.

(** ** Version 1.1 against version 1.5 *)

Lemma mapM_ext {A B : Type} (f g : A -> result B) (l : list A) :
  (forall a, In a l -> f a = g a) -> mapM f l = mapM g l.
Proof.
  induction l as [| a l IH]; intros H; [reflexivity |].
  cbn [mapM]. rewrite (H a) by now left.
  rewrite IH by (intros; apply H; now right). reflexivity.
Qed.

(** X24.  The output pins, the output holes and the camshaft bore of
    version 1.1 are those of version 1.5 at tolerance 0, with diameters
    in place of radii. *)
Theorem v1_1_circles_without_tolerance (e : R) (n N : Z)
    (rd Rd cam_d phi : R) :
  V1_1.inner_pins n N rd Rd phi = inner_pins n N (2 * rd) (2 * Rd) phi
  /\ V1_1.inner_circles e n N rd Rd phi
     = inner_circles e n N (2 * rd) (2 * Rd) phi 0
  /\ V1_1.camshaft cam_d phi = camshaft cam_d phi 0.
Proof.
  assert (H2 : forall x, 2 * x / 2 = x) by (intros; field).
  split; [| split].
  - unfold V1_1.inner_pins, inner_pins. rewrite linspace_200. cbn [bind].
    apply mapM_ext. intros i _. rewrite !H2. reflexivity.
  - unfold V1_1.inner_circles, inner_circles, hole_radius.
    rewrite linspace_200. cbn [bind].
    apply mapM_ext. intros i _. rewrite !H2.
    replace (rd + e + 0) with (rd + e) by ring. reflexivity.
  - unfold V1_1.camshaft, camshaft, hole_diameter.
    rewrite linspace_200. cbn [bind].
    replace (cam_d + 2 * 0) with cam_d by ring. reflexivity.
Qed.

Lemma rotate_rotate (a b : R) (p : R * R) :
  rotate a (rotate b p) = rotate (b + a) p.
Proof.
  unfold rotate. cbn [fst snd]. rewrite cos_plus, sin_plus.
  f_equal; ring.
Qed.

(** A sample of the code under any rotation [rot]: the offset point,
    rotated and moved by the eccentricity vector, or a row that is not
    finite where the speed is zero. *)
Lemma sample_rotated (e rc rs r rot phi t : R) :
  cycloid_disk_sample e rc rs ((rc + rs) / rs) (e / rs) r rot phi t
  = if Req_dec_T (trace_speed rc rs e t) 0 then nonfinite_row
    else finite_row (translate (ecc_vector e phi)
                       (rotate rot (offset_curve rc rs e r t))).
Proof.
  unfold cycloid_disk_sample. rewrite code_speed.
  destruct (Req_dec_T (trace_speed rc rs e t) 0) as [Hsp | Hsp].
  - rewrite Hsp, np_div_zero. reflexivity.
  - rewrite (np_div_ok _ _ Hsp).
    unfold finite_row, translate, rotate, offset_curve,
      unit_normal, ecc_vector, trace_x, trace_y, trace_dx, trace_dy.
    unfold np_add, np_sub, np_mul. cbn [fst snd np_lift2].
    apply f_equal2; [apply f_equal2 |];
      [apply f_equal | apply f_equal | reflexivity]; unfold Rdiv; ring.
Qed.

(** A sample of lobe [i] of version 1.1 is the sample of version 1.5,
    at tolerance 0, [i] lobes further along the outline. *)
Lemma segment_sample (e : R) (N : Z) (D d phi : R) (i : Z) (t : R) :
  (2 <= N)%Z -> D <> 0 ->
  cycloid_disk_sample e (r_c N D) (r_s N D)
    ((r_c N D + r_s N D) / r_s N D) (e / r_s N D) (d / 2)
    (IZR i * 2 * PI / IZR (lobes N) - phi / IZR (lobes N)) phi t
  = disk_sample e N D d 0 phi (t + 2 * PI * IZR i / IZR (lobes N)).
Proof.
  intros HN HD.
  destruct (lobes_ratio N D HN HD) as [_ [_ Hk]].
  assert (HL : IZR (lobes N) <> 0) by (unfold lobes; apply not_0_IZR; lia).
  assert (Hshift :
    (r_c N D + r_s N D) / r_s N D * (t + 2 * PI * IZR i / IZR (lobes N))
    = (r_c N D + r_s N D) / r_s N D * t + 2 * PI * IZR i / IZR (lobes N)
      + 2 * IZR i * PI).
  { rewrite Hk. replace (IZR N) with (IZR (lobes N) + 1)
      by (unfold lobes; rewrite minus_IZR; ring).
    field. exact HL. }
  unfold disk_sample. rewrite !sample_rotated.
  rewrite (trace_speed_shift _ _ _ _ _ i Hshift).
  destruct (Req_dec_T (trace_speed (r_c N D) (r_s N D) e t) 0);
    [reflexivity |].
  rewrite (offset_curve_shift _ _ _ _ _ i Hshift), rotate_rotate.
  replace (d / 2 + 0) with (d / 2) by ring.
  replace (2 * PI * IZR i / IZR (lobes N) + - phi / IZR (lobes N))
    with (IZR i * 2 * PI / IZR (lobes N) - phi / IZR (lobes N))
    by (field; exact HL).
  reflexivity.
Qed.

(** The disk of version 1.1 for at least two pins and a ring diameter
    that is not zero. *)
Lemma v1_1_cycloid_disk_ok (e : R) (N : Z) (D d phi : R) :
  (2 <= N)%Z -> D <> 0 ->
  V1_1.cycloid_disk e N D d phi
  = Ok (map (fun i =>
               map (fun t => disk_sample e N D d 0 phi
                               (t + 2 * PI * IZR i / IZR (lobes N)))
                   (grid (- PI / IZR (lobes N)) (PI / IZR (lobes N)) 1500))
            (range (lobes N))).
Proof.
  intros HN HD. destruct (pins_nonzero N HN) as [HN0 HL0].
  destruct (lobes_ratio N D HN HD) as [Hs _].
  destruct (code_radii N D) as [Hrc Hrs].
  unfold V1_1.cycloid_disk. cbv zeta.
  py_ok HL0. py_ok HL0. rewrite linspace_endpoint by lia. cbn [bind].
  replace (N - 1 + 1)%Z with N by lia.
  py_ok HN0. py_ok HN0. rewrite Hrs, Hrc.
  apply mapM_ok. intros i _. py_ok Hs. py_ok Hs. py_ok HL0. py_ok HL0.
  f_equal. apply map_ext. intros t. now apply segment_sample.
Qed.

(** The sample function of version 1.5 has period [2 pi]. *)
Lemma disk_sample_period (e : R) (N : Z) (D d tol phi t : R) :
  (2 <= N)%Z -> D <> 0 ->
  disk_sample e N D d tol phi (t + 2 * PI) = disk_sample e N D d tol phi t.
Proof.
  intros HN HD. destruct (lobes_ratio N D HN HD) as [_ [_ Hk]].
  unfold disk_sample, cycloid_disk_sample. rewrite Hk.
  replace (IZR N * (t + 2 * PI)) with (IZR N * t + 2 * IZR N * PI) by ring.
  rewrite cos_Z_turns, sin_Z_turns.
  replace (t + 2 * PI) with (t + 2 * IZR 1 * PI) by ring.
  rewrite cos_Z_turns, sin_Z_turns. reflexivity.
Qed.

(** X25.  Version 1.1 draws the outline that version 1.5 draws at tolerance
    0, as one segment of 1500 samples per lobe: sample [j] of segment [i]
    is the sample of version 1.5 at the parameter of [j] moved [i] lobes
    on, and every segment ends where the next one, or after the last the
    first one, starts. *)
Theorem v1_1_disk_segments (e : R) (N : Z) (D d phi : R) :
  (2 <= N)%Z -> D <> 0 ->
  exists curves,
    V1_1.cycloid_disk e N D d phi = Ok curves
    /\ length curves = Z.to_nat (lobes N)
    /\ forall i : Z, (0 <= i < lobes N)%Z ->
         length (nth (Z.to_nat i) curves []) = 1500%nat
         /\ (forall (j : nat) (dflt : fpoint3), (j < 1500)%nat ->
               nth j (nth (Z.to_nat i) curves []) dflt
               = disk_sample e N D d 0 phi
                   (nth j (grid (- PI / IZR (lobes N)) (PI / IZR (lobes N))
                             1500) 0
                    + 2 * PI * IZR i / IZR (lobes N)))
         /\ (forall dflt : fpoint3,
               last (nth (Z.to_nat i) curves []) dflt
               = hd dflt (nth (Z.to_nat ((i + 1) mod lobes N)) curves [])).
Proof.
  intros HN HD. rewrite v1_1_cycloid_disk_ok by assumption.
  assert (HL : IZR (lobes N) <> 0) by (unfold lobes; apply not_0_IZR; lia).
  assert (HLpos : (0 < lobes N)%Z) by (unfold lobes; lia).
  eexists. split; [reflexivity |].
  split; [now rewrite length_map, range_length |].
  intros i Hi.
  assert (Hnext : (0 <= (i + 1) mod lobes N < lobes N)%Z)
    by (apply Z.mod_pos_bound; exact HLpos).
  rewrite !nth_map_range by lia. rewrite !Z2Nat.id by lia.
  split; [now rewrite length_map, grid_length |].
  split.
  - intros j dflt Hj.
    rewrite nth_indep with (d' := disk_sample e N D d 0 phi
                                    (0 + 2 * PI * IZR i / IZR (lobes N)))
      by (rewrite length_map, grid_length; lia).
    now rewrite (map_nth (fun t => disk_sample e N D d 0 phi
                                     (t + 2 * PI * IZR i / IZR (lobes N)))).
  - intros dflt.
    destruct (grid_first_last (- PI / IZR (lobes N)) (PI / IZR (lobes N))
                1500) as [mid ->]; [lia |].
    cbn [map hd]. rewrite map_app. cbn [map]. rewrite last_cons_snoc.
    destruct (Z.eq_dec (i + 1) (lobes N)) as [E | E].
    + rewrite E, Z.mod_same by lia.
      replace (PI / IZR (lobes N) + 2 * PI * IZR i / IZR (lobes N))
        with (- PI / IZR (lobes N) + 2 * PI * IZR 0 / IZR (lobes N) + 2 * PI).
      * now apply disk_sample_period.
      * replace (IZR i) with (IZR (lobes N) - 1)
          by (rewrite <- E, plus_IZR; ring).
        field. exact HL.
    + rewrite Z.mod_small by lia. f_equal. rewrite plus_IZR. field. exact HL.
Qed.

Lemma v1_1_disk_segments_witness :
  exists curves,
    V1_1.cycloid_disk 1 4 40 5 0 = Ok curves /\ length curves = 3%nat.
Proof.
  destruct (v1_1_disk_segments 1 4 40 5 0) as [curves [H1 [H2 _]]];
    [lia | lra |].
  exists curves. split; [exact H1 |]. rewrite H2. reflexivity.
Defined.

(** ** The export buttons of the panel *)

(** X26.  From a state the panel keeps to, an export never fails on the
    parameters: the DXF button ends in a warning exactly when [ezdxf] is
    missing and in an error exactly when the path cannot be written, the
    SVG button in an error exactly when the file cannot be opened; in
    every other case the file is written and the success box is shown.
    A cancelled dialog does nothing. *)
Theorem export_buttons (fmt3 : npfloat -> string) (fstr : R -> string)
    (filename : string) (st : panel) (w : world) (fs : filesystem) :
  panel_ok st ->
  export_dxf filename st w
  = (if String.eqb filename "" then (None, w)
     else if negb (ezdxf_installed w) then (Some Warning, w)
     else if negb (writable w filename) then (Some Critical, w)
     else (Some Information,
           saved {| layers := layers_config;
                    modelspace :=
                      dxf_entities (panel_params st) (panel_phi st)
                        (if Rlt_dec 0 (shaft_radius
                                         (eccentricity (panel_params st))
                                         (camshaft_diameter (panel_params st)))
                         then [eccentric_cam_circle (panel_params st)
                                 (panel_phi st)]
                         else []) |}
                 filename w))
  /\ export_svg fmt3 fstr filename st fs
     = (if String.eqb filename "" then (None, fs)
        else if negb (openable fs filename) then (Some Critical, fs)
        else (Some Information,
              written (String.concat newline
                         (svg_document fmt3 fstr (panel_params st)
                            (panel_phi st)))
                filename fs)).
Proof.
  intros ((_ & HN & _ & HD & _) & _ & _).
  assert (HD0 : ring_diameter (panel_params st) <> 0) by lra.
  unfold export_dxf, export_svg.
  rewrite export_to_svg_ok by (lia || assumption).
  destruct (String.eqb filename ""); [split; reflexivity |].
  split.
  - destruct (ezdxf_installed w) eqn:Hez; cbn [negb].
    + destruct (writable w filename) eqn:Hwr; cbn [negb].
      * rewrite export_to_dxf_ok by (lia || assumption). reflexivity.
      * rewrite export_to_dxf_unwritable by (lia || assumption).
        reflexivity.
    + unfold export_to_dxf. rewrite Hez. reflexivity.
  - now destruct (openable fs filename).
Qed.

Lemma export_buttons_witness :
  exists st0,
    panel_init = Done st0
    /\ fst (export_dxf "gearbox.dxf" st0 ready_world) = Some Information.
Proof.
  destruct panel_init_ok as [st0 [H0 Hok0]].
  exists st0. split; [exact H0 |].
  destruct (export_buttons (fun _ => "0"%string) (fun _ => "0"%string)
              "gearbox.dxf" st0 ready_world
              {| openable := fun _ => true; text := fun _ => None |} Hok0)
    as [H _].
  rewrite H. reflexivity.
Defined.
